(** * trurl: the URL mutation and rendering pipeline of [trurl.c]

    A shallow embedding of [src/trurl.c] and the properties of its
    set phase, append phase, format interpreter and batch loops.

    C strings are [string]s (the terminating NUL is implicit), a pointer into
    a string is the suffix it points at, [size_t] lengths and offsets are
    [nat], [int] results are [Z].  The URL library (libcurl's URL API) is an
    interface record [Engine]; the program is written once, over any engine.
    Output streams and [exit] are explicit: a computation maps a [world]
    (what has been written to stdout and stderr) to an [outcome] and a new
    world.  The allocations of [curl_maprintf] and of the lists are taken to
    succeed; the command line is taken as already parsed into the option
    structure. *)

From Stdlib Require Import String Ascii List ZArith Bool Arith Lia.
Import ListNotations.

Local Open Scope list_scope.
Local Open Scope string_scope.

(** ** C string primitives *)

Module CStr.

(** [strlen] *)
Definition strlen (s : string) : nat := String.length s.

(** [strchr(s, c)]: the offset of the first [c] in [s], [None] for NULL. *)
Fixpoint strchr (s : string) (c : ascii) : option nat :=
  match s with
  | EmptyString => None
  | String a r => if Ascii.eqb a c then Some 0 else option_map S (strchr r c)
  end.

(** [p + n] for a pointer [p] into a string. *)
Fixpoint advance (n : nat) (s : string) : string :=
  match n, s with
  | O, _ => s
  | S n', String _ r => advance n' r
  | S _, EmptyString => EmptyString
  end.

(** [tolower] in the C locale. *)
Definition tolower (c : ascii) : ascii :=
  let n := nat_of_ascii c in
  if Nat.leb 65 n && Nat.leb n 90 then ascii_of_nat (n + 32) else c.

Definition uchar (c : ascii) : Z := Z.of_nat (nat_of_ascii c).

(** [strncasecmp(s1, s2, n)]: compares at most [n] characters, ignoring
    case, and stops at the end of either string. *)
Fixpoint strncasecmp (s1 s2 : string) (n : nat) : Z :=
  match n with
  | O => 0
  | S n' =>
    match s1, s2 with
    | EmptyString, EmptyString => 0
    | EmptyString, String c2 _ => (0 - uchar (tolower c2))%Z
    | String c1 _, EmptyString => uchar (tolower c1)
    | String c1 r1, String c2 r2 =>
      let d := (uchar (tolower c1) - uchar (tolower c2))%Z in
      if (d =? 0)%Z then strncasecmp r1 r2 n' else d
    end
  end.

(** [strcmp(s1, s2) == 0] is equality of strings. *)

(** The C string held in a buffer: the bytes before the first NUL. *)
Fixpoint c_str (buf : string) : string :=
  match buf with
  | EmptyString => EmptyString
  | String a r => if Ascii.eqb a zero then EmptyString else String a (c_str r)
  end.

(** [s[n-1]], the character before offset [n]; [None] when [n = 0] or the
    offset is outside the string (a read outside the object in C). *)
Definition char_before (s : string) (n : nat) : option ascii :=
  match n with
  | O => None
  | S m => String.get m s
  end.

(** [s[n]]; the terminating NUL at the end of the string. *)
Definition char_at (n : nat) (s : string) : ascii :=
  match String.get n s with
  | Some c => c
  | None => zero
  end.

(** The first [n] characters of [s]. *)
Fixpoint take (n : nat) (s : string) : string :=
  match n, s with
  | S n', String a r => String a (take n' r)
  | _, _ => EmptyString
  end.

(** A string in lower case. *)
Fixpoint lower (s : string) : string :=
  match s with
  | EmptyString => EmptyString
  | String a r => String (tolower a) (lower r)
  end.

End CStr.
Import CStr.

(** ** The URL engine (libcurl's URL API, [curl/urlapi.h]) *)

(** [CURLUPart] *)
Inductive CURLUPart : Type :=
| CURLUPART_URL | CURLUPART_SCHEME | CURLUPART_USER | CURLUPART_PASSWORD
| CURLUPART_OPTIONS | CURLUPART_HOST | CURLUPART_PORT | CURLUPART_PATH
| CURLUPART_QUERY | CURLUPART_FRAGMENT | CURLUPART_ZONEID.

(** [CURLUcode] *)
Inductive CURLUcode : Type :=
| CURLUE_OK | CURLUE_BAD_HANDLE | CURLUE_BAD_PARTPOINTER
| CURLUE_MALFORMED_INPUT | CURLUE_BAD_PORT_NUMBER
| CURLUE_UNSUPPORTED_SCHEME | CURLUE_URLDECODE | CURLUE_OUT_OF_MEMORY
| CURLUE_USER_NOT_ALLOWED | CURLUE_UNKNOWN_PART
| CURLUE_NO_SCHEME | CURLUE_NO_USER | CURLUE_NO_PASSWORD
| CURLUE_NO_OPTIONS | CURLUE_NO_HOST | CURLUE_NO_PORT
| CURLUE_NO_QUERY | CURLUE_NO_FRAGMENT | CURLUE_NO_ZONEID.

(** The flag bits of [curl_url_set] and [curl_url_get]. *)
Definition CURLU_DEFAULT_PORT : Z := Z.shiftl 1 0.
Definition CURLU_NON_SUPPORT_SCHEME : Z := Z.shiftl 1 3.
Definition CURLU_URLDECODE : Z := Z.shiftl 1 6.
Definition CURLU_URLENCODE : Z := Z.shiftl 1 7.
Definition CURLU_GUESS_SCHEME : Z := Z.shiftl 1 9.

(** The engine as the program sees it.  [curl_url] is [None] when the
    allocation fails.  [curl_url_set] returns the updated handle and its
    result code.  [curl_url_get] returns its result code and the pointer it
    stored through its out parameter ([None] is NULL).  [nilstr] is what
    [curl_maprintf] prints for a NULL [%s] argument. *)
Record Engine : Type := mkEngine {
  handle : Type;
  curl_url : option handle;
  curl_url_set : handle -> CURLUPart -> string -> Z -> handle * CURLUcode;
  curl_url_get : handle -> CURLUPart -> Z -> CURLUcode * option string;
  curl_url_strerror : CURLUcode -> string;
  nilstr : string
}.

(** ** Streams, [exit] and undefined behaviour *)

Record world : Type := mkWorld {
  stdout : string;
  stderr : string
}.

Inductive outcome (A : Type) : Type :=
| Ret (a : A)            (* the call returned *)
| Exit (exit_code : Z)   (* [exit] was called *)
| Undef.                 (* the C program has no defined behaviour *)
Arguments Ret {A} a.
Arguments Exit {A} exit_code.
Arguments Undef {A}.

Definition M (A : Type) : Type := world -> outcome A * world.

Definition ret {A : Type} (a : A) : M A := fun w => (Ret a, w).

Definition bind {A B : Type} (m : M A) (k : A -> M B) : M B :=
  fun w =>
    match m w with
    | (Ret a, w') => k a w'
    | (Exit c, w') => (Exit c, w')
    | (Undef, w') => (Undef, w')
    end.

Notation "x <- m ;; k" := (bind m (fun x => k))
  (at level 61, m at next level, right associativity).
Notation "m ;; k" := (bind m (fun _ => k))
  (at level 61, right associativity).

Definition undefined {A : Type} : M A := fun w => (Undef, w).
Definition exit {A : Type} (code : Z) : M A := fun w => (Exit code, w).

(** [fputs(s, stdout)], [printf], [fputc] on stdout. *)
Definition put_out (s : string) : M unit :=
  fun w => (Ret tt, mkWorld (stdout w ++ s) (stderr w)).
(** [fputs(s, stderr)], [fprintf(stderr, ...)]. *)
Definition put_err (s : string) : M unit :=
  fun w => (Ret tt, mkWorld (stdout w) (stderr w ++ s)).
Definition fputc_out (c : ascii) : M unit := put_out (String c EmptyString).

(** ** The program *)

Definition nl : string := String (ascii_of_nat 10) EmptyString.
Definition LF : ascii := ascii_of_nat 10.
Definition CR : ascii := ascii_of_nat 13.
Definition TAB : ascii := ascii_of_nat 9.

Definition NUM_COMPONENTS : nat := 11. (* including "url" *)

Definition PROGNAME : string := "trurl".

Record var : Type := mkVar {
  name : string;
  part : CURLUPart
}.

(** The table [variables]; the [{NULL, 0}] sentinel is the end of the list. *)
Definition variables : list var :=
  [ mkVar "url" CURLUPART_URL;
    mkVar "scheme" CURLUPART_SCHEME;
    mkVar "user" CURLUPART_USER;
    mkVar "password" CURLUPART_PASSWORD;
    mkVar "options" CURLUPART_OPTIONS;
    mkVar "host" CURLUPART_HOST;
    mkVar "port" CURLUPART_PORT;
    mkVar "path" CURLUPART_PATH;
    mkVar "query" CURLUPART_QUERY;
    mkVar "fragment" CURLUPART_FRAGMENT;
    mkVar "zoneid" CURLUPART_ZONEID ].

Definition ERROR_PREFIX : string := PROGNAME ++ " error: ".

(** error codes *)
Definition ERROR_FILE : Z := 1.
Definition ERROR_APPEND : Z := 2.
Definition ERROR_ARG : Z := 3.
Definition ERROR_FLAG : Z := 4.
Definition ERROR_SET : Z := 5.
Definition ERROR_MEM : Z := 6.
Definition ERROR_URL : Z := 7.

(** [errorf]: the message goes to stderr and the process exits.  [msg] is
    the format with its arguments already substituted. *)
Definition errorf {A : Type} (exit_code : Z) (msg : string) : M A :=
  put_err ERROR_PREFIX ;;
  put_err msg ;;
  put_err (nl ++ ERROR_PREFIX ++ "Try " ++ PROGNAME ++ " -h for help" ++ nl) ;;
  exit exit_code.

(** [struct option].  [o_url] is the open [FILE *] of [--url-file]: the
    characters still to be read from it, [None] for a NULL stream. *)
Record struct_option : Type := mkOption {
  o_url_list : list string;
  o_append_path : list string;
  o_append_query : list string;
  o_set_list : list string;
  o_redirect : option string;
  o_format : option string;
  o_url : option string;
  o_urlopen : bool;
  o_urldecode : bool;
  o_output : Z
}.

(** The test of both lookup loops:
    [(strlen(variables[i].name) == vlen) &&
     !strncasecmp(ptr, variables[i].name, vlen)]. *)
Definition var_match (ptr : string) (vlen : nat) (v : var) : bool :=
  Nat.eqb (strlen (name v)) vlen && Z.eqb (strncasecmp ptr (name v) vlen) 0.

(** [varset[i] = true] *)
Fixpoint varset_mark (i : nat) (varset : list bool) : list bool :=
  match varset, i with
  | [], _ => []
  | _ :: r, O => true :: r
  | b :: r, S i' => b :: varset_mark i' r
  end.

Section Program.

Variable E : Engine.

(** *** [format] *)

(** The [for] loop over [variables] inside [format]: every entry that
    matches is looked up and printed. *)
Fixpoint format_vars (vars : list var) (ptr : string) (vlen : nat)
         (op : struct_option) (uh : handle E) : M unit :=
  match vars with
  | [] => ret tt
  | v :: rest =>
    (if var_match ptr vlen v then
       let '(rc, nurl) :=
         curl_url_get E uh (part v)
           (Z.lor CURLU_DEFAULT_PORT
                  (if o_urldecode op then CURLU_URLDECODE else 0%Z)) in
       match rc with
       | CURLUE_OK =>
         match nurl with
         | Some s => put_out s
         | None => undefined (* fprintf of a NULL string *)
         end
       | CURLUE_NO_SCHEME | CURLUE_NO_USER | CURLUE_NO_PASSWORD
       | CURLUE_NO_OPTIONS | CURLUE_NO_HOST | CURLUE_NO_PORT
       | CURLUE_NO_QUERY | CURLUE_NO_FRAGMENT | CURLUE_NO_ZONEID =>
         (* silently ignore *)
         ret tt
       | _ =>
         put_err (PROGNAME ++ ": " ++ curl_url_strerror E rc ++
                  " (" ++ name v ++ ")" ++ nl)
       end
     else ret tt) ;;
    format_vars rest ptr vlen op uh
  end.

(** The [while] loop of [format].  Every iteration passes at least one
    character, so [fuel] the length of the template is enough. *)
Fixpoint format_loop (fuel : nat) (ptr : string)
         (op : struct_option) (uh : handle E) : M unit :=
  match fuel with
  | O => ret tt
  | S fuel' =>
    match ptr with
    | EmptyString => ret tt
    | String c rest =>
      if Ascii.eqb "{" c then
        if Ascii.eqb "{" (char_at 1 ptr) then
          (* an escaped {-letter *)
          fputc_out "{" ;;
          format_loop fuel' (advance 2 ptr) op uh
        else
          (* this is meant as a variable to output *)
          match strchr ptr "}" with
          | None =>
            (* syntax error: the { has been passed, continue *)
            format_loop fuel' rest op uh
          | Some e =>
            let vlen := e - 1 in
            format_vars variables rest vlen op uh ;;
            format_loop fuel' (advance (S e) ptr) op uh (* pass the end *)
          end
      else if Ascii.eqb "\" c && negb (Ascii.eqb (char_at 1 ptr) zero) then
        let c1 := char_at 1 ptr in
        (if Ascii.eqb c1 "r" then fputc_out CR
         else if Ascii.eqb c1 "n" then fputc_out LF
         else if Ascii.eqb c1 "t" then fputc_out TAB
         else (* unknown, just output this *)
           fputc_out c ;; fputc_out c1) ;;
        format_loop fuel' (advance 2 ptr) op uh
      else
        fputc_out c ;;
        format_loop fuel' rest op uh
    end
  end.

Definition format (op : struct_option) (uh : handle E) : M unit :=
  match o_format op with
  | Some fmt => format_loop (strlen fmt) fmt op uh
  | None => ret tt
  end ;;
  fputc_out LF.

(** *** [set] *)

(** The inner [for] loop of [set] over [variables], from index [i]: the
    first entry that matches is set (or is an error when it was set
    before) and ends the loop.  Returns [found], the handle and [varset]. *)
Fixpoint set_scan (vars : list var) (i : nat) (setarg : string) (vlen : nat)
         (value : string) (urlencode : bool)
         (uh : handle E) (varset : list bool)
  : M (bool * handle E * list bool) :=
  match vars with
  | [] => ret (false, uh, varset)
  | v :: rest =>
    if var_match setarg vlen v then
      (if nth i varset false
       then errorf ERROR_SET
              ("A component can only be set once per URL (" ++ name v ++ ")")
       else ret tt) ;;
      let '(uh', _) :=
        curl_url_set E uh (part v) value
          (Z.lor CURLU_NON_SUPPORT_SCHEME
                 (if urlencode then CURLU_URLENCODE else 0%Z)) in
      ret (true, uh', varset_mark i varset)
    else set_scan rest (S i) setarg vlen value urlencode uh varset
  end.

(** The outer loop of [set] over the nodes of [o->set_list]. *)
Fixpoint set_nodes (node : list string) (uh : handle E) (varset : list bool)
  : M (handle E) :=
  match node with
  | [] => ret uh
  | setarg :: next =>
    match strchr setarg "=" with
    | Some ptr =>
      if Nat.ltb 0 ptr then
        let colon :=
          match char_before setarg ptr with
          | Some c => Ascii.eqb c ":"
          | None => false
          end in
        let urlencode := negb colon in
        let vlen := if colon then ptr - 1 else ptr in
        r <- set_scan variables 0 setarg vlen (advance (S ptr) setarg)
                      urlencode uh varset ;;
        let '(found, uh', varset') := r in
        if found then set_nodes next uh' varset'
        else errorf ERROR_SET ("Set unknown component: " ++ setarg)
      else errorf ERROR_SET ("invalid --set syntax: " ++ setarg)
    | None => errorf ERROR_SET ("invalid --set syntax: " ++ setarg)
    end
  end.

Definition set (uh : handle E) (o : struct_option) : M (handle E) :=
  set_nodes (o_set_list o) uh (repeat false NUM_COMPONENTS).

(** *** [singleurl] *)

(** [if(url) { ... }]: the base URL, then the redirect. *)
Definition singleurl_base (o : struct_option) (url : option string)
           (uh : handle E) : handle E :=
  match url with
  | Some u =>
    let uh1 :=
      fst (curl_url_set E uh CURLUPART_URL u
             (Z.lor CURLU_GUESS_SCHEME CURLU_NON_SUPPORT_SCHEME)) in
    match o_redirect o with
    | Some r =>
      fst (curl_url_set E uh1 CURLUPART_URL r
             (Z.lor CURLU_GUESS_SCHEME CURLU_NON_SUPPORT_SCHEME))
    | None => uh1
    end
  | None => uh
  end.

(** One path segment: the new path handed to the engine.  [strlen] of a
    NULL [opath] and [opath[olen-1]] for an empty one are undefined. *)
Definition npath_of (opath : option string) (apath : string)
  : option string :=
  match opath with
  | None => None
  | Some op =>
    let olen := strlen op in
    match char_before op olen with
    | None => None
    | Some c => Some (op ++ (if Ascii.eqb c "/" then "" else "/") ++ apath)
    end
  end.

(** append path segments *)
Fixpoint append_paths (p : list string) (uh : handle E) : M (handle E) :=
  match p with
  | [] => ret uh
  | apath :: next =>
    (* extract the current path *)
    let '(_, opath) := curl_url_get E uh CURLUPART_PATH 0%Z in
    match npath_of opath apath with
    | None => undefined
    | Some npath =>
      (* set the new path *)
      append_paths next (fst (curl_url_set E uh CURLUPART_PATH npath 0%Z))
    end
  end.

(** [%s] of [curl_maprintf] *)
Definition maprintf_s (s : option string) : string :=
  match s with
  | Some str => str
  | None => nilstr E
  end.

(** append query segments *)
Fixpoint append_queries (p : list string) (uh : handle E) : handle E :=
  match p with
  | [] => uh
  | aq :: next =>
    (* extract the current query *)
    let '(_, oq) := curl_url_get E uh CURLUPART_QUERY 0%Z in
    (* append the new segment *)
    let nq := maprintf_s oq ++ "&" ++ aq in
    (* set the new query *)
    append_queries next (fst (curl_url_set E uh CURLUPART_QUERY nq 0%Z))
  end.

(** The handle of [singleurl] when it reaches the output. *)
Definition singleurl_mutate (o : struct_option) (url : option string)
           (uh : handle E) : M (handle E) :=
  let uh1 := singleurl_base o url uh in
  (* set everything *)
  uh2 <- set uh1 o ;;
  uh3 <- append_paths (o_append_path o) uh2 ;;
  ret (append_queries (o_append_query o) uh3).

(** default output is full URL *)
Definition singleurl_output (o : struct_option) (uh : handle E) : M unit :=
  let '(rc, nurl) :=
    curl_url_get E uh CURLUPART_URL
      (if o_urldecode o then CURLU_URLDECODE else 0%Z) in
  match rc with
  | CURLUE_OK =>
    match nurl with
    | Some s => put_out (s ++ nl)
    | None => undefined (* printf of a NULL string *)
    end
  | _ => errorf ERROR_URL "not enough input for a URL"
  end.

Definition singleurl (o : struct_option) (url : option string) : M unit :=
  match curl_url E with
  | None => errorf ERROR_MEM "out of memory"
  | Some uh0 =>
    uh <- singleurl_mutate o url uh0 ;;
    match o_format o with
    | Some _ => (* custom output format *) format o uh
    | None => singleurl_output o uh
    end
  end.

(** *** [main], after the command line has been parsed into [o] *)

Definition BUFSIZE : nat := 4096. (* arbitrary max *)

(** [fgets]: at most [room] characters, up to and including a newline. *)
Fixpoint fgets_read (room : nat) (stream : string) : string * string :=
  match room, stream with
  | S room', String c r =>
    if Ascii.eqb c LF then (String c EmptyString, r)
    else let '(b, r') := fgets_read room' r in (String c b, r')
  | _, _ => (EmptyString, stream)
  end.

(** [fgets(buffer, size, f)]: the buffer and the rest of the stream, [None]
    for NULL at the end of the file. *)
Definition fgets (size : nat) (stream : string) : option (string * string) :=
  match stream with
  | EmptyString => None
  | _ => Some (fgets_read (size - 1) stream)
  end.

(** What the body of the [while(fgets(...))] loop does with one buffer:
    the URL it passes to [singleurl], or [None] when it skips. *)
Definition buffer_url (buffer : string) : option string :=
  let line := c_str buffer in
  match strchr line LF with
  | Some eol =>
    if Nat.ltb 0 eol then
      let eol' :=
        match char_before line eol with
        | Some c => if Ascii.eqb c CR then (* CRLF detected *) eol - 1 else eol
        | None => eol
        end in
      Some (take eol' line) (* end of URL *)
    else (* no content, skip *) None
  | None => (* no newline, skip *) None
  end.

(** this is a file to read URLs from *)
Fixpoint main_file (fuel : nat) (stream : string) (o : struct_option)
  : M unit :=
  match fuel with
  | O => ret tt
  | S fuel' =>
    match fgets BUFSIZE stream with
    | None => ret tt
    | Some (buffer, rest) =>
      match buffer_url buffer with
      | Some u => singleurl o (Some u) ;; main_file fuel' rest o
      | None => main_file fuel' rest o
      end
    end
  end.

(** not reading URLs from a file: the [do ... while(node)] loop *)
Fixpoint main_list (node : list string) (o : struct_option) : M unit :=
  match node with
  | [] => singleurl o None
  | u :: next =>
    singleurl o (Some u) ;;
    match next with
    | [] => ret tt
    | _ :: _ => main_list next o
    end
  end.

(** Every [fgets] takes at least one character off the stream, so the
    length of the stream bounds the iterations of the file loop. *)
Definition main (o : struct_option) : M Z :=
  match o_url o with
  | Some stream => main_file (strlen stream) stream o
  | None => main_list (o_url_list o) o
  end ;;
  ret 0%Z.

End Program.

(** ** A small engine to run the program on

    A test double for the URL library, used for the concrete runs below: a
    handle is a record of optional components.  It parses only absolute
    URLs of the shape [scheme://host[/path][?query][#fragment]], rejects
    everything else as malformed (leaving the handle as it was), checks that
    a port is made of digits, stores every other component as given, reads
    an unset or empty path as ["/"] and refuses to build a URL without a
    host or a scheme.  It does no percent-encoding. *)

Module Toy.

Record url : Type := mkUrl {
  scheme : option string;
  user : option string;
  password : option string;
  options : option string;
  host : option string;
  port : option string;
  path : option string;
  query : option string;
  fragment : option string;
  zoneid : option string
}.

Definition empty : url :=
  mkUrl None None None None None None None None None None.

(** The longest prefix without a character of [stop], and the rest. *)
Fixpoint span (stop : ascii -> bool) (s : string) : string * string :=
  match s with
  | EmptyString => (EmptyString, EmptyString)
  | String c r =>
    if stop c then (EmptyString, s)
    else let '(a, b) := span stop r in (String c a, b)
  end.

(** Split at the first ["://"]. *)
Fixpoint split_scheme (s : string) : option (string * string) :=
  match s with
  | EmptyString => None
  | String c r =>
    match s with
    | String ":" (String "/" (String "/" rest)) => Some (EmptyString, rest)
    | _ =>
      match split_scheme r with
      | Some (a, b) => Some (String c a, b)
      | None => None
      end
    end
  end.

Definition is_one_of (l : list ascii) (c : ascii) : bool :=
  existsb (Ascii.eqb c) l.

Definition parse (s : string) : option url :=
  match split_scheme s with
  | None => None
  | Some (sch, rest) =>
    let '(h, rest1) := span (is_one_of ["/"; "?"; "#"]%char) rest in
    let '(pth, rest2) := span (is_one_of ["?"; "#"]%char) rest1 in
    let '(q, rest3) :=
      match rest2 with
      | String "?" r =>
        let '(q, r') := span (is_one_of ["#"]%char) r in (Some q, r')
      | _ => (None, rest2)
      end in
    let f :=
      match rest3 with
      | String "#" r => Some r
      | _ => None
      end in
    if String.eqb sch "" || String.eqb h "" then None
    else Some (mkUrl (Some sch) None None None (Some h) None
                     (Some (if String.eqb pth "" then "/" else pth))
                     q f None)
  end.

Fixpoint all_digits (s : string) : bool :=
  match s with
  | EmptyString => true
  | String c r =>
    Nat.leb 48 (nat_of_ascii c) && Nat.leb (nat_of_ascii c) 57 && all_digits r
  end.

Definition set (u : url) (p : CURLUPart) (v : string) (flags : Z)
  : url * CURLUcode :=
  let s := Some v in
  match p with
  | CURLUPART_URL =>
    match parse v with
    | Some u' => (u', CURLUE_OK)
    | None => (u, CURLUE_MALFORMED_INPUT)
    end
  | CURLUPART_SCHEME =>
    (mkUrl s (user u) (password u) (options u) (host u) (port u) (path u)
           (query u) (fragment u) (zoneid u), CURLUE_OK)
  | CURLUPART_USER =>
    (mkUrl (scheme u) s (password u) (options u) (host u) (port u) (path u)
           (query u) (fragment u) (zoneid u), CURLUE_OK)
  | CURLUPART_PASSWORD =>
    (mkUrl (scheme u) (user u) s (options u) (host u) (port u) (path u)
           (query u) (fragment u) (zoneid u), CURLUE_OK)
  | CURLUPART_OPTIONS =>
    (mkUrl (scheme u) (user u) (password u) s (host u) (port u) (path u)
           (query u) (fragment u) (zoneid u), CURLUE_OK)
  | CURLUPART_HOST =>
    (mkUrl (scheme u) (user u) (password u) (options u) s (port u) (path u)
           (query u) (fragment u) (zoneid u), CURLUE_OK)
  | CURLUPART_PORT =>
    if all_digits v && negb (String.eqb v "") then
      (mkUrl (scheme u) (user u) (password u) (options u) (host u) s
             (path u) (query u) (fragment u) (zoneid u), CURLUE_OK)
    else (u, CURLUE_BAD_PORT_NUMBER)
  | CURLUPART_PATH =>
    (mkUrl (scheme u) (user u) (password u) (options u) (host u) (port u) s
           (query u) (fragment u) (zoneid u), CURLUE_OK)
  | CURLUPART_QUERY =>
    (mkUrl (scheme u) (user u) (password u) (options u) (host u) (port u)
           (path u) s (fragment u) (zoneid u), CURLUE_OK)
  | CURLUPART_FRAGMENT =>
    (mkUrl (scheme u) (user u) (password u) (options u) (host u) (port u)
           (path u) (query u) s (zoneid u), CURLUE_OK)
  | CURLUPART_ZONEID =>
    (mkUrl (scheme u) (user u) (password u) (options u) (host u) (port u)
           (path u) (query u) (fragment u) s, CURLUE_OK)
  end.

Definition opt (pre : string) (o : option string) : string :=
  match o with
  | Some s => pre ++ s
  | None => EmptyString
  end.

Definition stored (o : option string) (missing : CURLUcode)
  : CURLUcode * option string :=
  match o with
  | Some s => (CURLUE_OK, Some s)
  | None => (missing, None)
  end.

(** The path is read as at least a slash. *)
Definition path_or_slash (u : url) : string :=
  match path u with
  | Some (String c r) => String c r
  | _ => "/"
  end.

Definition get (u : url) (p : CURLUPart) (flags : Z)
  : CURLUcode * option string :=
  match p with
  | CURLUPART_URL =>
    match host u, scheme u with
    | None, _ => (CURLUE_NO_HOST, None)
    | Some _, None => (CURLUE_NO_SCHEME, None)
    | Some h, Some sch =>
      (CURLUE_OK,
       Some (sch ++ "://" ++
             match user u with
             | Some n => n ++ opt ":" (password u) ++ "@"
             | None => EmptyString
             end ++
             h ++ opt ":" (port u) ++
             path_or_slash u ++
             opt "?" (query u) ++ opt "#" (fragment u)))
    end
  | CURLUPART_SCHEME => stored (scheme u) CURLUE_NO_SCHEME
  | CURLUPART_USER => stored (user u) CURLUE_NO_USER
  | CURLUPART_PASSWORD => stored (password u) CURLUE_NO_PASSWORD
  | CURLUPART_OPTIONS => stored (options u) CURLUE_NO_OPTIONS
  | CURLUPART_HOST => stored (host u) CURLUE_NO_HOST
  | CURLUPART_PORT => stored (port u) CURLUE_NO_PORT
  | CURLUPART_PATH => (CURLUE_OK, Some (path_or_slash u))
  | CURLUPART_QUERY => stored (query u) CURLUE_NO_QUERY
  | CURLUPART_FRAGMENT => stored (fragment u) CURLUE_NO_FRAGMENT
  | CURLUPART_ZONEID => stored (zoneid u) CURLUE_NO_ZONEID
  end.

Definition strerror (rc : CURLUcode) : string :=
  match rc with
  | CURLUE_OK => "No error"
  | CURLUE_MALFORMED_INPUT => "Malformed input to a URL function"
  | CURLUE_BAD_PORT_NUMBER => "Port number was not a decimal number between 0 and 65535"
  | _ => "CURLUcode error"
  end.

Definition engine : Engine :=
  mkEngine url (Some empty) set get strerror "(nil)".

End Toy.

(** The option structure after [memset(&o, 0, sizeof(o))]. *)
Definition o_zero : struct_option :=
  mkOption [] [] [] [] None None None false false 0%Z.

Definition w0 : world := mkWorld EmptyString EmptyString.

(** ** Specification vocabulary *)

(** No NUL inside the string. *)
Fixpoint nonul (s : string) : bool :=
  match s with
  | EmptyString => true
  | String a r => negb (Ascii.eqb a zero) && nonul r
  end.

(** Number of positions where two strings of one length differ. *)
Fixpoint hamming (a b : string) : option nat :=
  match a, b with
  | EmptyString, EmptyString => Some 0
  | String x r, String y t =>
    option_map (fun n => if Ascii.eqb x y then n else S n) (hamming r t)
  | _, _ => None
  end.

(** The registry entry a key selects: the first entry, with its index, that
    passes the test of the lookup loops. *)
Fixpoint first_match (vars : list var) (i : nat) (ptr : string) (vlen : nat)
  : option (nat * var) :=
  match vars with
  | [] => None
  | v :: rest =>
    if var_match ptr vlen v then Some (i, v)
    else first_match rest (S i) ptr vlen
  end.

(** The entry of a list of variables with a given name, and its index. *)
Fixpoint index_of (nm : string) (vars : list var) (i : nat)
  : option (nat * var) :=
  match vars with
  | [] => None
  | v :: rest =>
    if String.eqb nm (name v) then Some (i, v) else index_of nm rest (S i)
  end.

(** A set operation as the user writes it: [key=value], or [key:=value]
    to keep the engine from encoding the value. *)
Record SetOp : Type := mkSetOp {
  so_key : string;
  so_encode : bool;
  so_value : string
}.

Definition setop_arg (s : SetOp) : string :=
  so_key s ++ (if so_encode s then "=" else ":=") ++ so_value s.

(** The component a set operation targets: the registry entry whose name is
    the key up to case. *)
Definition target (s : SetOp) : option (nat * var) :=
  index_of (lower (so_key s)) variables 0.

Definition target_index (s : SetOp) : option nat := option_map fst (target s).

Definition set_flags (encode : bool) : Z :=
  Z.lor CURLU_NON_SUPPORT_SCHEME (if encode then CURLU_URLENCODE else 0%Z).

(** The handle after the engine has been handed one set operation; the
    result code of the engine is dropped. *)
Definition apply_setop (E : Engine) (uh : handle E) (s : SetOp) : handle E :=
  match target s with
  | Some (_, v) => fst (curl_url_set E uh (part v) (so_value s)
                                     (set_flags (so_encode s)))
  | None => uh
  end.

(** What [errorf] writes to stderr. *)
Definition errtext (msg : string) : string :=
  ERROR_PREFIX ++ msg ++ nl ++ ERROR_PREFIX ++ "Try " ++ PROGNAME ++
  " -h for help" ++ nl.

Definition failed (w : world) (msg : string) : world :=
  mkWorld (stdout w) (stderr w ++ errtext msg).

Definition dup_msg (v : var) : string :=
  "A component can only be set once per URL (" ++ name v ++ ")".

(** [s] ends with the character [c]. *)
Fixpoint ends_with (c : ascii) (s : string) : bool :=
  match s with
  | EmptyString => false
  | String a EmptyString => Ascii.eqb a c
  | String _ r => ends_with c r
  end.

(** Joining a path and a segment as the specification words it: one ['/']
    between them unless the path already ends with one. *)
Definition path_join (cur seg : string) : string :=
  if ends_with "/" cur then cur ++ seg else cur ++ "/" ++ seg.

(** Template text without braces and backslashes. *)
Fixpoint plain (s : string) : bool :=
  match s with
  | EmptyString => true
  | String a r =>
    negb (Ascii.eqb a "{") && negb (Ascii.eqb a "}") &&
    negb (Ascii.eqb a "\") && plain r
  end.

(** The URLs the file loop hands to [singleurl], in order. *)
Fixpoint file_urls (fuel : nat) (stream : string) : list string :=
  match fuel with
  | O => []
  | S fuel' =>
    match fgets BUFSIZE stream with
    | None => []
    | Some (buffer, rest) =>
      match buffer_url buffer with
      | Some u => u :: file_urls fuel' rest
      | None => file_urls fuel' rest
      end
    end
  end.

(** The inputs of a run, in the order [main] passes them to [singleurl]. *)
Definition batch_inputs (o : struct_option) : list (option string) :=
  match o_url o with
  | Some stream => map Some (file_urls (strlen stream) stream)
  | None =>
    match o_url_list o with
    | [] => [None]
    | l => map Some l
    end
  end.

(** [singleurl] on each input in turn. *)
Fixpoint each_input (E : Engine) (o : struct_option)
         (l : list (option string)) : M unit :=
  match l with
  | [] => ret tt
  | u :: rest => singleurl E o u ;; each_input E o rest
  end.

(** The last character of [pre], if any, is a newline. *)
Definition ends_nl (pre : string) : Prop :=
  pre = "" \/ ends_with LF pre = true.

(** The key [k] is a strict prefix of the name [nm], up to case. *)
Definition strict_prefix (k nm : string) : Prop :=
  exists t, t <> "" /\ lower k ++ t = nm.

(** The key [k] strictly extends the name [nm], up to case. *)
Definition strict_extension (k nm : string) : Prop :=
  exists t, t <> "" /\ lower k = nm ++ t.

(** The key [k] and the name [nm] differ, up to case, at one position. *)
Definition one_char_off (k nm : string) : Prop :=
  exists a c c' b, lower k = a ++ String c b /\ nm = a ++ String c' b /\ c <> c'.

(** The engine reads the path of every handle as a string of at least one
    character (libcurl: the path "is always at least a slash"). *)
Definition path_readable (E : Engine) : Prop :=
  forall h : handle E,
    exists rc p, curl_url_get E h CURLUPART_PATH 0%Z = (rc, Some p) /\ p <> "".

(** The flags of the base URL and of the redirect. *)
Definition base_flags : Z := Z.lor CURLU_GUESS_SCHEME CURLU_NON_SUPPORT_SCHEME.

(** The flags of the default output. *)
Definition output_flags (o : struct_option) : Z :=
  if o_urldecode o then CURLU_URLDECODE else 0%Z.

(** The options with another redirect. *)
Definition with_redirect (o : struct_option) (r : option string)
  : struct_option :=
  mkOption (o_url_list o) (o_append_path o) (o_append_query o) (o_set_list o)
           r (o_format o) (o_url o) (o_urlopen o) (o_urldecode o) (o_output o).

(** ** The command line

    What [main] does before the batch: the arguments are read into the
    option structure.  What the program takes from its environment besides
    the URL engine is a record: the escape function of libcurl with its
    string and length arguments ([None] is NULL), the files [fopen] finds
    (their characters), the characters of stdin, and the two version
    strings.  [curl_slist_append] is taken to succeed. *)

Record Env : Type := mkEnv {
  curl_easy_escape : string -> nat -> option string;
  fopen : string -> option string;
  stdin : string;
  TRURL_VERSION_TXT : string;
  curl_version : string
}.

(** Assignments to the fields of [struct option]. *)
Definition set_url_list (o : struct_option) (l : list string) : struct_option :=
  mkOption l (o_append_path o) (o_append_query o) (o_set_list o)
           (o_redirect o) (o_format o) (o_url o) (o_urlopen o)
           (o_urldecode o) (o_output o).
Definition set_append_path (o : struct_option) (l : list string)
  : struct_option :=
  mkOption (o_url_list o) l (o_append_query o) (o_set_list o)
           (o_redirect o) (o_format o) (o_url o) (o_urlopen o)
           (o_urldecode o) (o_output o).
Definition set_append_query (o : struct_option) (l : list string)
  : struct_option :=
  mkOption (o_url_list o) (o_append_path o) l (o_set_list o)
           (o_redirect o) (o_format o) (o_url o) (o_urlopen o)
           (o_urldecode o) (o_output o).
Definition set_set_list (o : struct_option) (l : list string) : struct_option :=
  mkOption (o_url_list o) (o_append_path o) (o_append_query o) l
           (o_redirect o) (o_format o) (o_url o) (o_urlopen o)
           (o_urldecode o) (o_output o).
Definition set_format (o : struct_option) (f : option string) : struct_option :=
  mkOption (o_url_list o) (o_append_path o) (o_append_query o) (o_set_list o)
           (o_redirect o) f (o_url o) (o_urlopen o)
           (o_urldecode o) (o_output o).
Definition set_url (o : struct_option) (f : option string) (opened : bool)
  : struct_option :=
  mkOption (o_url_list o) (o_append_path o) (o_append_query o) (o_set_list o)
           (o_redirect o) (o_format o) f opened
           (o_urldecode o) (o_output o).
Definition set_urldecode (o : struct_option) (b : bool) : struct_option :=
  mkOption (o_url_list o) (o_append_path o) (o_append_query o) (o_set_list o)
           (o_redirect o) (o_format o) (o_url o) (o_urlopen o)
           b (o_output o).

(** [*arg] for the argument of an option that has one. *)
Definition deref (arg : option string) : string :=
  match arg with
  | Some a => a
  | None => EmptyString
  end.

Section CommandLine.

Variable E : Engine.
Variable V : Env.

(** The loop of [help] over the names of the components. *)
Fixpoint help_names (vars : list var) (i : nat) : M unit :=
  match vars with
  | [] => ret tt
  | v :: rest =>
    put_err ((match i with O => "" | S _ => ", " end) ++ name v) ;;
    help_names rest (S i)
  end.

Definition help {A : Type} : M A :=
  put_err
    ("Usage: [options] [URL]" ++ nl ++
     "  -h,--help                   - this help" ++ nl ++
     "  -v,--version                - show version" ++ nl ++
     " INPUT" ++ nl ++
     "  --append [component]=[data] - append data to component" ++ nl ++
     "  --redirect [URL]            - redirect the base URL to this" ++ nl ++
     "  --set [component]=[data]    - set this component" ++ nl ++
     "  --url [base URL]            - URL to start with" ++ nl ++
     "  --url-file [file/-]         - read URLs from file or stdin" ++ nl ++
     " OUTPUT" ++ nl ++
     "  --get [{component}s]        - output URL component(s)" ++ nl ++
     " MODIFIERS" ++ nl ++
     "  --urldecode                 - URL decode the output" ++ nl ++
     " URL COMPONENTS:" ++ nl ++
     "  ") ;;
  help_names (firstn NUM_COMPONENTS variables) 0 ;;
  put_err nl ;;
  exit 1%Z.

Definition show_version {A : Type} : M A :=
  put_out (PROGNAME ++ " version " ++ TRURL_VERSION_TXT V ++
           " libcurl/" ++ curl_version V ++ nl) ;;
  exit 0%Z.

Definition urladd (o : struct_option) (url : string) : struct_option :=
  set_url_list o (o_url_list o ++ [url])%list.

(** read URLs from this file/stdin *)
Definition urlfile (o : struct_option) (file : string) : M struct_option :=
  if negb (String.eqb "-" file) then
    match fopen V file with
    | None => errorf ERROR_FILE ("--url-file " ++ file ++ " not found")
    | Some f => ret (set_url o (Some f) true)
    end
  else ret (set_url o (Some (stdin V)) (o_urlopen o)).

Definition pathadd (o : struct_option) (path : string) : struct_option :=
  match curl_easy_escape V path 0 with
  | Some urle => set_append_path o (o_append_path o ++ [urle])%list
  | None => o
  end.

Definition queryadd (o : struct_option) (query : string) : struct_option :=
  let urle :=
    match strchr query "=" with
    | Some p =>
      (* URL encode the left and the right side of the '=' separately *)
      let f1 := curl_easy_escape V query p in
      let f2 := curl_easy_escape V (advance (S p) query) 0 in
      Some (maprintf_s E f1 ++ "=" ++ maprintf_s E f2)
    | None => curl_easy_escape V query 0
    end in
  match urle with
  | Some u => set_append_query o (o_append_query o ++ [u])%list
  | None => o
  end.

Definition appendadd (o : struct_option) (arg : string) : M struct_option :=
  if Z.eqb (strncasecmp "path=" arg 5) 0 then ret (pathadd o (advance 5 arg))
  else if Z.eqb (strncasecmp "query=" arg 6) 0
       then ret (queryadd o (advance 6 arg))
       else errorf ERROR_APPEND ("--append unsupported component: " ++ arg).

Definition setadd (o : struct_option) (setarg : string) : struct_option :=
  set_set_list o (o_set_list o ++ [setarg])%list.

Definition checkoptarg (str given : string) (arg : option string) : M bool :=
  if String.eqb str given then
    match arg with
    | None => errorf ERROR_ARG ("Missing argument for " ++ str)
    | Some _ => ret true
    end
  else ret false.

(** [getlongarg]: the value it returns, the options and [*usedarg]. *)
Definition getlongarg (op : struct_option) (flag : string)
           (arg : option string) : M (Z * struct_option * bool) :=
  if String.eqb "--help" flag then help
  else if String.eqb "--version" flag then show_version
  else
    b <- checkoptarg "--url" flag arg ;;
    if b then ret (0%Z, urladd op (deref arg), true)
    else
    b <- checkoptarg "--url-file" flag arg ;;
    if b then
      match o_url op with
      | Some _ => errorf ERROR_FLAG "only one --url-file is supported"
      | None => op' <- urlfile op (deref arg) ;; ret (0%Z, op', true)
      end
    else
    b <- checkoptarg "--append" flag arg ;;
    if b then op' <- appendadd op (deref arg) ;; ret (0%Z, op', true)
    else
    b <- checkoptarg "--set" flag arg ;;
    if b then ret (0%Z, setadd op (deref arg), true)
    else
    b <- checkoptarg "--redirect" flag arg ;;
    if b then
      match o_redirect op with
      | Some _ => errorf ERROR_FLAG "only one --redirect is supported"
      | None => ret (0%Z, with_redirect op arg, true)
      end
    else
    b <- checkoptarg "--get" flag arg ;;
    if b then
      match o_format op with
      | Some _ => errorf ERROR_FLAG "only one --get is supported"
      | None => ret (0%Z, set_format op arg, true)
      end
    else if String.eqb "--urldecode" flag
         then ret (0%Z, set_urldecode op true, false)
         else ret (1%Z, op, false) (* unrecognized option *).

Definition getshortarg (op : struct_option) (flag : string) : M Z :=
  if String.eqb "-v" flag then show_version
  else if String.eqb "-h" flag then help
  else ret 1%Z (* unrecognized option *).

(** The loop of [main] over [argv], after the program name.  [argv[1]] of
    the last argument is the NULL that ends [argv]. *)
Fixpoint main_args (argv : list string) (o : struct_option)
  : M struct_option :=
  match argv with
  | [] => ret o
  | a :: rest =>
    if Ascii.eqb (char_at 0 a) "-" && negb (Ascii.eqb (char_at 1 a) "-") then
      (* single-dash prefix *)
      r <- getshortarg o a ;;
      (if negb (Z.eqb r 0) then errorf ERROR_FLAG ("unknown option: " ++ a)
       else ret tt) ;;
      main_args rest o
    else if Ascii.eqb (char_at 0 a) "-" && Ascii.eqb (char_at 1 a) "-" then
      (* dash-dash prefixed *)
      r <- getlongarg o a (hd_error rest) ;;
      let '(rc, o', usedarg) := r in
      (if negb (Z.eqb rc 0) then errorf ERROR_FLAG ("unknown option: " ++ a)
       else ret tt) ;;
      if usedarg then
        (* skip the parsed argument *)
        match rest with
        | _ :: rest' => main_args rest' o'
        | [] => ret o'
        end
      else main_args rest o'
    else
      (* this is a URL *)
      main_args rest (urladd o a)
  end.

(** The whole of [main]: the arguments, then the batch. *)
Definition main_argv (argv : list string) : M Z :=
  o <- main_args argv o_zero ;;
  main E o.

End CommandLine.

(** *** An environment to run the command line on *)

Definition hex_digit (n : nat) : ascii :=
  nth n ["0"; "1"; "2"; "3"; "4"; "5"; "6"; "7"; "8"; "9";
         "A"; "B"; "C"; "D"; "E"; "F"]%char "0"%char.

Definition unreserved (c : ascii) : bool :=
  let n := nat_of_ascii c in
  (Nat.leb 48 n && Nat.leb n 57) || (Nat.leb 65 n && Nat.leb n 90) ||
  (Nat.leb 97 n && Nat.leb n 122) ||
  Ascii.eqb c "-" || Ascii.eqb c "." || Ascii.eqb c "_" || Ascii.eqb c "~".

Fixpoint percent_encode (s : string) : string :=
  match s with
  | EmptyString => EmptyString
  | String c r =>
    if unreserved c then String c (percent_encode r)
    else String "%" (String (hex_digit (nat_of_ascii c / 16))
                            (String (hex_digit (nat_of_ascii c mod 16))
                                    (percent_encode r)))
  end.

(** Percent-encoding with the length convention of [curl_easy_escape]: a
    length of 0 stands for the length of the string. *)
Definition toy_escape (s : string) (len : nat) : option string :=
  Some (percent_encode (if Nat.eqb len 0 then s else take len s)).

Definition toy_env : Env :=
  mkEnv toy_escape
        (fun file => if String.eqb file "urls.txt"
                     then Some ("http://a.example/" ++ nl ++
                                "http://b.example/" ++ nl)
                     else None)
        ("http://stdin.example/" ++ nl)
        "0.1" "8.0.0".

(** *** More vocabulary *)

(** The world after [out] has gone to stdout and [err] to stderr. *)
Definition emit (w : world) (out err : string) : world :=
  mkWorld (stdout w ++ out) (stderr w ++ err).

(** The engine hands back a string whenever it reports success. *)
Definition engine_sane (E : Engine) : Prop :=
  forall (h : handle E) (p : CURLUPart) (f : Z),
    fst (curl_url_get E h p f) = CURLUE_OK ->
    snd (curl_url_get E h p f) <> None.

(** The result codes for a component that is not there. *)
Definition absent_code (rc : CURLUcode) : bool :=
  match rc with
  | CURLUE_NO_SCHEME | CURLUE_NO_USER | CURLUE_NO_PASSWORD
  | CURLUE_NO_OPTIONS | CURLUE_NO_HOST | CURLUE_NO_PORT
  | CURLUE_NO_QUERY | CURLUE_NO_FRAGMENT | CURLUE_NO_ZONEID => true
  | _ => false
  end.

(** The flags of the lookups of [format]. *)
Definition get_flags (op : struct_option) : Z :=
  Z.lor CURLU_DEFAULT_PORT (if o_urldecode op then CURLU_URLDECODE else 0%Z).

(** The engine reads back the component it was last handed, when that was
    a string of at least one character. *)
Definition reads_back (E : Engine) (p : CURLUPart) : Prop :=
  forall (h : handle E) (v : string),
    v <> "" ->
    exists rc,
      curl_url_get E (fst (curl_url_set E h p v 0%Z)) p 0%Z = (rc, Some v).

(** The query after a run of segments, from the text printed for the one
    that was there. *)
Definition query_join (q : string) (l : list string) : string :=
  fold_left (fun acc aq => acc ++ "&" ++ aq) l q.

(** The options the program knows. *)
Definition known_flags : list string :=
  ["-v"; "-h"; "--help"; "--version"; "--url"; "--url-file"; "--append";
   "--set"; "--redirect"; "--get"; "--urldecode"].

(** The options that take an argument. *)
Definition arg_flags : list string :=
  ["--url"; "--url-file"; "--append"; "--set"; "--redirect"; "--get"].

(** An argument that is taken as a URL. *)
Definition positional (a : string) : Prop := char_at 0 a <> "-"%char.

(** The escape sequences of a template and what they print. *)
Inductive escape_seq : string -> string -> Prop :=
| esc_brace : escape_seq "{{" "{"
| esc_cr : escape_seq "\r" (String CR EmptyString)
| esc_lf : escape_seq "\n" (String LF EmptyString)
| esc_tab : escape_seq "\t" (String TAB EmptyString)
| esc_other (c : ascii) :
    c <> "r"%char -> c <> "n"%char -> c <> "t"%char -> c <> zero ->
    escape_seq (String "\" (String c EmptyString))
               (String "\" (String c EmptyString)).

(** [n] times the character [c]. *)
Fixpoint str_repeat (n : nat) (c : ascii) : string :=
  match n with
  | O => EmptyString
  | S n' => String c (str_repeat n' c)
  end.

(** The exit codes of the program. *)
Definition exit_codes : list Z := [0; 1; 2; 3; 4; 5; 6; 7]%Z.

(** A computation that only adds to the two streams, ends the run with one
    of the exit codes of the program only, and returns values in [P]. *)
Definition tame {A : Type} (P : A -> Prop) (m : M A) : Prop :=
  forall w,
    (exists out err, snd (m w) = emit w out err) /\
    match fst (m w) with
    | Ret a => P a
    | Exit c => In c exit_codes
    | Undef => True
    end.

(** The engine [E] with other result codes for its set: the handles are
    those of [E], the code is the one [c] gives. *)
Definition with_codes (E : Engine)
           (c : handle E -> CURLUPart -> string -> Z -> CURLUcode) : Engine :=
  mkEngine (handle E) (curl_url E)
           (fun h p v f => (fst (curl_url_set E h p v f), c h p v f))
           (curl_url_get E) (curl_url_strerror E) (nilstr E).

(** The handle after the engine has been handed one query segment. *)
Definition query_step (E : Engine) (h : handle E) (aq : string) : handle E :=
  fst (curl_url_set E h CURLUPART_QUERY
         (maprintf_s E (snd (curl_url_get E h CURLUPART_QUERY 0%Z)) ++
          "&" ++ aq) 0%Z).

(** The handle after the engine has been handed one path segment; [None]
    where the C code has no defined behaviour (no path, or an empty one). *)
Definition path_step (E : Engine) (h : option (handle E)) (apath : string)
  : option (handle E) :=
  match h with
  | None => None
  | Some uh =>
    match snd (curl_url_get E uh CURLUPART_PATH 0%Z) with
    | Some (String c r) =>
      Some (fst (curl_url_set E uh CURLUPART_PATH
                   (path_join (String c r) apath) 0%Z))
    | _ => None
    end
  end.

(** The text before a position of a template is made of whole steps of the
    loop of [format] when [tail] follows it: characters, [{{], a backslash
    and its character, tokens, and braces without a closing one. *)
Inductive prefix_items (tail : string) : string -> Prop :=
| pi_nil : prefix_items tail EmptyString
| pi_char (c : ascii) (r : string) :
    c <> "{"%char -> c <> "\"%char ->
    prefix_items tail r -> prefix_items tail (String c r)
| pi_brace (r : string) :
    prefix_items tail r -> prefix_items tail (String "{" (String "{" r))
| pi_escape (c : ascii) (r : string) :
    c <> zero ->
    prefix_items tail r -> prefix_items tail (String "\" (String c r))
| pi_token (key r : string) :
    strchr key "}" = None -> char_at 0 key <> "{"%char ->
    prefix_items tail r -> prefix_items tail ("{" ++ key ++ "}" ++ r)
| pi_unmatched (r : string) :
    char_at 0 (r ++ tail) <> "{"%char -> strchr (r ++ tail) "}" = None ->
    prefix_items tail r -> prefix_items tail (String "{" r).

(** The small engine, reading the path as it is stored: an empty path that
    was set is handed back empty. *)
Definition raw_engine : Engine :=
  mkEngine Toy.url (Some Toy.empty) Toy.set
           (fun u p f =>
              match p with
              | CURLUPART_PATH =>
                (CURLUE_OK,
                 Some match Toy.path u with Some s => s | None => "/" end)
              | _ => Toy.get u p f
              end)
           Toy.strerror "(nil)".

(** ** Facts about the C string primitives *)

Lemma uchar_inj (a b : ascii) : uchar a = uchar b -> a = b.
Proof.
  unfold uchar. intro H. apply Nat2Z.inj in H.
  rewrite <- (ascii_nat_embedding a), <- (ascii_nat_embedding b).
  now rewrite H.
Qed.

Lemma uchar_diff_zero (a b : ascii) :
  ((uchar a - uchar b =? 0)%Z = true) <-> a = b.
Proof.
  rewrite Z.eqb_eq. split.
  - intro H. apply uchar_inj. lia.
  - intros ->. lia.
Qed.

Lemma tolower_zero (c : ascii) : tolower c = zero -> c = zero.
Proof.
  destruct c as [[] [] [] [] [] [] [] []]; vm_compute; intro H;
    try reflexivity; discriminate H.
Qed.

Lemma tolower_idem (c : ascii) : tolower (tolower c) = tolower c.
Proof.
  destruct c as [[] [] [] [] [] [] [] []]; vm_compute; reflexivity.
Qed.

Lemma lower_idem (s : string) : lower (lower s) = lower s.
Proof.
  induction s as [|a r IH]; simpl; [reflexivity|].
  now rewrite tolower_idem, IH.
Qed.

Lemma lower_length (s : string) : String.length (lower s) = String.length s.
Proof. induction s; simpl; congruence. Qed.

Lemma lower_app (s t : string) : lower (s ++ t) = lower s ++ lower t.
Proof. induction s; simpl; congruence. Qed.

Lemma take_app (s t : string) : take (String.length s) (s ++ t) = s.
Proof. induction s; simpl; [destruct t; reflexivity | congruence]. Qed.

Lemma take_length_le (n : nat) (s : string) : String.length (take n s) <= n.
Proof.
  revert s; induction n; intros [|a r]; simpl; try lia.
  specialize (IHn r). lia.
Qed.

Lemma str_app_length (s t : string) :
  String.length (s ++ t) = String.length s + String.length t.
Proof. induction s; simpl; congruence. Qed.

Lemma str_app_assoc (s t u : string) : (s ++ t) ++ u = s ++ t ++ u.
Proof. induction s; simpl; congruence. Qed.

Lemma str_app_nil_r (s : string) : s ++ "" = s.
Proof. induction s; simpl; congruence. Qed.

(** [strncasecmp] against a NUL-free string, over its whole length, is zero
    exactly when the compared prefix is that string up to case. *)
Lemma strncasecmp_zero (nm ptr : string) :
  nonul nm = true ->
  (strncasecmp ptr nm (String.length nm) = 0%Z) <->
  lower (take (String.length nm) ptr) = lower nm.
Proof.
  revert ptr. induction nm as [|c2 r2 IH]; intros ptr Hn.
  - simpl. destruct ptr; simpl; split; reflexivity.
  - simpl in Hn. apply andb_true_iff in Hn. destruct Hn as [Hc Hr].
    destruct ptr as [|c1 r1].
    + simpl. split; [|discriminate].
      intro H. exfalso.
      assert (Hz : tolower c2 = zero).
      { apply uchar_inj. change (uchar zero) with 0%Z. lia. }
      apply tolower_zero in Hz. subst c2. discriminate Hc.
    + cbn [String.length strncasecmp take lower].
      destruct (uchar (tolower c1) - uchar (tolower c2) =? 0)%Z eqn:Hd.
      * apply uchar_diff_zero in Hd. rewrite Hd, (IH r1 Hr).
        split; [intros ->; reflexivity | intro H; now inversion H].
      * split.
        -- intro H. rewrite H in Hd. discriminate Hd.
        -- intro H. inversion H as [[H1 H2]].
           rewrite H1 in Hd.
           rewrite Z.sub_diag in Hd. discriminate Hd.
    Qed.

(** The names of the registry are lower case and hold no NUL. *)
Lemma variables_names :
  Forall (fun v => nonul (name v) = true /\ lower (name v) = name v) variables.
Proof. repeat constructor. Qed.

(** The test of the lookup loops on a key that is the first [strlen key]
    characters of the argument. *)
Lemma var_match_key (key rest : string) (v : var) :
  In v variables ->
  var_match (key ++ rest) (strlen key) v = true <-> lower key = name v.
Proof.
  intro Hin.
  destruct (proj1 (Forall_forall _ _) variables_names v Hin) as [Hn Hl].
  unfold var_match, strlen. rewrite andb_true_iff, Nat.eqb_eq, Z.eqb_eq.
  split.
  - intros [Hlen H]. rewrite <- Hlen in H.
    apply (strncasecmp_zero _ _ Hn) in H.
    rewrite Hlen, take_app, Hl in H. exact H.
  - intro H.
    assert (Hlen : String.length (name v) = String.length key).
    { rewrite <- H. apply lower_length. }
    split; [exact Hlen|].
    rewrite <- Hlen. apply (strncasecmp_zero _ _ Hn).
    rewrite Hlen, take_app, Hl. exact H.
Qed.

(** ** The registry and the lookup loops *)

Lemma first_match_index_of (key rest : string) (vars : list var) (i : nat) :
  (forall v, In v vars -> In v variables) ->
  first_match vars i (key ++ rest) (strlen key) = index_of (lower key) vars i.
Proof.
  revert i. induction vars as [|v vs IH]; intros i Hsub; [reflexivity|].
  simpl.
  assert (Hv : In v variables) by (apply Hsub; left; reflexivity).
  destruct (var_match (key ++ rest) (strlen key) v) eqn:Hm.
  - apply (var_match_key _ _ _ Hv) in Hm.
    apply String.eqb_eq in Hm. now rewrite Hm.
  - destruct (String.eqb (lower key) (name v)) eqn:He.
    + apply String.eqb_eq in He. apply (var_match_key key rest _ Hv) in He.
      congruence.
    + apply IH. intros v' Hin. apply Hsub. now right.
Qed.

Lemma index_of_some (nm : string) (vars : list var) (k i : nat) (v : var) :
  index_of nm vars k = Some (i, v) ->
  exists j, i = k + j /\ nth_error vars j = Some v /\ name v = nm.
Proof.
  revert k. induction vars as [|x xs IH]; intros k H; [discriminate H|].
  simpl in H. destruct (String.eqb nm (name x)) eqn:He.
  - inversion H; subst. apply String.eqb_eq in He.
    exists 0. repeat split; [lia | now symmetry].
  - destruct (IH _ H) as (j & -> & Hn & Hnm).
    exists (S j). repeat split; [lia | exact Hn | exact Hnm].
Qed.

Lemma index_of_none (nm : string) (vars : list var) (k : nat) :
  index_of nm vars k = None <-> (forall v, In v vars -> name v <> nm).
Proof.
  revert k. induction vars as [|x xs IH]; intro k; simpl.
  - split; [intros _ v [] | reflexivity].
  - destruct (String.eqb nm (name x)) eqn:He.
    + apply String.eqb_eq in He. split; [discriminate|].
      intro H. exfalso. apply (H x); [now left | now symmetry].
    + apply String.eqb_neq in He. rewrite IH. split.
      * intros H v [<-|Hin]; [congruence | now apply H].
      * intros H v Hin. apply H. now right.
Qed.

(** No registry name is a strict prefix of another one. *)
Lemma names_prefix_free (v v' : var) (t : string) :
  In v variables -> In v' variables -> name v' ++ t = name v -> t = "".
Proof.
  intros Hv Hv' H.
  assert (Hb : forallb (fun a => forallb (fun b =>
             implb (String.eqb (take (strlen (name b)) (name a)) (name b))
                   (Nat.eqb (strlen (name b)) (strlen (name a))))
             variables) variables = true) by (vm_compute; reflexivity).
  rewrite forallb_forall in Hb. specialize (Hb v Hv).
  rewrite forallb_forall in Hb. specialize (Hb v' Hv').
  rewrite <- H in Hb at 1. unfold strlen in Hb. rewrite take_app in Hb.
  rewrite String.eqb_refl in Hb. simpl in Hb. apply Nat.eqb_eq in Hb.
  rewrite <- H, str_app_length in Hb.
  destruct t; [reflexivity | simpl in Hb; lia].
Qed.

Lemma hamming_refl (s : string) : hamming s s = Some 0.
Proof.
  induction s as [|a r IH]; simpl; [reflexivity|].
  now rewrite IH, Ascii.eqb_refl.
Qed.

Lemma hamming_one (a b : string) (c c' : ascii) :
  c <> c' -> hamming (a ++ String c b) (a ++ String c' b) = Some 1.
Proof.
  intro Hc. induction a as [|x r IH]; simpl.
  - rewrite hamming_refl. simpl.
    destruct (Ascii.eqb c c') eqn:He; [|reflexivity].
    apply Ascii.eqb_eq in He. contradiction.
  - now rewrite IH, Ascii.eqb_refl.
Qed.

(** No two registry names differ at exactly one position. *)
Lemma names_hamming (v v' : var) :
  In v variables -> In v' variables -> hamming (name v') (name v) <> Some 1.
Proof.
  intros Hv Hv'.
  assert (Hb : forallb (fun a => forallb (fun b =>
             match hamming (name b) (name a) with
             | Some 1 => false
             | _ => true
             end) variables) variables = true) by (vm_compute; reflexivity).
  rewrite forallb_forall in Hb. specialize (Hb v Hv).
  rewrite forallb_forall in Hb. specialize (Hb v' Hv').
  intro H. rewrite H in Hb. discriminate Hb.
Qed.

(** ** Running [errorf] and the set loops *)

Lemma errorf_run (A : Type) (code : Z) (msg : string) (w : world) :
  @errorf A code msg w = (Exit code, failed w msg).
Proof.
  unfold errorf, bind, put_err, exit, failed, errtext. simpl.
  now rewrite !str_app_assoc.
Qed.

Lemma set_scan_first_match (E : Engine) (vars : list var) (i : nat)
      (s : string) (vlen : nat) (value : string) (enc : bool)
      (uh : handle E) (varset : list bool) (w : world) :
  set_scan E vars i s vlen value enc uh varset w =
  match first_match vars i s vlen with
  | None => (Ret (false, uh, varset), w)
  | Some (k, v) =>
    if nth k varset false then (Exit ERROR_SET, failed w (dup_msg v))
    else (Ret (true, fst (curl_url_set E uh (part v) value (set_flags enc)),
               varset_mark k varset), w)
  end.
Proof.
  revert i. induction vars as [|v vs IH]; intro i; [reflexivity|].
  simpl. destruct (var_match s vlen v); [|apply IH].
  unfold bind. destruct (nth i varset false).
  - now rewrite errorf_run.
  - unfold ret, set_flags.
    now destruct (curl_url_set E uh (part v) value _).
Qed.

(** *** Parsing one [--set] argument *)

Lemma strchr_app_none (k s : string) (c : ascii) :
  strchr k c = None ->
  strchr (k ++ s) c = option_map (Nat.add (String.length k)) (strchr s c).
Proof.
  induction k as [|a r IH]; simpl.
  - intros _. destruct (strchr s c); reflexivity.
  - destruct (Ascii.eqb a c); [discriminate|].
    destruct (strchr r c) eqn:Hr; [discriminate|].
    intros _. rewrite (IH eq_refl). destruct (strchr s c); reflexivity.
Qed.

Lemma advance_app (k s : string) : advance (String.length k) (k ++ s) = s.
Proof. induction k; simpl; [destruct s; reflexivity | assumption]. Qed.

Lemma get_app_length (k s : string) :
  String.get (String.length k) (k ++ s) = String.get 0 s.
Proof. induction k; simpl; [reflexivity | assumption]. Qed.

Lemma char_before_app (k s : string) :
  k <> "" ->
  char_before (k ++ s) (String.length k) = char_before k (String.length k).
Proof.
  induction k as [|a r IH]; [congruence|]. intros _.
  destruct r as [|b r']; [reflexivity|].
  specialize (IH ltac:(discriminate)). exact IH.
Qed.

Lemma char_before_last (k : string) (c : ascii) :
  k <> "" ->
  match char_before k (String.length k) with
  | Some a => Ascii.eqb a c
  | None => false
  end = ends_with c k.
Proof.
  induction k as [|a r IH]; [congruence|]. intros _.
  destruct r as [|b r']; [reflexivity|].
  specialize (IH ltac:(discriminate)). exact IH.
Qed.

Lemma strchr_plain_eq (key value : string) :
  strchr key "=" = None ->
  strchr (key ++ "=" ++ value) "=" = Some (String.length key).
Proof.
  intro Hk. rewrite (strchr_app_none _ _ _ Hk). simpl.
  now rewrite Nat.add_0_r.
Qed.

Lemma strchr_colon_eq (key value : string) :
  strchr key "=" = None ->
  strchr (key ++ ":=" ++ value) "=" = Some (S (String.length key)).
Proof.
  intro Hk. rewrite (strchr_app_none _ _ _ Hk). simpl.
  f_equal. lia.
Qed.

Lemma advance_plain_eq (key value : string) :
  advance (S (String.length key)) (key ++ "=" ++ value) = value.
Proof. induction key; simpl; [reflexivity | assumption]. Qed.

Lemma advance_colon_eq (key value : string) :
  advance (S (S (String.length key))) (key ++ ":=" ++ value) = value.
Proof. induction key; simpl; [reflexivity | assumption]. Qed.

Lemma char_before_colon_eq (key value : string) :
  char_before (key ++ ":=" ++ value) (S (String.length key)) = Some ":"%char.
Proof. simpl. induction key; simpl; [reflexivity | assumption]. Qed.

(** One node of the set list, for a key without ['='] that, when written
    with a plain ['='], is not empty and does not end in [':']. *)
Lemma set_nodes_step (E : Engine) (op : SetOp) (next : list string)
      (uh : handle E) (varset : list bool) (w : world) :
  strchr (so_key op) "=" = None ->
  (so_encode op = true ->
   so_key op <> "" /\ ends_with ":" (so_key op) = false) ->
  set_nodes E (setop_arg op :: next) uh varset w =
  match target op with
  | None =>
    (Exit ERROR_SET, failed w ("Set unknown component: " ++ setop_arg op))
  | Some (i, v) =>
    if nth i varset false then (Exit ERROR_SET, failed w (dup_msg v))
    else set_nodes E next (apply_setop E uh op) (varset_mark i varset) w
  end.
Proof.
  destruct op as [key enc value]. unfold apply_setop, target, setop_arg.
  cbn [so_key so_encode so_value]. intros Hk Henc.
  cbn [set_nodes].
  assert (Hfm : forall rest,
             first_match variables 0 (key ++ rest) (String.length key) =
             index_of (lower key) variables 0).
  { intro rest. apply (first_match_index_of key rest variables 0). auto. }
  destruct enc.
  - destruct (Henc eq_refl) as [Hne Hcolon].
    rewrite (strchr_plain_eq _ _ Hk).
    assert (Hpos : Nat.ltb 0 (String.length key) = true).
    { destruct key; [congruence | reflexivity]. }
    rewrite Hpos.
    rewrite (char_before_app key _ Hne), (char_before_last key ":" Hne), Hcolon.
    cbn [negb]. rewrite advance_plain_eq.
    unfold bind. rewrite set_scan_first_match, Hfm.
    destruct (index_of (lower key) variables 0) as [[i v]|].
    + destruct (nth i varset false); reflexivity.
    + now rewrite errorf_run.
  - rewrite (strchr_colon_eq _ _ Hk).
    change (Nat.ltb 0 (S (String.length key))) with true.
    cbv iota. rewrite char_before_colon_eq.
    cbn [Ascii.eqb Bool.eqb negb].
    replace (S (String.length key) - 1) with (String.length key) by lia.
    rewrite advance_colon_eq.
    unfold bind. rewrite set_scan_first_match, Hfm.
    destruct (index_of (lower key) variables 0) as [[i v]|].
    + destruct (nth i varset false); reflexivity.
    + now rewrite errorf_run.
Qed.

Lemma tolower_eq_sign (a : ascii) :
  Ascii.eqb (tolower a) "=" = Ascii.eqb a "=" /\
  Ascii.eqb (tolower a) ":" = Ascii.eqb a ":".
Proof.
  destruct a as [[] [] [] [] [] [] [] []]; vm_compute; split; reflexivity.
Qed.

Lemma strchr_lower_eq (k : string) : strchr (lower k) "=" = strchr k "=".
Proof.
  induction k as [|a r IH]; simpl; [reflexivity|].
  now rewrite (proj1 (tolower_eq_sign a)), IH.
Qed.

Lemma ends_with_lower_colon (k : string) :
  ends_with ":" (lower k) = ends_with ":" k.
Proof.
  induction k as [|a r IH]; [reflexivity|].
  destruct r as [|b r'].
  - simpl. apply (proj2 (tolower_eq_sign a)).
  - exact IH.
Qed.

Lemma variables_clean :
  Forall (fun v => strchr (name v) "=" = None /\ name v <> "" /\
                   ends_with ":" (name v) = false) variables.
Proof. repeat constructor; discriminate. Qed.

(** A key that names a component holds no ['='], is not empty and does not
    end in [':']. *)
Lemma named_key_clean (k : string) (v : var) :
  In v variables -> lower k = name v ->
  strchr k "=" = None /\ k <> "" /\ ends_with ":" k = false.
Proof.
  intros Hin Hk.
  destruct (proj1 (Forall_forall _ _) variables_clean v Hin) as (H1 & H2 & H3).
  rewrite <- Hk in H1, H2, H3.
  rewrite strchr_lower_eq in H1. rewrite ends_with_lower_colon in H3.
  repeat split; try assumption.
  intros ->. apply H2. reflexivity.
Qed.

Lemma target_in (op : SetOp) (i : nat) (v : var) :
  target op = Some (i, v) ->
  nth_error variables i = Some v /\ In v variables /\
  lower (so_key op) = name v.
Proof.
  unfold target. intro H. apply index_of_some in H.
  destruct H as (j & -> & Hn & Hnm). simpl.
  repeat split; [exact Hn | exact (nth_error_In _ _ Hn) | now symmetry].
Qed.

(** One node of the set list whose key names a component. *)
Lemma set_nodes_known (E : Engine) (op : SetOp) (i : nat) (v : var)
      (next : list string) (uh : handle E) (varset : list bool) (w : world) :
  target op = Some (i, v) ->
  set_nodes E (setop_arg op :: next) uh varset w =
  if nth i varset false then (Exit ERROR_SET, failed w (dup_msg v))
  else set_nodes E next (apply_setop E uh op) (varset_mark i varset) w.
Proof.
  intro Ht. destruct (target_in _ _ _ Ht) as (_ & Hin & Hk).
  destruct (named_key_clean _ _ Hin Hk) as (H1 & H2 & H3).
  rewrite set_nodes_step by auto. now rewrite Ht.
Qed.

Lemma format_vars_no_match (E : Engine) (vars : list var) (ptr : string)
      (vlen : nat) (op : struct_option) (uh : handle E) (w : world) :
  (forall v, In v vars -> var_match ptr vlen v = false) ->
  format_vars E vars ptr vlen op uh w = (Ret tt, w).
Proof.
  induction vars as [|v vs IH]; intro H; [reflexivity|].
  simpl. rewrite (H v) by (now left).
  unfold bind, ret. apply IH. intros v' Hin. apply H. now right.
Qed.

(** A key that is a strict prefix, a strict extension or a one-character
    variant of a registry name is not a registry name. *)
Lemma near_miss_unknown (key : string) (v v' : var) :
  In v variables -> In v' variables ->
  strict_prefix key (name v') \/ strict_extension key (name v') \/
  one_char_off key (name v') ->
  lower key <> name v.
Proof.
  intros Hv Hv' [(t & Ht & H) | [(t & Ht & H) | (a & c & c' & b & H1 & H2 & Hc)]] Hk.
  - rewrite Hk in H. apply Ht. exact (names_prefix_free _ _ _ Hv' Hv H).
  - rewrite Hk in H. apply Ht. symmetry in H.
    exact (names_prefix_free _ _ _ Hv Hv' H).
  - apply (names_hamming v' v Hv' Hv).
    rewrite <- Hk, H1, H2. now apply hamming_one.
Qed.

(** ** The set-once flags *)

Lemma varset_mark_length (i : nat) (vs : list bool) :
  List.length (varset_mark i vs) = List.length vs.
Proof.
  revert i. induction vs as [|b r IH]; intro i; [destruct i; reflexivity|].
  destruct i; simpl; [reflexivity | now rewrite IH].
Qed.

Lemma varset_mark_same (i : nat) (vs : list bool) :
  i < List.length vs -> nth i (varset_mark i vs) false = true.
Proof.
  revert i. induction vs as [|b r IH]; intros i H; simpl in H; [lia|].
  destruct i; simpl; [reflexivity | apply IH; lia].
Qed.

Lemma varset_mark_other (i j : nat) (vs : list bool) :
  i <> j -> nth j (varset_mark i vs) false = nth j vs false.
Proof.
  revert i j. induction vs as [|b r IH]; intros i j H;
    [destruct i; reflexivity|].
  destruct i, j; simpl; try reflexivity; [congruence | apply IH; congruence].
Qed.

Lemma target_index_bound (op : SetOp) (i : nat) :
  target_index op = Some i -> i < NUM_COMPONENTS.
Proof.
  unfold target_index. destruct (target op) as [[k v]|] eqn:Ht; [|discriminate].
  simpl. intro H. inversion H; subst.
  destruct (target_in _ _ _ Ht) as (Hn & _).
  assert (Hs : nth_error variables i <> None) by congruence.
  apply nth_error_Some in Hs. exact Hs.
Qed.

(** The set loop over a run of set operations that name components, no two
    the same one and none set before: no error, every operation is handed
    to the engine, and exactly their components are flagged. *)
Lemma set_nodes_ops (E : Engine) (ops : list SetOp) :
  forall (uh : handle E) (varset : list bool) (w : world) (rest : list string),
  List.length varset = NUM_COMPONENTS ->
  Forall (fun op => target op <> None) ops ->
  NoDup (map target_index ops) ->
  (forall op i, In op ops -> target_index op = Some i ->
                nth i varset false = false) ->
  exists varset',
    List.length varset' = NUM_COMPONENTS /\
    (forall j, nth j varset' false = true <->
               (nth j varset false = true \/
                In (Some j) (map target_index ops))) /\
    set_nodes E (map setop_arg ops ++ rest)%list uh varset w =
    set_nodes E rest (fold_left (apply_setop E) ops uh) varset' w.
Proof.
  induction ops as [|op ops IH]; intros uh varset w rest Hlen Hall Hnd Hfresh.
  - exists varset. repeat split; auto.
    + intros [H|[]]; exact H.
  - inversion Hall as [|? ? Hop Hall']; subst.
    destruct (target op) as [[i v]|] eqn:Ht; [|congruence].
    assert (Hti : target_index op = Some i) by (unfold target_index; now rewrite Ht).
    simpl in Hnd. rewrite Hti in Hnd.
    apply NoDup_cons_iff in Hnd. destruct Hnd as [Hni Hnd].
    assert (Hi : i < NUM_COMPONENTS) by exact (target_index_bound _ _ Hti).
    cbn [map List.app]. rewrite (set_nodes_known E op i v) by exact Ht.
    rewrite (Hfresh op i) by (auto; now left).
    destruct (IH (apply_setop E uh op) (varset_mark i varset) w rest)
      as (vs' & Hlen' & Hvs' & Heq).
    + now rewrite varset_mark_length.
    + exact Hall'.
    + exact Hnd.
    + intros op' j Hin Hj.
      assert (Hij : i <> j).
      { intros ->. apply Hni. rewrite <- Hj. now apply in_map. }
      rewrite (varset_mark_other _ _ _ Hij).
      apply (Hfresh op' j); [now right | exact Hj].
    + exists vs'. split; [exact Hlen'|]. split; [|exact Heq].
      intro j. rewrite Hvs'. cbn [map]. rewrite Hti. split.
      * intros [H|H]; [|right; now right].
        destruct (Nat.eq_dec i j) as [->|Hij]; [right; now left|].
        rewrite (varset_mark_other _ _ _ Hij) in H. now left.
      * intros [H|[H|H]].
        -- destruct (Nat.eq_dec i j) as [->|Hij].
           ++ left. apply varset_mark_same. lia.
           ++ left. now rewrite (varset_mark_other _ _ _ Hij).
        -- inversion H; subst. left. apply varset_mark_same. lia.
        -- now right.
Qed.

Lemma repeat_false_nth (n j : nat) : nth j (repeat false n) false = false.
Proof.
  revert j. induction n; intro j; destruct j; simpl; auto.
Qed.

(** The first set operation whose component was targeted before it. *)
Lemma first_repeat (ops : list SetOp) :
  NoDup (map target_index ops) \/
  exists pre x post,
    ops = (pre ++ x :: post)%list /\ NoDup (map target_index pre) /\
    In (target_index x) (map target_index pre).
Proof.
  assert (Hdec : forall a b : option nat, {a = b} + {a <> b})
    by (decide equality; apply Nat.eq_dec).
  induction ops as [|y ops' IH] using rev_ind; [left; constructor|].
  destruct IH as [Hnd | (pre & x & post & -> & Hnd & Hin)].
  - destruct (in_dec Hdec (target_index y) (map target_index ops')) as [Hy|Hy].
    + right. exists ops', y, []. auto.
    + left. rewrite map_app. apply NoDup_app; [exact Hnd | repeat constructor; intros [] |].
      intros a Ha [<-|[]]. contradiction.
  - right. exists pre, x, (post ++ [y])%list.
    rewrite <- List.app_assoc. auto.
Qed.

(** C7.  When the set list holds two set operations on one component, with
    set operations that name components before the second of them, [set]
    ends the run with [ERROR_SET] and the set-once message, whatever the
    values and the encode marks are.  The message names a component that two
    of these operations target: the one whose second operation comes first
    in the list, which is the given component when no other one is repeated
    before.  The operation that repeats it is not handed to the engine. *)
Theorem duplicate_set_is_fatal (E : Engine) (o : struct_option)
        (uh : handle E) (w : world) (l1 l2 : list SetOp) (s1 s2 : SetOp)
        (l3 : list string) (i : nat) :
  o_set_list o = (map setop_arg (l1 ++ s1 :: l2 ++ [s2]) ++ l3)%list ->
  Forall (fun op => target op <> None) (l1 ++ l2) ->
  target_index s1 = Some i ->
  target_index s2 = Some i ->
  exists j vj,
    nth_error variables j = Some vj /\
    set E uh o w = (Exit ERROR_SET, failed w (dup_msg vj)) /\
    (exists a b c,
        map target_index (l1 ++ s1 :: l2 ++ [s2]) =
        (a ++ Some j :: b ++ Some j :: c)%list) /\
    (NoDup (map target_index (l1 ++ s1 :: l2)) -> j = i).
Proof.
  intros Hlist Hall H1 H2.
  set (L := (l1 ++ s1 :: l2 ++ [s2])%list) in *.
  assert (HallL : Forall (fun op => target op <> None) L).
  { apply Forall_forall. intros op Hin. unfold L in Hin.
    rewrite Forall_forall in Hall.
    assert (Hti : forall s, target_index s = Some i -> target s <> None).
    { intros s Hs Hn. unfold target_index in Hs. rewrite Hn in Hs. discriminate Hs. }
    apply in_app_or in Hin. destruct Hin as [Hin|[<-|Hin]].
    - apply Hall, in_or_app. now left.
    - now apply Hti.
    - apply in_app_or in Hin. destruct Hin as [Hin|[<-|[]]].
      + apply Hall, in_or_app. now right.
      + now apply Hti. }
  destruct (first_repeat L) as [Hnd | (pre & x & post & HL & Hnd & Hin)].
  { exfalso. unfold L in Hnd. rewrite map_app in Hnd. cbn [map] in Hnd.
    rewrite H1 in Hnd. apply NoDup_remove_2 in Hnd. apply Hnd.
    apply in_or_app. right. rewrite map_app. apply in_or_app. right.
    simpl. left. exact H2. }
  assert (Hx : In x L) by (rewrite HL; apply in_or_app; right; now left).
  rewrite Forall_forall in HallL.
  destruct (target x) as [[j vj]|] eqn:Htx; [|exfalso; now apply (HallL x Hx)].
  assert (Htix : target_index x = Some j) by (unfold target_index; now rewrite Htx).
  rewrite Htix in Hin.
  exists j, vj. split; [exact (proj1 (target_in _ _ _ Htx))|]. split; [|split].
  - unfold set. rewrite Hlist, HL, map_app. cbn [map].
    rewrite <- List.app_assoc. cbn [List.app].
    destruct (set_nodes_ops E pre uh (repeat false NUM_COMPONENTS) w
                (setop_arg x :: map setop_arg post ++ l3)%list)
      as (vs' & Hlen' & Hvs' & Heq).
    + apply repeat_length.
    + apply Forall_forall. intros op Hop. apply HallL. rewrite HL.
      apply in_or_app. now left.
    + exact Hnd.
    + intros. apply repeat_false_nth.
    + rewrite Heq, (set_nodes_known E x j vj) by exact Htx.
      assert (Hj : nth j vs' false = true) by (apply Hvs'; now right).
      now rewrite Hj.
  - apply in_split in Hin. destruct Hin as (a & b & Hab).
    exists a, b, (map target_index post).
    fold L. rewrite HL, map_app. cbn [map]. rewrite Hab, Htix.
    rewrite <- List.app_assoc. reflexivity.
  - intro HndM.
    assert (HLM : L = ((l1 ++ s1 :: l2) ++ [s2])%list).
    { unfold L. rewrite <- List.app_assoc. reflexivity. }
    rewrite HL in HLM.
    destruct post as [|z post'] using rev_ind.
    + apply app_inj_tail in HLM. destruct HLM as [_ ->]. congruence.
    + clear IHpost'. exfalso.
      change (pre ++ x :: post' ++ [z])%list
        with (pre ++ (x :: post') ++ [z])%list in HLM.
      rewrite List.app_assoc in HLM.
      apply app_inj_tail in HLM. destruct HLM as [HM _].
      rewrite <- HM, map_app in HndM. cbn [map] in HndM.
      apply NoDup_remove_2 in HndM. apply HndM.
      apply in_or_app. left. now rewrite Htix.
Qed.

Lemma duplicate_set_is_fatal_witness :
  exists j vj,
    nth_error variables j = Some vj /\
    set Toy.engine Toy.empty
        (mkOption [] [] [] ["host=a"; "port=1"; "HOST:=b"] None None None
                  false false 0%Z) w0 =
    (Exit ERROR_SET, failed w0 (dup_msg vj)) /\
    (exists a b c,
        map target_index
            ([] ++ mkSetOp "host" true "a" ::
                [mkSetOp "port" true "1"] ++ [mkSetOp "HOST" false "b"]) =
        (a ++ Some j :: b ++ Some j :: c)%list) /\
    (NoDup (map target_index
                ([] ++ mkSetOp "host" true "a" :: [mkSetOp "port" true "1"])) ->
     j = 5).
Proof.
  apply (duplicate_set_is_fatal Toy.engine _ Toy.empty w0
           [] [mkSetOp "port" true "1"]
           (mkSetOp "host" true "a") (mkSetOp "HOST" false "b") [] 5).
  - reflexivity.
  - repeat constructor. discriminate.
  - reflexivity.
  - reflexivity.
Defined.

(** C5 (as the code has it).  A set operation whose key is [url], in any
    letter case, is accepted by [set] like every other registry name: its
    value goes to the engine as the whole URL, with the flags of a set
    operation, and the run goes on. *)
Theorem set_accepts_url (E : Engine) (o : struct_option) (uh : handle E)
        (w : world) (key value : string) (enc : bool) :
  lower key = "url" ->
  o_set_list o = [setop_arg (mkSetOp key enc value)] ->
  set E uh o w =
  (Ret (fst (curl_url_set E uh CURLUPART_URL value (set_flags enc))), w).
Proof.
  intros Hk Hl.
  assert (Ht : target (mkSetOp key enc value) =
               Some (0, mkVar "url" CURLUPART_URL)).
  { unfold target. cbn [so_key]. rewrite Hk. reflexivity. }
  unfold set. rewrite Hl, (set_nodes_known E _ _ _ _ _ _ _ Ht).
  cbn [nth repeat NUM_COMPONENTS set_nodes]. unfold apply_setop.
  rewrite Ht. reflexivity.
Qed.

Lemma set_accepts_url_witness :
  set Toy.engine Toy.empty
      (mkOption [] [] [] ["URL:=http://example.com/"] None None None
                false false 0%Z) w0 =
  (Ret (fst (curl_url_set Toy.engine Toy.empty CURLUPART_URL
                          "http://example.com/" (set_flags false))), w0).
Proof.
  apply (set_accepts_url Toy.engine _ Toy.empty w0 "URL" "http://example.com/" false).
  - reflexivity.
  - reflexivity.
Defined.

(** C5, counterexample: [--set url=http://example.com/] on an empty handle
    is accepted; the set phase returns and the handle holds the host of
    that URL. *)
Lemma url_set_counterexample :
  exists uh',
    set Toy.engine Toy.empty
        (mkOption [] [] [] ["url=http://example.com/"] None None None
                  false false 0%Z) w0 = (Ret uh', w0) /\
    Toy.host uh' = Some "example.com".
Proof.
  eexists. split; [vm_compute; reflexivity | reflexivity].
Qed.

(** ** The append phase *)

Lemma char_before_nonempty (p : string) :
  p <> "" -> exists c, char_before p (strlen p) = Some c.
Proof.
  induction p as [|a r IH]; [congruence|]. intros _.
  destruct r as [|b r'].
  - exists a. reflexivity.
  - destruct (IH ltac:(discriminate)) as [c Hc]. exists c. exact Hc.
Qed.

(** The new path of the source is the join of the specification whenever
    the engine hands back a path of at least one character. *)
Lemma npath_of_join (p apath : string) :
  p <> "" -> npath_of (Some p) apath = Some (path_join p apath).
Proof.
  intro Hp. unfold npath_of, path_join.
  pose proof (char_before_last p "/" Hp) as Hl. unfold strlen.
  destruct (char_before_nonempty p Hp) as [c Hc]. unfold strlen in Hc.
  rewrite Hc in *. rewrite <- Hl.
  destruct (Ascii.eqb c "/"); reflexivity.
Qed.

Lemma append_paths_returns (E : Engine) (l : list string) :
  path_readable E ->
  forall (uh : handle E) (w : world),
    exists uh', append_paths E l uh w = (Ret uh', w).
Proof.
  intro Hr. induction l as [|apath next IH]; intros uh w.
  - exists uh. reflexivity.
  - destruct (Hr uh) as (rc & p & Hg & Hp).
    cbn [append_paths]. rewrite Hg, (npath_of_join _ _ Hp). apply IH.
Qed.

Lemma toy_path_readable : path_readable Toy.engine.
Proof.
  intro h. exists CURLUE_OK, (Toy.path_or_slash h). split; [reflexivity|].
  unfold Toy.path_or_slash. destruct (Toy.path h) as [[|c r]|]; discriminate.
Qed.

(** C6, counterexample: the engine refuses the port [abc] with
    [CURLUE_BAD_PORT_NUMBER]; the run goes on, prints the URL and ends
    with status 0. *)
Lemma engine_error_counterexample :
  snd (curl_url_set Toy.engine
         (fold_left (apply_setop Toy.engine)
                    [mkSetOp "scheme" true "https";
                     mkSetOp "host" true "example.com"] Toy.empty)
         CURLUPART_PORT "abc" (set_flags true)) = CURLUE_BAD_PORT_NUMBER /\
  main Toy.engine
       (mkOption [] [] [] ["scheme=https"; "host=example.com"; "port=abc"]
                 None None None false false 0%Z) w0 =
  (Ret 0%Z, mkWorld ("https://example.com/" ++ nl) "").
Proof. split; vm_compute; reflexivity. Qed.

Lemma format_vars_urldecode (E : Engine) (op1 op2 : struct_option)
      (uh : handle E) (vars : list var) (ptr : string) (vlen : nat)
      (w : world) :
  o_urldecode op1 = o_urldecode op2 ->
  format_vars E vars ptr vlen op1 uh w = format_vars E vars ptr vlen op2 uh w.
Proof.
  intro H. revert w. induction vars as [|v vs IH]; intro w; [reflexivity|].
  cbn [format_vars]. rewrite H. unfold bind.
  match goal with |- context [match ?m w with _ => _ end] =>
    destruct (m w) as [[[]| |] w'] end; try reflexivity.
  apply IH.
Qed.

(** The format loop reads the options for the decode flag only. *)
Lemma format_loop_urldecode (E : Engine) (op1 op2 : struct_option)
      (uh : handle E) (fuel : nat) :
  o_urldecode op1 = o_urldecode op2 ->
  forall (ptr : string) (w : world),
    format_loop E fuel ptr op1 uh w = format_loop E fuel ptr op2 uh w.
Proof.
  intro H. induction fuel as [|f IH]; intros ptr w; [reflexivity|].
  destruct ptr as [|c rest]; [reflexivity|].
  cbn [format_loop].
  destruct (Ascii.eqb "{" c).
  - destruct (Ascii.eqb "{" (char_at 1 (String c rest))).
    + unfold bind. destruct (fputc_out "{" w) as [[[]| |] w'];
        try reflexivity. apply IH.
    + destruct (strchr (String c rest) "}") as [e|]; [|apply IH].
      unfold bind.
      rewrite (format_vars_urldecode E op1 op2 uh _ _ _ w H).
      destruct (format_vars E variables rest (e - 1) op2 uh w)
        as [[[]| |] w']; try reflexivity.
      apply IH.
  - destruct (Ascii.eqb "\" c &&
              negb (Ascii.eqb (char_at 1 (String c rest)) zero)).
    + unfold bind at 1 3.
      match goal with |- context [match ?m w with _ => _ end] =>
        destruct (m w) as [[[]| |] w'] end; try reflexivity.
      apply IH.
    + unfold bind. destruct (fputc_out c w) as [[[]| |] w'];
        try reflexivity. apply IH.
Qed.

(** C3 (as the code has it).  The redirect is set, as the whole URL with
    the guess-scheme and tolerate-nonstandard-scheme flags, right after the
    base URL and only when there is one; without a base URL the handle
    reaches the set phase untouched, and the whole of [singleurl] runs as
    it does without a redirect. *)
Theorem redirect_needs_base (E : Engine) (o : struct_option) (uh : handle E)
        (r : string) :
  o_redirect o = Some r ->
  singleurl_base E o None uh = uh /\
  (forall u,
     singleurl_base E o (Some u) uh =
     fst (curl_url_set E
            (fst (curl_url_set E uh CURLUPART_URL u base_flags))
            CURLUPART_URL r base_flags)) /\
  (forall w, singleurl E o None w = singleurl E (with_redirect o None) None w).
Proof.
  intro Hr. split; [reflexivity|]. split.
  - intro u. unfold singleurl_base. rewrite Hr. reflexivity.
  - intro w. unfold singleurl. destruct (curl_url E) as [uh0|]; [|reflexivity].
    unfold bind.
    change (singleurl_mutate E (with_redirect o None) None uh0 w)
      with (singleurl_mutate E o None uh0 w).
    destruct (singleurl_mutate E o None uh0 w) as [[uh'| |] w'];
      try reflexivity.
    change (o_format (with_redirect o None)) with (o_format o).
    destruct (o_format o) as [fmt|] eqn:Hf; [|reflexivity].
    unfold format, bind.
    change (o_format (with_redirect o None)) with (o_format o).
    rewrite Hf.
    rewrite (format_loop_urldecode E o (with_redirect o None) uh' _ eq_refl).
    reflexivity.
Qed.

Lemma redirect_needs_base_witness :
  singleurl_base Toy.engine
    (mkOption [] [] [] [] (Some "http://other.example/") None None
              false false 0%Z) None Toy.empty = Toy.empty /\
  forall u,
    singleurl_base Toy.engine
      (mkOption [] [] [] [] (Some "http://other.example/") None None
                false false 0%Z) (Some u) Toy.empty =
    fst (curl_url_set Toy.engine
           (fst (curl_url_set Toy.engine Toy.empty CURLUPART_URL u base_flags))
           CURLUPART_URL "http://other.example/" base_flags).
Proof.
  destruct (redirect_needs_base Toy.engine
              (mkOption [] [] [] [] (Some "http://other.example/") None None
                        false false 0%Z)
              Toy.empty "http://other.example/" eq_refl) as (H1 & H2 & _).
  split; [exact H1 | exact H2].
Defined.

(** C3, counterexample: [--redirect http://other.example/] without a base
    URL.  The redirect is not set: the handle stays empty and the run ends
    with "not enough input for a URL", although the engine accepts the
    redirect as a URL; with a base URL the redirect is printed. *)
Lemma redirect_counterexample :
  main Toy.engine
       (mkOption [] [] [] [] (Some "http://other.example/") None None
                 false false 0%Z) w0 =
  (Exit ERROR_URL, failed w0 "not enough input for a URL") /\
  snd (curl_url_set Toy.engine Toy.empty CURLUPART_URL
                    "http://other.example/" base_flags) = CURLUE_OK /\
  main Toy.engine
       (mkOption ["http://example.com/"] [] [] []
                 (Some "http://other.example/") None None false false 0%Z) w0 =
  (Ret 0%Z, mkWorld ("http://other.example/" ++ nl) "").
Proof. repeat split; vm_compute; reflexivity. Qed.

(** ** The batch *)

Lemma bind_ret_tt (m : M unit) (w : world) : (m ;; ret tt) w = m w.
Proof.
  unfold bind, ret. destruct (m w) as [[[]| |] w']; reflexivity.
Qed.

Lemma main_list_each (E : Engine) (o : struct_option) (u : string)
      (next : list string) (w : world) :
  main_list E (u :: next) o w = each_input E o (map Some (u :: next)) w.
Proof.
  revert u w. induction next as [|u' next' IH]; intros u w.
  - reflexivity.
  - cbn [main_list map each_input]. unfold bind at 1 3.
    destruct (singleurl E o (Some u) w) as [[[]| |] w']; try reflexivity.
    apply IH.
Qed.

Lemma main_file_each (E : Engine) (o : struct_option) (fuel : nat) :
  forall (stream : string) (w : world),
    main_file E fuel stream o w =
    each_input E o (map Some (file_urls fuel stream)) w.
Proof.
  induction fuel as [|fuel IH]; intros stream w; [reflexivity|].
  cbn [main_file file_urls].
  destruct (fgets BUFSIZE stream) as [[buffer rest]|]; [|reflexivity].
  destruct (buffer_url buffer) as [u|]; [|apply IH].
  cbn [map each_input]. unfold bind.
  destruct (singleurl E o (Some u) w) as [[[]| |] w']; try reflexivity.
  apply IH.
Qed.

(** [main] is [singleurl] on each input of the batch in turn. *)
Lemma main_batch (E : Engine) (o : struct_option) (w : world) :
  main E o w = (each_input E o (batch_inputs o) ;; ret 0%Z) w.
Proof.
  unfold main, batch_inputs, bind.
  destruct (o_url o) as [stream|].
  - now rewrite main_file_each.
  - destruct (o_url_list o) as [|u next].
    + cbn [main_list each_input]. now rewrite bind_ret_tt.
    + now rewrite main_list_each.
Qed.

Lemma each_input_app (E : Engine) (o : struct_option)
      (pre l : list (option string)) (w : world) :
  each_input E o (pre ++ l)%list w = (each_input E o pre ;; each_input E o l) w.
Proof.
  revert w. induction pre as [|u pre IH]; intro w; [reflexivity|].
  cbn [List.app each_input]. unfold bind in *.
  destruct (singleurl E o u w) as [[[]| |] w']; try reflexivity.
  apply IH.
Qed.

(** C1 (as the code has it).  When the inputs before one have been
    processed and, for that one, the engine does not produce the whole URL
    for the default output, the program writes "not enough input for a URL"
    to stderr and the run ends there with exit code [ERROR_URL]: the
    remaining inputs of the batch are not processed. *)
Theorem incomplete_url_ends_run (E : Engine) (o : struct_option)
        (pre rest : list (option string)) (u : option string)
        (uh0 uh : handle E) (w w1 w2 : world) :
  batch_inputs o = (pre ++ u :: rest)%list ->
  each_input E o pre w = (Ret tt, w1) ->
  curl_url E = Some uh0 ->
  singleurl_mutate E o u uh0 w1 = (Ret uh, w2) ->
  o_format o = None ->
  fst (curl_url_get E uh CURLUPART_URL (output_flags o)) <> CURLUE_OK ->
  main E o w = (Exit ERROR_URL, failed w2 "not enough input for a URL").
Proof.
  intros Hb Hpre Hu Hm Hf Hget.
  rewrite main_batch. unfold bind at 1.
  rewrite Hb, each_input_app. unfold bind at 1. rewrite Hpre.
  cbn [each_input]. unfold bind at 1.
  unfold singleurl. rewrite Hu. unfold bind at 1. rewrite Hm, Hf.
  unfold singleurl_output. fold (output_flags o).
  destruct (curl_url_get E uh CURLUPART_URL (output_flags o)) as [rc nurl].
  simpl in Hget.
  destruct rc; try congruence; now rewrite errorf_run.
Qed.

Lemma incomplete_url_ends_run_witness :
  main Toy.engine
       (mkOption ["http://a.example/"; "http://"; "http://b.example/"]
                 [] [] [] None None None false false 0%Z) w0 =
  (Exit ERROR_URL,
   failed (mkWorld ("http://a.example/" ++ nl) "")
          "not enough input for a URL").
Proof.
  apply (incomplete_url_ends_run Toy.engine _
           [Some "http://a.example/"] [Some "http://b.example/"]
           (Some "http://") Toy.empty Toy.empty w0
           (mkWorld ("http://a.example/" ++ nl) "")
           (mkWorld ("http://a.example/" ++ nl) "")).
  - reflexivity.
  - vm_compute. reflexivity.
  - reflexivity.
  - vm_compute. reflexivity.
  - reflexivity.
  - vm_compute. discriminate.
Defined.

(** C1, counterexample: of the two inputs [http://] and
    [http://example.com/] the first gives no URL; the run ends with exit
    code 7 and nothing on stdout, although the second input alone prints
    its URL. *)
Lemma incomplete_url_counterexample :
  main Toy.engine
       (mkOption ["http://"; "http://example.com/"] [] [] [] None None None
                 false false 0%Z) w0 =
  (Exit 7%Z, mkWorld "" (errtext "not enough input for a URL")) /\
  main Toy.engine
       (mkOption ["http://example.com/"] [] [] [] None None None
                 false false 0%Z) w0 =
  (Ret 0%Z, mkWorld ("http://example.com/" ++ nl) "").
Proof. split; vm_compute; reflexivity. Qed.

(** C2, on the code.  For every query segment the engine is handed the
    current query as [curl_maprintf] prints it, then ['&'], then the
    segment: the ['&'] is there whatever the current query is, so the new
    query is never the segment alone; an empty query gives ["&" ++ aq] and
    an absent one the text printed for a NULL string, ['&'] and the
    segment. *)
Theorem append_query_always_ampersand (E : Engine) (uh : handle E)
        (aq : string) (next : list string) :
  let oq := snd (curl_url_get E uh CURLUPART_QUERY 0%Z) in
  let nq := maprintf_s E oq ++ "&" ++ aq in
  append_queries E (aq :: next) uh =
  append_queries E next (fst (curl_url_set E uh CURLUPART_QUERY nq 0%Z)) /\
  nq <> aq /\
  (oq = Some "" -> nq = "&" ++ aq) /\
  (oq = None -> nq = nilstr E ++ "&" ++ aq).
Proof.
  cbv zeta. split; [|split; [|split]].
  - cbn [append_queries].
    destruct (curl_url_get E uh CURLUPART_QUERY 0%Z) as [rc oq]. reflexivity.
  - intro H. apply (f_equal String.length) in H.
    rewrite str_app_length in H. simpl in H. lia.
  - intros ->. reflexivity.
  - intros ->. reflexivity.
Qed.

(** C2 at the failing input: [http://example.com/] with
    [--append query=k=v], then with a second segment [k2=v2]. *)
Example append_query_failing_input :
  main Toy.engine
       (mkOption ["http://example.com/"] [] ["k=v"] [] None None None
                 false false 0%Z) w0 =
  (Ret 0%Z, mkWorld ("http://example.com/?(nil)&k=v" ++ nl) "") /\
  main Toy.engine
       (mkOption ["http://example.com/"] [] ["k=v"; "k2=v2"] [] None None None
                 false false 0%Z) w0 =
  (Ret 0%Z, mkWorld ("http://example.com/?(nil)&k=v&k2=v2" ++ nl) "").
Proof. split; vm_compute; reflexivity. Qed.

(** Path appends on runs: ["a"] appended to a URL without a path gives [/a], ["b"]
    after it [/a/b], and a path that ends with a slash gets no second
    one. *)
Example append_path_runs :
  main Toy.engine
       (mkOption ["http://example.com"] ["a"] [] [] None None None
                 false false 0%Z) w0 =
  (Ret 0%Z, mkWorld ("http://example.com/a" ++ nl) "") /\
  main Toy.engine
       (mkOption ["http://example.com"] ["a"; "b"] [] [] None None None
                 false false 0%Z) w0 =
  (Ret 0%Z, mkWorld ("http://example.com/a/b" ++ nl) "") /\
  main Toy.engine
       (mkOption ["http://example.com/x/"] ["b"] [] [] None None None
                 false false 0%Z) w0 =
  (Ret 0%Z, mkWorld ("http://example.com/x/b" ++ nl) "").
Proof. repeat split; vm_compute; reflexivity. Qed.

(** ** The format interpreter *)

Lemma world_eta (w : world) : mkWorld (stdout w) (stderr w) = w.
Proof. destruct w; reflexivity. Qed.

Lemma format_loop_plain_prefix (E : Engine) (op : struct_option)
      (uh : handle E) (pre : string) :
  plain pre = true ->
  forall (fuel : nat) (rest : string) (w : world),
    format_loop E (strlen pre + fuel) (pre ++ rest) op uh w =
    format_loop E fuel rest op uh (mkWorld (stdout w ++ pre) (stderr w)).
Proof.
  induction pre as [|c r IH]; intros Hp fuel rest w.
  - simpl. now rewrite str_app_nil_r, world_eta.
  - simpl in Hp. repeat (apply andb_true_iff in Hp; destruct Hp as [Hp ?]).
    change (strlen (String c r) + fuel) with (S (strlen r + fuel)).
    change (String c r ++ rest) with (String c (r ++ rest)).
    cbn [format_loop].
    rewrite (Ascii.eqb_sym "{" c), (Ascii.eqb_sym "\" c).
    apply negb_true_iff in Hp. rewrite Hp.
    match goal with H : negb (Ascii.eqb c "\") = true |- _ =>
      apply negb_true_iff in H; rewrite H end.
    cbn [andb]. unfold bind, fputc_out, put_out.
    rewrite (IH ltac:(assumption)). cbn [stdout stderr].
    now rewrite str_app_assoc.
Qed.

Lemma format_loop_unmatched (E : Engine) (op : struct_option)
      (uh : handle E) (fuel : nat) (rest : string) (w : world) :
  char_at 0 rest <> "{"%char ->
  strchr rest "}" = None ->
  format_loop E (S fuel) (String "{" rest) op uh w =
  format_loop E fuel rest op uh w.
Proof.
  intros Hc Hs. cbn [format_loop].
  change (Ascii.eqb "{" "{") with true. cbv iota.
  change (char_at 1 (String "{" rest)) with (char_at 0 rest).
  destruct (Ascii.eqb "{" (char_at 0 rest)) eqn:He.
  - apply Ascii.eqb_eq in He. congruence.
  - cbn [strchr]. change (Ascii.eqb "{" "}") with false. cbv iota.
    now rewrite Hs.
Qed.

Lemma advance_length (n : nat) (s : string) :
  String.length (advance n s) <= String.length s.
Proof.
  revert s. induction n as [|n IH]; intros [|c r]; simpl; try lia.
  specialize (IH r). lia.
Qed.

(** The fuel of [format] is enough: with at least the length of the
    template left, the loop does not depend on the fuel. *)
Lemma format_loop_fuel (E : Engine) (op : struct_option) (uh : handle E)
      (fuel1 : nat) :
  forall (fuel2 : nat) (ptr : string) (w : world),
    String.length ptr <= fuel1 -> String.length ptr <= fuel2 ->
    format_loop E fuel1 ptr op uh w = format_loop E fuel2 ptr op uh w.
Proof.
  induction fuel1 as [|f1 IH]; intros fuel2 ptr w H1 H2.
  - destruct ptr; [|simpl in H1; lia]. destruct fuel2; reflexivity.
  - destruct fuel2 as [|f2].
    + destruct ptr; [reflexivity | simpl in H2; lia].
    + destruct ptr as [|c rest]; [reflexivity|].
      simpl in H1, H2.
      assert (Hadv : forall n, String.length (advance (S n) (String c rest))
                               <= String.length rest).
      { intro n. apply (advance_length n rest). }
      cbn [format_loop].
      destruct (Ascii.eqb "{" c).
      * destruct (Ascii.eqb "{" (char_at 1 (String c rest))).
        -- unfold bind. destruct (fputc_out "{" w) as [[[]| |] w'];
             try reflexivity.
           apply IH; specialize (Hadv 1); lia.
        -- destruct (strchr (String c rest) "}") as [e|].
           ++ unfold bind.
              destruct (format_vars E variables rest (e - 1) op uh w)
                as [[[]| |] w']; try reflexivity.
              apply IH; specialize (Hadv e); lia.
           ++ apply IH; lia.
      * destruct (Ascii.eqb "\" c &&
                  negb (Ascii.eqb (char_at 1 (String c rest)) zero)).
        -- unfold bind at 1 3.
           match goal with |- context [match ?m w with _ => _ end] =>
             destruct (m w) as [[[]| |] w'] end; try reflexivity.
           apply IH; specialize (Hadv 1); lia.
        -- unfold bind. destruct (fputc_out c w) as [[[]| |] w'];
             try reflexivity.
           apply IH; lia.
Qed.

(** C4, counterexample: the template [a{b] has a ['{'] without a ['}'];
    the text after it is printed. *)
Lemma unmatched_brace_counterexample :
  format Toy.engine
         (mkOption [] [] [] [] None (Some "a{b") None false false 0%Z)
         Toy.empty w0 = (Ret tt, mkWorld ("ab" ++ nl) "").
Proof. vm_compute. reflexivity. Qed.

(** ** Reading URLs from a file *)

Lemma fgets_read_split (room : nat) (s b r : string) :
  fgets_read room s = (b, r) -> s = b ++ r.
Proof.
  revert s b r. induction room as [|room IH]; intros s b r H.
  - destruct s; inversion H; reflexivity.
  - destruct s as [|c s']; [inversion H; reflexivity|].
    cbn [fgets_read] in H. destruct (Ascii.eqb c LF).
    + inversion H; reflexivity.
    + destruct (fgets_read room s') as [b' r'] eqn:Hr.
      inversion H; subst. simpl. f_equal. now apply IH.
Qed.

Lemma fgets_read_shrinks (room : nat) (c : ascii) (s b r : string) :
  fgets_read (S room) (String c s) = (b, r) ->
  String.length r < String.length (String c s).
Proof.
  cbn [fgets_read]. destruct (Ascii.eqb c LF).
  - intro H. inversion H; subst. simpl. lia.
  - destruct (fgets_read room s) as [b' r'] eqn:Hr.
    intro H. inversion H; subst. apply fgets_read_split in Hr.
    subst s. simpl. rewrite str_app_length. lia.
Qed.

Lemma fgets_shrinks (s b r : string) :
  fgets BUFSIZE s = Some (b, r) -> String.length r < String.length s.
Proof.
  unfold fgets. destruct s as [|c s']; [discriminate|].
  change (BUFSIZE - 1) with (S 4094). intro H.
  apply (fgets_read_shrinks 4094 c s' b r). congruence.
Qed.

Lemma file_urls_fuel (fuel1 : nat) :
  forall (fuel2 : nat) (stream : string),
    String.length stream <= fuel1 -> String.length stream <= fuel2 ->
    file_urls fuel1 stream = file_urls fuel2 stream.
Proof.
  induction fuel1 as [|f1 IH]; intros fuel2 stream H1 H2.
  - destruct stream; [|simpl in H1; lia]. destruct fuel2; reflexivity.
  - destruct fuel2 as [|f2].
    + destruct stream; [reflexivity | simpl in H2; lia].
    + cbn [file_urls].
      destruct (fgets BUFSIZE stream) as [[b r]|] eqn:Hg; [|reflexivity].
      apply fgets_shrinks in Hg.
      rewrite (IH f2 r) by lia. reflexivity.
Qed.

Lemma strchr_app_split (a b : string) (c : ascii) :
  strchr (a ++ b) c = None -> strchr a c = None /\ strchr b c = None.
Proof.
  induction a as [|x r IH]; simpl; [auto|].
  destruct (Ascii.eqb x c); [discriminate|].
  destruct (strchr (r ++ b) c) eqn:H; [discriminate|].
  intros _. destruct (IH eq_refl) as [Ha Hb]. now rewrite Ha.
Qed.

Lemma strchr_c_str_none (b : string) (c : ascii) :
  strchr b c = None -> strchr (c_str b) c = None.
Proof.
  induction b as [|x r IH]; simpl; [auto|].
  destruct (Ascii.eqb x c) eqn:Hx; [discriminate|].
  destruct (strchr r c); [discriminate|]. intros _.
  destruct (Ascii.eqb x zero); [reflexivity|].
  simpl. now rewrite Hx, IH.
Qed.

(** A buffer that holds no newline is skipped. *)
Lemma buffer_url_no_newline (buffer : string) :
  strchr buffer LF = None -> buffer_url buffer = None.
Proof.
  intro H. unfold buffer_url. now rewrite (strchr_c_str_none _ _ H).
Qed.

Lemma file_urls_no_newline (fuel : nat) :
  forall s, strchr s LF = None -> file_urls fuel s = [].
Proof.
  induction fuel as [|f IH]; intros s Hs; [reflexivity|].
  cbn [file_urls]. destruct (fgets BUFSIZE s) as [[b r]|] eqn:Hg; [|reflexivity].
  unfold fgets in Hg. destruct s as [|c s']; [discriminate|].
  assert (Hr : fgets_read (BUFSIZE - 1) (String c s') = (b, r)) by congruence.
  apply fgets_read_split in Hr.
  rewrite Hr in Hs. apply strchr_app_split in Hs. destruct Hs as [Hb Hrest].
  rewrite (buffer_url_no_newline _ Hb). now apply IH.
Qed.

Lemma ends_with_tail (c a b : ascii) (r : string) :
  ends_with c (String a (String b r)) = ends_with c (String b r).
Proof. reflexivity. Qed.

Lemma ends_with_strchr (c : ascii) (s : string) :
  ends_with c s = true -> strchr s c <> None.
Proof.
  induction s as [|a r IH]; [discriminate|].
  destruct r as [|b r'].
  - simpl. intros ->. discriminate.
  - rewrite ends_with_tail. intro H. specialize (IH H).
    remember (String b r') as s' eqn:Hs'. clear Hs'.
    cbn [strchr]. destruct (Ascii.eqb a c); [discriminate|].
    destruct (strchr s' c); [discriminate | congruence].
Qed.

Lemma fgets_read_app (t : string) (s : string) :
  forall room,
    strchr s LF <> None ->
    fgets_read room (s ++ t) =
    (fst (fgets_read room s), snd (fgets_read room s) ++ t).
Proof.
  induction s as [|c s' IH]; intros room Hs; [simpl in Hs; congruence|].
  destruct room as [|room]; [reflexivity|].
  change (String c s' ++ t) with (String c (s' ++ t)).
  cbn [fgets_read]. cbn [strchr] in Hs.
  destruct (Ascii.eqb c LF) eqn:Hc; [reflexivity|].
  assert (Hs' : strchr s' LF <> None).
  { destruct (strchr s' LF); [discriminate | exact Hs]. }
  rewrite (IH room Hs').
  destruct (fgets_read room s') as [b r]. reflexivity.
Qed.

Lemma fgets_read_ends_nl (s : string) :
  forall room, ends_nl s -> ends_nl (snd (fgets_read room s)).
Proof.
  induction s as [|c s' IH]; intros room Hs.
  - destruct room; left; reflexivity.
  - destruct room as [|room]; [exact Hs|].
    assert (Hs' : ends_nl s').
    { destruct Hs as [Hs|Hs]; [discriminate|].
      destruct s' as [|b r]; [left; reflexivity | right; exact Hs]. }
    cbn [fgets_read]. destruct (Ascii.eqb c LF); [exact Hs'|].
    specialize (IH room Hs').
    destruct (fgets_read room s') as [b r]. exact IH.
Qed.

(** Characters after the last newline of the stream add no URL. *)
Lemma file_urls_last_line (last : string) (fuel : nat) :
  strchr last LF = None ->
  forall pre, ends_nl pre ->
    file_urls fuel (pre ++ last) = file_urls fuel pre.
Proof.
  intro Hl. induction fuel as [|f IH]; intros pre Hpre; [reflexivity|].
  destruct pre as [|c pre'].
  - simpl append. rewrite (file_urls_no_newline _ _ Hl). reflexivity.
  - destruct Hpre as [Hpre|Hpre]; [discriminate|].
    pose proof (ends_with_strchr _ _ Hpre) as Hnl.
    change (String c pre' ++ last) with (String c (pre' ++ last)).
    cbn [file_urls fgets].
    change (String c (pre' ++ last)) with (String c pre' ++ last).
    rewrite (fgets_read_app last (String c pre') _ Hnl).
    pose proof (fgets_read_ends_nl (String c pre') (BUFSIZE - 1)
                                   (or_intror Hpre)) as Hr.
    destruct (fgets_read (BUFSIZE - 1) (String c pre')) as [b r].
    cbn [fst snd] in *. rewrite (IH r Hr). reflexivity.
Qed.

Lemma strchr_take (s : string) (c : ascii) :
  forall n, strchr s c = Some n ->
    s = take n s ++ String c (advance (S n) s) /\
    strchr (take n s) c = None /\
    String.length (take n s) = n.
Proof.
  induction s as [|a r IH]; intros n H; [discriminate H|].
  cbn [strchr] in H. destruct (Ascii.eqb a c) eqn:Ha.
  - inversion H; subst. apply Ascii.eqb_eq in Ha. subst a.
    repeat split; reflexivity.
  - destruct (strchr r c) as [m|] eqn:Hr; [|discriminate H].
    inversion H; subst. destruct (IH m eq_refl) as (H1 & H2 & H3).
    cbn [take advance append strchr String.length].
    rewrite Ha, H2, H3. repeat split; try reflexivity.
    cbn [advance] in H1. now rewrite <- H1.
Qed.

Lemma c_str_prefix (b : string) : exists t, b = c_str b ++ t.
Proof.
  induction b as [|a r [t Ht]].
  - exists "". reflexivity.
  - simpl. destruct (Ascii.eqb a zero).
    + exists (String a r). reflexivity.
    + exists t. simpl. now rewrite <- Ht.
Qed.

Lemma take_snoc (s : string) (c : ascii) :
  forall n, String.get n s = Some c ->
    take (S n) s = take n s ++ String c "".
Proof.
  induction s as [|a r IH]; intros n H; [destruct n; discriminate H|].
  destruct n as [|n].
  - simpl in H. inversion H; subst. destruct r; reflexivity.
  - simpl in H.
    change (take (S (S n)) (String a r)) with (String a (take (S n) r)).
    rewrite (IH n H). reflexivity.
Qed.

(** A buffer that gives a URL starts with a non-empty run of characters up
    to its first newline; the URL is that run, less a final carriage
    return. *)
Lemma buffer_url_some (buffer u : string) :
  buffer_url buffer = Some u ->
  exists line post,
    buffer = line ++ nl ++ post /\ line <> "" /\ strchr line LF = None /\
    (u = line \/ line = u ++ String CR "").
Proof.
  unfold buffer_url. destruct (c_str_prefix buffer) as [t Ht].
  destruct (strchr (c_str buffer) LF) as [eol|] eqn:Hs; [|discriminate].
  destruct eol as [|k]; [discriminate|].
  change (Nat.ltb 0 (S k)) with true. cbv iota.
  destruct (strchr_take _ _ _ Hs) as (H1 & H2 & H3).
  intro H. exists (take (S k) (c_str buffer)),
             (advance (S (S k)) (c_str buffer) ++ t).
  split; [|split; [|split]].
  - rewrite Ht at 1. rewrite H1 at 1. rewrite str_app_assoc. reflexivity.
  - intro He. rewrite He in H3. discriminate H3.
  - exact H2.
  - cbn [char_before] in H.
    destruct (String.get k (c_str buffer)) as [c|] eqn:Hg.
    + destruct (Ascii.eqb c CR) eqn:Hc.
      * apply Ascii.eqb_eq in Hc. subst c. right.
        rewrite (take_snoc _ _ _ Hg).
        replace (S k - 1) with k in H by lia. inversion H. reflexivity.
      * left. inversion H. reflexivity.
    + left. inversion H. reflexivity.
Qed.

(** Every URL of the file loop is a non-empty, newline-terminated run of
    characters of the stream, less a final carriage return. *)
Lemma file_urls_origin (fuel : nat) :
  forall (stream u : string),
    In u (file_urls fuel stream) ->
    exists a line post,
      stream = a ++ line ++ nl ++ post /\ line <> "" /\
      strchr line LF = None /\ (u = line \/ line = u ++ String CR "").
Proof.
  induction fuel as [|f IH]; intros stream u Hin; [destruct Hin|].
  cbn [file_urls] in Hin.
  destruct (fgets BUFSIZE stream) as [[b r]|] eqn:Hg; [|destruct Hin].
  assert (Hsplit : stream = b ++ r).
  { unfold fgets in Hg. destruct stream as [|c s']; [discriminate|].
    apply (fgets_read_split (BUFSIZE - 1)). congruence. }
  assert (Hrest : In u (file_urls f r) ->
                  exists a line post,
                    stream = a ++ line ++ nl ++ post /\ line <> "" /\
                    strchr line LF = None /\
                    (u = line \/ line = u ++ String CR "")).
  { intro H. destruct (IH r u H) as (a & line & post & Hr & Hrest).
    exists (b ++ a), line, post. split; [|exact Hrest].
    rewrite Hsplit, Hr, str_app_assoc. reflexivity. }
  destruct (buffer_url b) as [u'|] eqn:Hb; [|now apply Hrest].
  destruct Hin as [<-|Hin]; [|now apply Hrest].
  destruct (buffer_url_some _ _ Hb) as (line & post & Hbl & Hline).
  exists "", line, (post ++ r). split; [|exact Hline].
  rewrite Hsplit, Hbl, !str_app_assoc. reflexivity.
Qed.

(** C10.  Of a stream made of complete lines followed by characters without
    a newline, the file loop runs [singleurl] on the URLs of the complete
    lines only: the part after the last newline changes nothing.  Every URL
    it runs is a run of at least one character of the complete lines that a
    newline ends, less a final carriage return; a buffer without a newline
    and a buffer that is a newline alone are skipped. *)
Theorem file_last_line_skipped (E : Engine) (o : struct_option)
        (pre last : string) (w : world) :
  ends_nl pre ->
  strchr last LF = None ->
  main_file E (strlen (pre ++ last)) (pre ++ last) o w =
  main_file E (strlen pre) pre o w /\
  main_file E (strlen pre) pre o w =
  each_input E o (map Some (file_urls (strlen pre) pre)) w /\
  (forall u, In u (file_urls (strlen (pre ++ last)) (pre ++ last)) ->
     exists a line post,
       pre = a ++ line ++ nl ++ post /\ line <> "" /\
       strchr line LF = None /\ (u = line \/ line = u ++ String CR "")) /\
  (forall buffer, strchr buffer LF = None -> buffer_url buffer = None) /\
  buffer_url nl = None.
Proof.
  intros Hpre Hlast.
  assert (Hurls : file_urls (strlen (pre ++ last)) (pre ++ last) =
                  file_urls (strlen pre) pre).
  { rewrite (file_urls_last_line last _ Hlast pre Hpre).
    apply file_urls_fuel; unfold strlen; [rewrite str_app_length|]; lia. }
  split; [|split; [|split; [|split]]].
  - now rewrite !main_file_each, Hurls.
  - apply main_file_each.
  - intros u Hin. rewrite Hurls in Hin. exact (file_urls_origin _ _ _ Hin).
  - exact buffer_url_no_newline.
  - reflexivity.
Qed.

Lemma file_last_line_skipped_witness :
  main_file Toy.engine
    (strlen (("http://a.example/" ++ nl) ++ "http://b.example/"))
    (("http://a.example/" ++ nl) ++ "http://b.example/") o_zero w0 =
  main_file Toy.engine (strlen ("http://a.example/" ++ nl))
    ("http://a.example/" ++ nl) o_zero w0.
Proof.
  apply (file_last_line_skipped Toy.engine o_zero
           ("http://a.example/" ++ nl) "http://b.example/" w0).
  - right. reflexivity.
  - reflexivity.
Defined.

(** C10 on a run: the second line has no newline and is not processed; a
    line with a CRLF ending loses both characters. *)
Example file_run :
  main Toy.engine
       (mkOption [] [] [] [] None None
                 (Some ("http://a.example/" ++ String CR nl ++ nl ++
                        "http://b.example/"))
                 false false 0%Z) w0 =
  (Ret 0%Z, mkWorld ("http://a.example/" ++ nl) "").
Proof. vm_compute. reflexivity. Qed.

(** * Further properties of the code *)

(** ** [format]: text, escapes and tokens *)

Lemma emit_nil (w : world) : emit w "" "" = w.
Proof. unfold emit. rewrite !str_app_nil_r. apply world_eta. Qed.

Lemma emit_emit (w : world) (a b c d : string) :
  emit (emit w a b) c d = emit w (a ++ c) (b ++ d).
Proof. unfold emit. cbn [stdout stderr]. now rewrite !str_app_assoc. Qed.

Lemma emit_out (w : world) (a : string) :
  mkWorld (stdout w ++ a) (stderr w) = emit w a "".
Proof. unfold emit. now rewrite str_app_nil_r. Qed.

Lemma format_loop_plain_all (E : Engine) (op : struct_option)
      (uh : handle E) (t : string) (w : world) :
  plain t = true ->
  format_loop E (strlen t) t op uh w = (Ret tt, emit w t "").
Proof.
  intro Ht.
  pose proof (format_loop_plain_prefix E op uh t Ht 0 "" w) as H.
  rewrite Nat.add_0_r, str_app_nil_r, emit_out in H. exact H.
Qed.

(** A template made of plain text, one piece [mid] and plain text, when the
    loop passes [mid] writing [y] and [e]. *)
Lemma format_three (E : Engine) (op : struct_option) (uh : handle E)
      (pre mid post y e : string) (w : world) :
  plain pre = true -> plain post = true ->
  o_format op = Some (pre ++ mid ++ post) ->
  format_loop E (strlen (mid ++ post)) (mid ++ post) op uh (emit w pre "") =
  format_loop E (strlen post) post op uh (emit (emit w pre "") y e) ->
  format E op uh w = (Ret tt, emit w (pre ++ y ++ post ++ nl) e).
Proof.
  intros Hpre Hpost Hf Hmid. unfold format. rewrite Hf. unfold bind, strlen.
  rewrite str_app_length.
  rewrite (format_loop_plain_prefix E op uh pre Hpre), emit_out.
  unfold strlen in Hmid. rewrite Hmid.
  fold (strlen post). rewrite (format_loop_plain_all E op uh post _ Hpost).
  unfold fputc_out, put_out. rewrite emit_out, !emit_emit.
  cbn [append]. now rewrite str_app_nil_r.
Qed.

(** X1.  A template of plain text is printed as it is, with the newline;
    the engine is not asked and nothing goes to stderr. *)
Theorem format_plain_text (E : Engine) (op : struct_option) (uh : handle E)
        (t : string) (w : world) :
  o_format op = Some t -> plain t = true ->
  format E op uh w = (Ret tt, emit w (t ++ nl) "").
Proof.
  intros Hf Ht. unfold format, bind. rewrite Hf.
  rewrite (format_loop_plain_all E op uh t w Ht).
  unfold fputc_out, put_out. rewrite emit_out, emit_emit.
  reflexivity.
Qed.

Lemma format_plain_text_witness :
  format Toy.engine
         (mkOption [] [] [] [] None (Some "no braces here") None
                   false false 0%Z) Toy.empty w0 =
  (Ret tt, emit w0 ("no braces here" ++ nl) "").
Proof.
  apply (format_plain_text Toy.engine
           (mkOption [] [] [] [] None (Some "no braces here") None
                     false false 0%Z) Toy.empty "no braces here" w0).
  - reflexivity.
  - reflexivity.
Defined.

Lemma format_loop_escape (E : Engine) (op : struct_option) (uh : handle E)
      (esc y post : string) (w : world) :
  escape_seq esc y ->
  format_loop E (strlen (esc ++ post)) (esc ++ post) op uh w =
  format_loop E (strlen post) post op uh (emit w y "").
Proof.
  intro H.
  assert (Hfuel : forall w', format_loop E (S (strlen post)) post op uh w' =
                             format_loop E (strlen post) post op uh w').
  { intro w'. apply format_loop_fuel; unfold strlen; lia. }
  destruct H as [ | | | | c Hr Hn Ht Hz];
    change (strlen (?a ++ post)) with (S (S (strlen post)));
    cbn [format_loop append].
  - change (Ascii.eqb "{" "{") with true. cbv iota.
    change (char_at 1 (String "{" (String "{" post))) with "{"%char.
    change (Ascii.eqb "{" "{") with true. cbv iota.
    unfold bind, fputc_out, put_out. cbn [advance].
    rewrite Hfuel, emit_out. reflexivity.
  - change (Ascii.eqb "{" "\") with false. cbv iota.
    change (char_at 1 (String "\" (String "r" post))) with "r"%char.
    cbn [Ascii.eqb Bool.eqb andb negb zero]. cbv iota.
    unfold bind, fputc_out, put_out. cbn [advance].
    rewrite Hfuel, emit_out. reflexivity.
  - change (Ascii.eqb "{" "\") with false. cbv iota.
    change (char_at 1 (String "\" (String "n" post))) with "n"%char.
    cbn [Ascii.eqb Bool.eqb andb negb zero]. cbv iota.
    unfold bind, fputc_out, put_out. cbn [advance].
    rewrite Hfuel, emit_out. reflexivity.
  - change (Ascii.eqb "{" "\") with false. cbv iota.
    change (char_at 1 (String "\" (String "t" post))) with "t"%char.
    cbn [Ascii.eqb Bool.eqb andb negb zero]. cbv iota.
    unfold bind, fputc_out, put_out. cbn [advance].
    rewrite Hfuel, emit_out. reflexivity.
  - change (Ascii.eqb "{" "\") with false. cbv iota.
    change (char_at 1 (String "\" (String c post))) with c.
    change (Ascii.eqb "\" "\") with true.
    apply Ascii.eqb_neq in Hr, Hn, Ht, Hz. rewrite Hr, Hn, Ht, Hz.
    cbn [andb negb]. cbv iota.
    unfold bind, fputc_out, put_out. cbn [advance stdout stderr].
    rewrite Hfuel. unfold emit. now rewrite str_app_assoc, str_app_nil_r.
Qed.

(** X2.  In a template of plain text around one escape sequence, [{{]
    prints one brace, [\r], [\n] and [\t] print the control character, and
    a backslash before any other character is printed with that
    character. *)
Theorem format_escape (E : Engine) (op : struct_option) (uh : handle E)
        (pre esc y post : string) (w : world) :
  escape_seq esc y ->
  plain pre = true -> plain post = true ->
  o_format op = Some (pre ++ esc ++ post) ->
  format E op uh w = (Ret tt, emit w (pre ++ y ++ post ++ nl) "").
Proof.
  intros Hesc Hpre Hpost Hf.
  apply (format_three E op uh pre esc post y "" w Hpre Hpost Hf).
  now apply format_loop_escape.
Qed.

Lemma format_escape_witness :
  format Toy.engine
         (mkOption [] [] [] [] None (Some ("a" ++ "\n" ++ "b")) None
                   false false 0%Z) Toy.empty w0 =
  (Ret tt, emit w0 ("a" ++ String LF "" ++ "b" ++ nl) "").
Proof.
  apply (format_escape Toy.engine
           (mkOption [] [] [] [] None (Some ("a" ++ "\n" ++ "b")) None
                     false false 0%Z) Toy.empty "a" "\n" (String LF "") "b" w0).
  - exact esc_lf.
  - reflexivity.
  - reflexivity.
  - reflexivity.
Defined.

Lemma tolower_braces (a : ascii) :
  Ascii.eqb (tolower a) "}" = Ascii.eqb a "}" /\
  Ascii.eqb (tolower a) "{" = Ascii.eqb a "{".
Proof.
  destruct a as [[] [] [] [] [] [] [] []]; vm_compute; split; reflexivity.
Qed.

Lemma strchr_lower_brace (k : string) : strchr (lower k) "}" = strchr k "}".
Proof.
  induction k as [|a r IH]; simpl; [reflexivity|].
  now rewrite (proj1 (tolower_braces a)), IH.
Qed.

Lemma variables_no_brace :
  Forall (fun v => strchr (name v) "}" = None /\
                   char_at 0 (name v) <> "{"%char) variables.
Proof. repeat constructor; discriminate. Qed.

(** A key that names a component holds no ['}'] and does not start with
    ['{']. *)
Lemma named_key_no_brace (k : string) (v : var) :
  In v variables -> lower k = name v ->
  strchr k "}" = None /\ char_at 0 k <> "{"%char.
Proof.
  intros Hin Hk.
  destruct (proj1 (Forall_forall _ _) variables_no_brace v Hin) as (H1 & H2).
  rewrite <- Hk in H1, H2. rewrite strchr_lower_brace in H1.
  split; [exact H1|]. intro Hc. apply H2.
  destruct k as [|a r]; [discriminate Hc|].
  unfold char_at in *. simpl in *. subst a. reflexivity.
Qed.

Lemma variables_names_nodup : NoDup (map name variables).
Proof. repeat constructor; simpl; intuition discriminate. Qed.

Lemma bind_ret_unit (m k : M unit) (w : world) :
  (forall w', k w' = (Ret tt, w')) -> (m ;; k) w = m w.
Proof.
  intro Hk. unfold bind. destruct (m w) as [[[]| |] w']; auto.
Qed.

(** Of a list of registry entries with different names, the loop of
    [format] looks up the one the key names and no other. *)
Lemma format_vars_single (E : Engine) (op : struct_option) (uh : handle E)
      (key r : string) (v : var) (vars : list var) :
  (forall x, In x vars -> In x variables) ->
  NoDup (map name vars) ->
  In v vars -> lower key = name v ->
  forall w,
    format_vars E vars (key ++ r) (strlen key) op uh w =
    format_vars E [v] (key ++ r) (strlen key) op uh w.
Proof.
  intros Hsub Hnd Hin Hk.
  induction vars as [|x xs IH]; [destruct Hin|]. intro w.
  cbn [map] in Hnd. apply NoDup_cons_iff in Hnd. destruct Hnd as [Hx Hnd].
  assert (Hxs : forall y, In y xs -> In y variables)
    by (intros y Hy; apply Hsub; now right).
  destruct Hin as [->|Hin].
  - cbn [format_vars]. unfold bind.
    match goal with |- context [match ?m w with _ => _ end] =>
      destruct (m w) as [[[]| |] w'] end; try reflexivity.
    unfold ret. apply format_vars_no_match.
    intros y Hy.
    destruct (var_match (key ++ r) (strlen key) y) eqn:Hm; [|reflexivity].
    apply (var_match_key _ _ _ (Hxs y Hy)) in Hm.
    exfalso. apply Hx. rewrite <- Hk, Hm. now apply in_map.
  - cbn [format_vars].
    assert (Hm : var_match (key ++ r) (strlen key) x = false).
    { destruct (var_match (key ++ r) (strlen key) x) eqn:Hm; [|reflexivity].
      apply (var_match_key _ _ _ (Hsub x (or_introl eq_refl))) in Hm.
      exfalso. apply Hx. rewrite <- Hm, Hk. now apply in_map. }
    rewrite Hm. unfold bind at 1. unfold ret at 1.
    exact (IH Hxs Hnd Hin w).
Qed.

Lemma advance_past (k v : string) (c : ascii) :
  advance (S (String.length k)) (k ++ String c v) = v.
Proof. induction k; simpl; [reflexivity | assumption]. Qed.

Lemma char_at_app (k r : string) (c : ascii) :
  char_at 0 k <> "{"%char -> c <> "{"%char ->
  char_at 0 (k ++ String c r) <> "{"%char.
Proof. destruct k; intros Hk Hc; [exact Hc | exact Hk]. Qed.

(** The loop of [format] at a token: the lookups for the key, then the
    rest of the template. *)
Lemma format_loop_token (E : Engine) (op : struct_option) (uh : handle E)
      (key post : string) (w : world) :
  strchr key "}" = None -> char_at 0 key <> "{"%char ->
  format_loop E (strlen ("{" ++ key ++ "}" ++ post))
              ("{" ++ key ++ "}" ++ post) op uh w =
  (format_vars E variables (key ++ "}" ++ post) (strlen key) op uh ;;
   format_loop E (strlen post) post op uh) w.
Proof.
  intros Hk Hc.
  change ("{" ++ key ++ "}" ++ post) with (String "{" (key ++ String "}" post)).
  change (strlen (String "{" (key ++ String "}" post)))
    with (S (strlen (key ++ String "}" post))).
  cbn [format_loop].
  change (Ascii.eqb "{" "{") with true. cbv iota.
  change (char_at 1 (String "{" (key ++ String "}" post)))
    with (char_at 0 (key ++ String "}" post)).
  assert (Hne : Ascii.eqb "{" (char_at 0 (key ++ String "}" post)) = false).
  { apply Ascii.eqb_neq. intro H. symmetry in H. revert H.
    apply char_at_app; [exact Hc | discriminate]. }
  rewrite Hne. cbn [strchr]. change (Ascii.eqb "{" "}") with false. cbv iota.
  rewrite (strchr_app_none _ _ _ Hk). cbn [strchr option_map].
  change (Ascii.eqb "}" "}") with true. cbv iota. cbn [option_map].
  rewrite Nat.add_0_r.
  replace (S (String.length key) - 1) with (strlen key)
    by (unfold strlen; lia).
  change (advance (S (S (String.length key)))
                  (String "{" (key ++ String "}" post)))
    with (advance (S (String.length key)) (key ++ String "}" post)).
  rewrite advance_past.
  change (key ++ "}" ++ post) with (key ++ String "}" post).
  unfold bind.
  destruct (format_vars E variables (key ++ String "}" post) (strlen key)
                        op uh w) as [[[]| |] w']; try reflexivity.
  apply format_loop_fuel; unfold strlen; [rewrite str_app_length; simpl|]; lia.
Qed.

(** X3.  In a template of plain text around one token [{key}] whose key
    names a component in any letter case, the engine is asked once, for
    that component: its value is printed in place of the token; for a
    component that is not there nothing is printed; any other error is
    reported on stderr with the name of the component; in all three cases
    the rest of the template is printed. *)
Theorem format_token (E : Engine) (op : struct_option) (uh : handle E)
        (pre key post : string) (v : var) (w : world) :
  In v variables -> lower key = name v ->
  plain pre = true -> plain post = true ->
  o_format op = Some (pre ++ ("{" ++ key ++ "}") ++ post) ->
  match curl_url_get E uh (part v) (get_flags op) with
  | (CURLUE_OK, Some s) =>
    format E op uh w = (Ret tt, emit w (pre ++ s ++ post ++ nl) "")
  | (CURLUE_OK, None) => True
  | (rc, _) =>
    format E op uh w =
    (Ret tt,
     emit w (pre ++ "" ++ post ++ nl)
          (if absent_code rc then ""
           else PROGNAME ++ ": " ++ curl_url_strerror E rc ++
                " (" ++ name v ++ ")" ++ nl))
  end.
Proof.
  intros Hin Hk Hpre Hpost Hf.
  destruct (named_key_no_brace _ _ Hin Hk) as [Hb Hc].
  assert (Hstep : forall y e,
             format_vars E [v] (key ++ "}" ++ post) (strlen key) op uh
                         (emit w pre "") =
             (Ret tt, emit (emit w pre "") y e) ->
             format E op uh w = (Ret tt, emit w (pre ++ y ++ post ++ nl) e)).
  { intros y e Hv.
    apply (format_three E op uh pre ("{" ++ key ++ "}") post y e w Hpre Hpost Hf).
    replace (("{" ++ key ++ "}") ++ post) with ("{" ++ key ++ "}" ++ post)
      by (simpl; now rewrite str_app_assoc).
    rewrite (format_loop_token E op uh key post _ Hb Hc). unfold bind.
    rewrite (format_vars_single E op uh key ("}" ++ post) v variables
               (fun x H => H) variables_names_nodup Hin Hk).
    rewrite Hv. reflexivity. }
  assert (Hm : var_match (key ++ "}" ++ post) (strlen key) v = true)
    by (apply (var_match_key _ _ _ Hin); exact Hk).
  assert (Hbody : forall w1,
             format_vars E [v] (key ++ "}" ++ post) (strlen key) op uh w1 =
             match curl_url_get E uh (part v) (get_flags op) with
             | (CURLUE_OK, Some s) => (Ret tt, emit w1 s "")
             | (CURLUE_OK, None) => (Undef, w1)
             | (rc, _) =>
               (Ret tt,
                emit w1 ""
                     (if absent_code rc then ""
                      else PROGNAME ++ ": " ++ curl_url_strerror E rc ++
                           " (" ++ name v ++ ")" ++ nl))
             end).
  { intro w1. cbn [format_vars]. rewrite Hm. fold (get_flags op).
    destruct (curl_url_get E uh (part v) (get_flags op)) as [rc nurl].
    unfold bind, put_out, put_err, undefined, ret.
    destruct rc; cbn [absent_code]; try destruct nurl;
      rewrite ?emit_nil; try rewrite emit_out; try reflexivity;
      unfold emit; now rewrite str_app_nil_r. }
  destruct (curl_url_get E uh (part v) (get_flags op)) as [rc nurl] eqn:Hg.
  destruct rc; try destruct nurl; try exact I;
    apply Hstep; rewrite Hbody; reflexivity.
Qed.

Lemma format_token_witness :
  format Toy.engine
         (mkOption [] [] [] [] None (Some ("host=" ++ ("{" ++ "HOST" ++ "}") ++ ";"))
                   None false false 0%Z)
         (fst (Toy.set Toy.empty CURLUPART_HOST "example.com" 0%Z)) w0 =
  (Ret tt, emit w0 ("host=" ++ "example.com" ++ ";" ++ nl) "").
Proof.
  apply (format_token Toy.engine
           (mkOption [] [] [] [] None
                     (Some ("host=" ++ ("{" ++ "HOST" ++ "}") ++ ";"))
                     None false false 0%Z)
           (fst (Toy.set Toy.empty CURLUPART_HOST "example.com" 0%Z))
           "host=" "HOST" ";" (mkVar "host" CURLUPART_HOST) w0).
  - simpl. do 5 right. left. reflexivity.
  - reflexivity.
  - reflexivity.
  - reflexivity.
  - reflexivity.
Defined.

(** X4.  A token whose key names no component, the empty token [{}]
    included, prints nothing and is no error: the text around it is
    printed. *)
Theorem format_unknown_token (E : Engine) (op : struct_option)
        (uh : handle E) (pre key post : string) (w : world) :
  (forall v, In v variables -> lower key <> name v) ->
  strchr key "}" = None -> char_at 0 key <> "{"%char ->
  plain pre = true -> plain post = true ->
  o_format op = Some (pre ++ ("{" ++ key ++ "}") ++ post) ->
  format E op uh w = (Ret tt, emit w (pre ++ post ++ nl) "").
Proof.
  intros Hunk Hb Hc Hpre Hpost Hf.
  change (pre ++ post ++ nl) with (pre ++ "" ++ post ++ nl).
  apply (format_three E op uh pre ("{" ++ key ++ "}") post "" "" w Hpre Hpost Hf).
  replace (("{" ++ key ++ "}") ++ post) with ("{" ++ key ++ "}" ++ post)
    by (simpl; now rewrite str_app_assoc).
  rewrite (format_loop_token E op uh key post _ Hb Hc). unfold bind.
  rewrite format_vars_no_match; [now rewrite emit_nil|].
  intros v Hv.
  destruct (var_match (key ++ "}" ++ post) (strlen key) v) eqn:Hm;
    [|reflexivity].
  apply (var_match_key _ _ _ Hv) in Hm. exfalso. exact (Hunk v Hv Hm).
Qed.

Lemma format_unknown_token_witness :
  format Toy.engine
         (mkOption [] [] [] [] None (Some ("a" ++ ("{" ++ "hostname" ++ "}") ++ "b"))
                   None false false 0%Z) Toy.empty w0 =
  (Ret tt, emit w0 ("a" ++ "b" ++ nl) "").
Proof.
  apply (format_unknown_token Toy.engine
           (mkOption [] [] [] [] None
                     (Some ("a" ++ ("{" ++ "hostname" ++ "}") ++ "b"))
                     None false false 0%Z) Toy.empty "a" "hostname" "b" w0).
  - intros v Hv. simpl in Hv.
    repeat (destruct Hv as [<-|Hv]; [discriminate|]). destruct Hv.
  - reflexivity.
  - discriminate.
  - reflexivity.
  - reflexivity.
  - reflexivity.
Defined.

Lemma format_vars_returns (E : Engine) (op : struct_option) (uh : handle E)
      (ptr : string) (vlen : nat) :
  engine_sane E ->
  forall (vars : list var) (w : world),
    exists out err,
      format_vars E vars ptr vlen op uh w = (Ret tt, emit w out err).
Proof.
  intro Hs. induction vars as [|v vs IH]; intro w.
  - exists "", "". now rewrite emit_nil.
  - cbn [format_vars].
    assert (Hbody : exists out err,
               (if var_match ptr vlen v
                then
                  let '(rc, nurl) := curl_url_get E uh (part v)
                       (Z.lor CURLU_DEFAULT_PORT
                          (if o_urldecode op then CURLU_URLDECODE else 0%Z)) in
                  match rc with
                  | CURLUE_OK =>
                    match nurl with
                    | Some s => put_out s
                    | None => undefined
                    end
                  | CURLUE_NO_SCHEME | CURLUE_NO_USER | CURLUE_NO_PASSWORD
                  | CURLUE_NO_OPTIONS | CURLUE_NO_HOST | CURLUE_NO_PORT
                  | CURLUE_NO_QUERY | CURLUE_NO_FRAGMENT | CURLUE_NO_ZONEID =>
                    ret tt
                  | _ =>
                    put_err (PROGNAME ++ ": " ++ curl_url_strerror E rc ++
                             " (" ++ name v ++ ")" ++ nl)
                  end
                else ret tt) w = (Ret tt, emit w out err)).
    { destruct (var_match ptr vlen v);
        [|exists "", ""; now rewrite emit_nil].
      pose proof (Hs uh (part v)
                     (Z.lor CURLU_DEFAULT_PORT
                        (if o_urldecode op then CURLU_URLDECODE else 0%Z)))
        as Hsane.
      destruct (curl_url_get E uh (part v) _) as [rc nurl].
      cbn [fst snd] in Hsane.
      destruct rc;
        try (exists "", ""; now rewrite emit_nil);
        try (eexists "", _; unfold put_err, emit;
             now rewrite str_app_nil_r).
      destruct nurl as [s|]; [|exfalso; now apply Hsane].
      exists s, "". unfold put_out. now rewrite emit_out. }
    destruct Hbody as (o1 & e1 & Hb). unfold bind. rewrite Hb.
    destruct (IH (emit w o1 e1)) as (o2 & e2 & H2).
    exists (o1 ++ o2), (e1 ++ e2). now rewrite H2, emit_emit.
Qed.

Lemma format_loop_returns (E : Engine) (op : struct_option) (uh : handle E) :
  engine_sane E ->
  forall (fuel : nat) (ptr : string) (w : world),
    exists out err,
      format_loop E fuel ptr op uh w = (Ret tt, emit w out err).
Proof.
  intro Hs.
  assert (Hput : forall (s : string) (w : world) k,
             (forall w', exists out err, k w' = (Ret tt, emit w' out err)) ->
             exists out err, (put_out s ;; k) w = (Ret tt, emit w out err)).
  { intros s w k Hk. unfold bind, put_out. rewrite emit_out.
    destruct (Hk (emit w s "")) as (o2 & e2 & H2).
    exists (s ++ o2), e2. rewrite H2, emit_emit. reflexivity. }
  induction fuel as [|f IH]; intros ptr w.
  - exists "", "". now rewrite emit_nil.
  - destruct ptr as [|c rest]; [exists "", ""; now rewrite emit_nil|].
    cbn [format_loop].
    destruct (Ascii.eqb "{" c).
    + destruct (Ascii.eqb "{" (char_at 1 (String c rest))).
      * apply Hput. intro w'. apply IH.
      * destruct (strchr (String c rest) "}") as [e|]; [|apply IH].
        unfold bind.
        destruct (format_vars_returns E op uh rest (e - 1) Hs variables w)
          as (o1 & e1 & H1).
        rewrite H1.
        destruct (IH (advance (S e) (String c rest)) (emit w o1 e1))
          as (o2 & e2 & H2).
        exists (o1 ++ o2), (e1 ++ e2). now rewrite H2, emit_emit.
    + destruct (Ascii.eqb "\" c &&
                negb (Ascii.eqb (char_at 1 (String c rest)) zero)).
      * destruct (Ascii.eqb (char_at 1 (String c rest)) "r");
          [apply Hput; intro; apply IH|].
        destruct (Ascii.eqb (char_at 1 (String c rest)) "n");
          [apply Hput; intro; apply IH|].
        destruct (Ascii.eqb (char_at 1 (String c rest)) "t");
          [apply Hput; intro; apply IH|].
        unfold bind, fputc_out, put_out. rewrite !emit_out, emit_emit.
        destruct (IH (advance 2 (String c rest))
                     (emit w (String c "" ++ String (char_at 1 (String c rest)) "")
                           ("" ++ ""))) as (o2 & e2 & H2).
        eexists _, _. rewrite H2, emit_emit. reflexivity.
      * apply Hput. intro w'. apply IH.
Qed.

Lemma format_returns (E : Engine) (op : struct_option)
      (uh : handle E) (w : world) :
  engine_sane E ->
  exists out err, format E op uh w = (Ret tt, emit w (out ++ nl) err).
Proof.
  intro Hs. unfold format, bind.
  assert (H : exists out err,
             match o_format op with
             | Some fmt => format_loop E (strlen fmt) fmt op uh
             | None => ret tt
             end w = (Ret tt, emit w out err)).
  { destruct (o_format op) as [fmt|].
    - apply format_loop_returns. exact Hs.
    - exists "", "". now rewrite emit_nil. }
  destruct H as (out & err & H). rewrite H.
  exists out, err. unfold fputc_out, put_out. rewrite emit_out, emit_emit.
  now rewrite str_app_nil_r.
Qed.

(** X5.  When the engine hands back a string whenever it reports success,
    [format] returns for every template and every handle: it never ends the
    run, what it prints is added to stdout and ends with the newline, and
    the diagnostics are added to stderr. *)
Theorem format_always_returns (E : Engine) (op : struct_option)
        (uh : handle E) (w : world) :
  engine_sane E ->
  exists out err, format E op uh w = (Ret tt, emit w (out ++ nl) err).
Proof.
  intro Hs. unfold format, bind.
  destruct (o_format op) as [fmt|].
  - destruct (format_loop_returns E op uh Hs (strlen fmt) fmt w)
      as (out & err & H).
    rewrite H. exists out, err.
    unfold fputc_out, put_out. rewrite emit_out, emit_emit.
    now rewrite str_app_nil_r.
  - exists "", "". unfold ret, fputc_out, put_out.
    now rewrite emit_out.
Qed.

Lemma toy_engine_sane : engine_sane Toy.engine.
Proof.
  intros h p f. destruct p; simpl; unfold Toy.stored;
    try (match goal with |- context [match ?x with _ => _ end] =>
           destruct x end; simpl; intros; congruence).
  - destruct (Toy.host h); simpl; [|discriminate].
    destruct (Toy.scheme h); simpl; intros; congruence.
  - intros; congruence.
Qed.

Lemma format_always_returns_witness :
  exists out err,
    format Toy.engine
           (mkOption [] [] [] [] None (Some "{url} {{ \q {") None
                     false false 0%Z) Toy.empty w0 =
    (Ret tt, emit w0 (out ++ nl) err).
Proof.
  apply (format_always_returns Toy.engine _ Toy.empty w0).
  exact toy_engine_sane.
Defined.

(** X6.  With a format, [singleurl] does not depend on the engine building
    the whole URL: when the set and append phases return, and the engine
    hands back a string whenever it reports success, [singleurl] returns,
    so the run goes on with the next input. *)
Theorem singleurl_format_returns (E : Engine) (o : struct_option)
        (url : option string) (uh0 uh : handle E) (fmt : string)
        (w w1 : world) :
  engine_sane E ->
  curl_url E = Some uh0 ->
  singleurl_mutate E o url uh0 w = (Ret uh, w1) ->
  o_format o = Some fmt ->
  exists out err, singleurl E o url w = (Ret tt, emit w1 (out ++ nl) err).
Proof.
  intros Hs Hu Hm Hf. unfold singleurl. rewrite Hu. unfold bind.
  rewrite Hm, Hf. apply format_returns. exact Hs.
Qed.

Lemma singleurl_format_returns_witness :
  exists out err,
    singleurl Toy.engine
              (mkOption [] [] [] [] None (Some "{host}") None false false 0%Z)
              (Some "http://") w0 =
    (Ret tt, emit w0 (out ++ nl) err).
Proof.
  apply (singleurl_format_returns Toy.engine
           (mkOption [] [] [] [] None (Some "{host}") None false false 0%Z)
           (Some "http://") Toy.empty Toy.empty "{host}" w0 w0).
  - exact toy_engine_sane.
  - reflexivity.
  - reflexivity.
  - reflexivity.
Defined.

(** ** [set]: which set lists pass *)

Lemma get_take (s : string) :
  forall n m, n < m -> String.get n (take m s) = String.get n s.
Proof.
  induction s as [|a r IH]; intros n m H.
  - destruct m; [lia|]. destruct n; reflexivity.
  - destruct m as [|m]; [lia|]. destruct n as [|n]; [reflexivity|].
    cbn [take String.get]. apply IH. lia.
Qed.

(** An argument of [--set] is a set operation, or it is refused for its
    syntax. *)
Lemma setarg_parse (E : Engine) (s : string) (next : list string)
      (uh : handle E) (varset : list bool) (w : world) :
  (exists op, s = setop_arg op /\ strchr (so_key op) "=" = None /\
              (so_encode op = true ->
               so_key op <> "" /\ ends_with ":" (so_key op) = false)) \/
  set_nodes E (s :: next) uh varset w =
  (Exit ERROR_SET, failed w ("invalid --set syntax: " ++ s)).
Proof.
  destruct (strchr s "=") as [[|k]|] eqn:Hs.
  - right. cbn [set_nodes]. rewrite Hs. apply errorf_run.
  - left. destruct (strchr_take _ _ _ Hs) as (H1 & H2 & H3).
    destruct (String.get k s) as [c|] eqn:Hg.
    + destruct (Ascii.eqb c ":") eqn:Hc.
      * apply Ascii.eqb_eq in Hc. subst c.
        rewrite (take_snoc _ _ _ Hg) in H1, H2.
        exists (mkSetOp (take k s) false (advance (S (S k)) s)).
        unfold setop_arg. cbn [so_key so_encode so_value].
        split; [|split].
        -- rewrite H1 at 1. now rewrite str_app_assoc.
        -- exact (proj1 (strchr_app_split _ _ _ H2)).
        -- discriminate.
      * exists (mkSetOp (take (S k) s) true (advance (S (S k)) s)).
        unfold setop_arg. cbn [so_key so_encode so_value].
        split; [exact H1|]. split; [exact H2|]. intros _.
        assert (Hne : take (S k) s <> "").
        { intro He. rewrite He in H3. discriminate H3. }
        split; [exact Hne|].
        rewrite <- (char_before_last _ ":" Hne), H3. cbn [char_before].
        rewrite get_take by lia. now rewrite Hg.
    + exists (mkSetOp (take (S k) s) true (advance (S (S k)) s)).
      unfold setop_arg. cbn [so_key so_encode so_value].
      split; [exact H1|]. split; [exact H2|]. intros _.
      assert (Hne : take (S k) s <> "").
      { intro He. rewrite He in H3. discriminate H3. }
      split; [exact Hne|].
      rewrite <- (char_before_last _ ":" Hne), H3. cbn [char_before].
      rewrite get_take by lia. now rewrite Hg.
  - right. cbn [set_nodes]. rewrite Hs. apply errorf_run.
Qed.

(** The set loop either passes the whole list, which is then a list of set
    operations on different components not set before, or ends the run at
    one of its entries with one of three messages. *)
Lemma set_nodes_cases (E : Engine) (l : list string) :
  forall (uh : handle E) (varset : list bool) (w : world),
    List.length varset = NUM_COMPONENTS ->
    (exists ops uh',
        l = map setop_arg ops /\
        Forall (fun op => target op <> None) ops /\
        NoDup (map target_index ops) /\
        (forall op i, In op ops -> target_index op = Some i ->
                      nth i varset false = false) /\
        set_nodes E l uh varset w = (Ret uh', w)) \/
    (exists s msg,
        In s l /\
        (msg = "invalid --set syntax: " ++ s \/
         msg = "Set unknown component: " ++ s \/
         exists v, In v variables /\ msg = dup_msg v) /\
        set_nodes E l uh varset w = (Exit ERROR_SET, failed w msg)).
Proof.
  induction l as [|s next IH]; intros uh varset w Hlen.
  - left. exists [], uh. repeat split; try constructor. intros ? ? [].
  - destruct (setarg_parse E s next uh varset w)
      as [(op & -> & Hk & Henc) | Hbad].
    2:{ right. exists s, ("invalid --set syntax: " ++ s).
        split; [now left|]. split; [now left | exact Hbad]. }
    rewrite (set_nodes_step E op next uh varset w Hk Henc).
    destruct (target op) as [[i v]|] eqn:Ht.
    2:{ right. exists (setop_arg op), ("Set unknown component: " ++ setop_arg op).
        split; [now left|]. split; [right; now left | reflexivity]. }
    assert (Hti : target_index op = Some i)
      by (unfold target_index; now rewrite Ht).
    pose proof (target_index_bound _ _ Hti) as Hi.
    destruct (nth i varset false) eqn:Hnth.
    { right. exists (setop_arg op), (dup_msg v).
      split; [now left|]. split; [|reflexivity].
      right; right. exists v. split; [|reflexivity].
      exact (proj1 (proj2 (target_in _ _ _ Ht))). }
    destruct (IH (apply_setop E uh op) (varset_mark i varset) w)
      as [(ops & uh' & Hl & Hall & Hnd & Hfresh & Hrun)
         | (s' & msg & Hin & Hmsg & Hrun)].
    + now rewrite varset_mark_length.
    + left. exists (op :: ops), uh'. split; [cbn [map]; now rewrite Hl|].
      split; [constructor; [congruence | exact Hall]|].
      split; [|split; [|exact Hrun]].
      * cbn [map]. constructor; [|exact Hnd].
        rewrite Hti. intro Hin. apply in_map_iff in Hin.
        destruct Hin as (op' & Hop' & Hin').
        pose proof (Hfresh op' i Hin' Hop') as Hf.
        rewrite varset_mark_same in Hf by lia. discriminate Hf.
      * intros op' j [<-|Hin'] Hj.
        -- congruence.
        -- pose proof (Hfresh op' j Hin' Hj) as Hf.
           destruct (Nat.eq_dec i j) as [->|Hij].
           ++ rewrite varset_mark_same in Hf by lia. discriminate Hf.
           ++ now rewrite (varset_mark_other _ _ _ Hij) in Hf.
    + right. exists s', msg. split; [now right|]. split; assumption.
Qed.

(** X7.  [set] returns exactly for the set lists made of set operations
    ([key=value] or [key:=value]) whose keys name components, no two the
    same one; it then leaves both streams as they were. *)
Theorem set_returns_iff (E : Engine) (uh : handle E) (o : struct_option)
        (w : world) :
  (exists uh' w', set E uh o w = (Ret uh', w')) <->
  (exists ops,
      o_set_list o = map setop_arg ops /\
      Forall (fun op => target op <> None) ops /\
      NoDup (map target_index ops)).
Proof.
  split.
  - intros (uh' & w' & Hrun). unfold set in Hrun.
    destruct (set_nodes_cases E (o_set_list o) uh
                (repeat false NUM_COMPONENTS) w (repeat_length _ _))
      as [(ops & uh1 & Hl & Hall & Hnd & _ & _) | (s & msg & _ & _ & Hex)].
    + exists ops. auto.
    + rewrite Hex in Hrun. discriminate Hrun.
  - intros (ops & Hl & Hall & Hnd). unfold set.
    rewrite Hl, <- (List.app_nil_r (map setop_arg ops)).
    destruct (set_nodes_ops E ops uh (repeat false NUM_COMPONENTS) w [])
      as (vs' & _ & _ & Heq);
      [apply repeat_length | exact Hall | exact Hnd
       | intros; apply repeat_false_nth |].
    rewrite Heq. eexists _, _. reflexivity.
Qed.

(** X8.  When [set] does not return it ends the run with [ERROR_SET],
    having written nothing to stdout and one message to stderr: the syntax
    of an entry, its unknown component, or a component set twice.  It has
    no other outcome. *)
Theorem set_fails_with_error_set (E : Engine) (uh : handle E)
        (o : struct_option) (w : world) :
  (exists uh', set E uh o w = (Ret uh', w)) \/
  (exists s msg,
      In s (o_set_list o) /\
      (msg = "invalid --set syntax: " ++ s \/
       msg = "Set unknown component: " ++ s \/
       exists v, In v variables /\ msg = dup_msg v) /\
      set E uh o w = (Exit ERROR_SET, failed w msg)).
Proof.
  unfold set.
  destruct (set_nodes_cases E (o_set_list o) uh
              (repeat false NUM_COMPONENTS) w (repeat_length _ _))
    as [(ops & uh1 & _ & _ & _ & _ & Hrun) | Hfail].
  - left. exists uh1. exact Hrun.
  - right. exact Hfail.
Qed.

(** X9.  An entry of the set list without ['='], or with nothing before
    it, ends the run with the syntax message whatever comes after it, when
    the entries before it are set operations on different components. *)
Theorem set_invalid_syntax (E : Engine) (uh : handle E) (o : struct_option)
        (w : world) (ops : list SetOp) (s : string) (rest : list string) :
  o_set_list o = (map setop_arg ops ++ s :: rest)%list ->
  Forall (fun op => target op <> None) ops ->
  NoDup (map target_index ops) ->
  strchr s "=" = None \/ strchr s "=" = Some 0 ->
  set E uh o w = (Exit ERROR_SET, failed w ("invalid --set syntax: " ++ s)).
Proof.
  intros Hl Hall Hnd Hs. unfold set. rewrite Hl.
  destruct (set_nodes_ops E ops uh (repeat false NUM_COMPONENTS) w (s :: rest))
    as (vs' & _ & _ & Heq);
    [apply repeat_length | exact Hall | exact Hnd
     | intros; apply repeat_false_nth |].
  rewrite Heq. cbn [set_nodes].
  destruct Hs as [-> | ->]; apply errorf_run.
Qed.

Lemma set_invalid_syntax_witness :
  set Toy.engine Toy.empty
      (mkOption [] [] [] ["host=example.com"; "=x"; "host=again"]
                None None None false false 0%Z) w0 =
  (Exit ERROR_SET, failed w0 ("invalid --set syntax: " ++ "=x")).
Proof.
  apply (set_invalid_syntax Toy.engine Toy.empty _ w0
           [mkSetOp "host" true "example.com"] "=x" ["host=again"]).
  - reflexivity.
  - repeat constructor. discriminate.
  - repeat constructor. simpl. tauto.
  - right. reflexivity.
Defined.

(** ** The append loops, segment after segment *)

Lemma path_join_nonempty (p a : string) : p <> "" -> path_join p a <> "".
Proof.
  intros Hp H. unfold path_join in H.
  destruct p; [congruence|]. destruct (ends_with "/" (String a0 p)); discriminate H.
Qed.

Lemma toy_reads_back_path : reads_back Toy.engine CURLUPART_PATH.
Proof.
  intros h v Hv. exists CURLUE_OK. destruct v; [congruence | reflexivity].
Qed.

Lemma toy_reads_back_query : reads_back Toy.engine CURLUPART_QUERY.
Proof. intros h v Hv. exists CURLUE_OK. reflexivity. Qed.

(** X11.  When the engine reads back the query it was handed, the query
    after a run of segments is the text printed for the query that was
    there, then every segment in order, each after one ['&']. *)
Theorem append_queries_composes (E : Engine) (l : list string) :
  reads_back E CURLUPART_QUERY ->
  forall (aq : string) (uh : handle E),
    exists rc,
      curl_url_get E (append_queries E (aq :: l) uh) CURLUPART_QUERY 0%Z =
      (rc, Some (query_join
                   (maprintf_s E (snd (curl_url_get E uh CURLUPART_QUERY 0%Z)))
                   (aq :: l))).
Proof.
  intro Hrb. induction l as [|b next IH]; intros aq uh.
  - cbn [append_queries query_join fold_left].
    destruct (curl_url_get E uh CURLUPART_QUERY 0%Z) as [rc oq]. cbn [snd].
    apply Hrb. destruct (maprintf_s E oq); discriminate.
  - change (append_queries E (aq :: b :: next) uh)
      with (let '(_, oq) := curl_url_get E uh CURLUPART_QUERY 0%Z in
            append_queries E (b :: next)
              (fst (curl_url_set E uh CURLUPART_QUERY
                      (maprintf_s E oq ++ "&" ++ aq) 0%Z))).
    destruct (curl_url_get E uh CURLUPART_QUERY 0%Z) as [rc oq]. cbn [snd].
    destruct (IH b (fst (curl_url_set E uh CURLUPART_QUERY
                           (maprintf_s E oq ++ "&" ++ aq) 0%Z))) as [rc1 H1].
    destruct (Hrb uh (maprintf_s E oq ++ "&" ++ aq)) as [rc2 H2].
    { destruct (maprintf_s E oq); discriminate. }
    rewrite H2 in H1. cbn [snd maprintf_s] in H1.
    exists rc1. exact H1.
Qed.

Lemma append_queries_composes_witness :
  exists rc,
    curl_url_get Toy.engine
      (append_queries Toy.engine ["k2=v2"; "k3"]
         (fst (Toy.set Toy.empty CURLUPART_QUERY "k=v" 0%Z)))
      CURLUPART_QUERY 0%Z =
    (rc, Some (query_join "k=v" ["k2=v2"; "k3"])).
Proof.
  apply (append_queries_composes Toy.engine ["k3"] toy_reads_back_query
           "k2=v2" (fst (Toy.set Toy.empty CURLUPART_QUERY "k=v" 0%Z))).
Defined.

(** ** The batch, input after input *)

(** ** Lines of a file: endings, long lines, NUL *)

Lemma nonul_c_str (s : string) : nonul s = true -> c_str s = s.
Proof.
  induction s as [|a r IH]; [reflexivity|]. simpl.
  intro H. apply andb_true_iff in H. destruct H as [Ha Hr].
  apply negb_true_iff in Ha. now rewrite Ha, (IH Hr).
Qed.

Lemma nonul_app (s t : string) : nonul (s ++ t) = nonul s && nonul t.
Proof.
  induction s as [|a r IH]; [reflexivity|]. simpl.
  now rewrite IH, andb_assoc.
Qed.

(** X13.  A line is a URL with either line ending: for a URL without NUL
    and newline, the buffer with the URL and CR LF gives the URL, and so
    does the buffer with the URL and LF when the URL is not empty and does
    not itself end with a carriage return.  One carriage return at most is
    taken off, and a line that is CR LF alone gives the empty URL. *)
Theorem buffer_url_line_endings (u : string) :
  nonul u = true ->
  strchr u LF = None ->
  buffer_url (u ++ String CR nl) = Some u /\
  (u <> "" -> ends_with CR u = false -> buffer_url (u ++ nl) = Some u).
Proof.
  intros Hn Hl. split.
  - unfold buffer_url.
    rewrite nonul_c_str by (rewrite nonul_app, Hn; reflexivity).
    rewrite (strchr_app_none _ _ _ Hl).
    change (strchr (String CR nl) LF) with (Some 1). cbn [option_map].
    replace (String.length u + 1) with (S (String.length u)) by lia.
    change (Nat.ltb 0 (S (String.length u))) with true. cbv iota.
    cbn [char_before]. rewrite get_app_length. cbn [String.get].
    change (Ascii.eqb CR CR) with true. cbv iota.
    replace (S (String.length u) - 1) with (String.length u) by lia.
    now rewrite take_app.
  - intros Hne Hcr. unfold buffer_url.
    rewrite nonul_c_str by (rewrite nonul_app, Hn; reflexivity).
    rewrite (strchr_app_none _ _ _ Hl).
    change (strchr nl LF) with (Some 0). cbn [option_map].
    rewrite Nat.add_0_r.
    assert (Hpos : Nat.ltb 0 (String.length u) = true).
    { destruct u; [congruence | reflexivity]. }
    rewrite Hpos, (char_before_app u _ Hne).
    pose proof (char_before_last u CR Hne) as Hlast. rewrite Hcr in Hlast.
    destruct (char_before u (String.length u)) as [c|].
    + rewrite Hlast. now rewrite take_app.
    + now rewrite take_app.
Qed.

Lemma buffer_url_line_endings_witness :
  buffer_url ("http://a.example/" ++ String CR nl) = Some "http://a.example/" /\
  ("http://a.example/" <> "" -> ends_with CR "http://a.example/" = false ->
   buffer_url ("http://a.example/" ++ nl) = Some "http://a.example/").
Proof.
  apply (buffer_url_line_endings "http://a.example/").
  - reflexivity.
  - reflexivity.
Defined.

Lemma strchr_c_str_nul (a rest : string) (c : ascii) :
  strchr a c = None -> strchr (c_str (a ++ String zero rest)) c = None.
Proof.
  induction a as [|x r IH]; [reflexivity|]. simpl.
  destruct (Ascii.eqb x c) eqn:Hx; [discriminate|].
  destruct (strchr r c) eqn:Hr; [discriminate|]. intros _.
  destruct (Ascii.eqb x zero); [reflexivity|].
  simpl. now rewrite Hx, (IH eq_refl).
Qed.

(** X14.  A buffer with a NUL before its first newline is skipped: the
    newline is not found in the C string that ends at the NUL. *)
Theorem buffer_url_nul (a rest : string) :
  strchr a LF = None ->
  buffer_url (a ++ String zero rest) = None.
Proof.
  intro Ha. unfold buffer_url. now rewrite (strchr_c_str_nul _ _ _ Ha).
Qed.

Lemma buffer_url_nul_witness :
  buffer_url ("http://a.exa" ++ String zero ("mple/" ++ nl)) = None.
Proof.
  apply (buffer_url_nul "http://a.exa" ("mple/" ++ nl)). reflexivity.
Defined.

Lemma fgets_read_full (a rest : string) :
  strchr a LF = None ->
  fgets_read (String.length a) (a ++ rest) = (a, rest).
Proof.
  induction a as [|c r IH]; intro H.
  - destruct rest; reflexivity.
  - cbn [strchr] in H. destruct (Ascii.eqb c LF) eqn:Hc; [discriminate|].
    destruct (strchr r LF) eqn:Hr; [discriminate|].
    change (String.length (String c r)) with (S (String.length r)).
    change (String c r ++ rest) with (String c (r ++ rest)).
    cbn [fgets_read]. rewrite Hc, (IH eq_refl). reflexivity.
Qed.

(** X15.  A line longer than the buffer is cut: the first [BUFSIZE - 1]
    characters, when no newline is among them, fill a buffer that is
    skipped, and the file loop goes on with what follows them as if the
    file began there. *)
Theorem file_long_line_cut (E : Engine) (o : struct_option)
        (a rest : string) (w : world) :
  String.length a = BUFSIZE - 1 ->
  strchr a LF = None ->
  file_urls (strlen (a ++ rest)) (a ++ rest) = file_urls (strlen rest) rest /\
  main_file E (strlen (a ++ rest)) (a ++ rest) o w =
  main_file E (strlen rest) rest o w.
Proof.
  intros Hlen Hl.
  assert (Hurls : file_urls (strlen (a ++ rest)) (a ++ rest) =
                  file_urls (strlen rest) rest).
  { unfold strlen. rewrite str_app_length.
    assert (Hpos : exists n, String.length a = S n).
    { rewrite Hlen. exists 4094. reflexivity. }
    destruct Hpos as [n Hn]. rewrite Hn.
    change (S n + String.length rest) with (S (n + String.length rest)).
    cbn [file_urls].
    assert (Hg : fgets BUFSIZE (a ++ rest) = Some (a, rest)).
    { unfold fgets. destruct a as [|c a']; [discriminate Hn|].
      change (String c a' ++ rest) with (String c (a' ++ rest)).
      cbv iota. rewrite <- Hlen.
      change (String c (a' ++ rest)) with (String c a' ++ rest).
      now rewrite (fgets_read_full _ rest Hl). }
    rewrite Hg, (buffer_url_no_newline _ Hl).
    apply file_urls_fuel; lia. }
  split; [exact Hurls|].
  now rewrite !main_file_each, Hurls.
Qed.

Lemma file_long_line_cut_witness :
  file_urls (strlen (str_repeat 4095 "a" ++ ("http://a.example/" ++ nl)))
            (str_repeat 4095 "a" ++ ("http://a.example/" ++ nl)) =
  file_urls (strlen ("http://a.example/" ++ nl)) ("http://a.example/" ++ nl).
Proof.
  apply (file_long_line_cut Toy.engine o_zero (str_repeat 4095 "a")
                            ("http://a.example/" ++ nl) w0).
  - vm_compute. reflexivity.
  - vm_compute. reflexivity.
Defined.

(** ** The command line *)

Lemma set_url_list_id (o : struct_option) :
  set_url_list o (o_url_list o ++ [])%list = o.
Proof. destruct o. unfold set_url_list. cbn. now rewrite List.app_nil_r. Qed.

Lemma urladd_then (V : Env) (o : struct_option) (a : string)
      (l : list string) :
  set_url_list (urladd o a) (o_url_list (urladd o a) ++ l)%list =
  set_url_list o (o_url_list o ++ a :: l)%list.
Proof.
  destruct o. unfold urladd, set_url_list. cbn.
  now rewrite <- List.app_assoc.
Qed.

(** Leading arguments that are URLs are added in order; the options are
    read from what follows them. *)
Lemma main_args_positional (E : Engine) (V : Env) (pre rest : list string) :
  Forall positional pre ->
  forall (o : struct_option) (w : world),
    main_args E V (pre ++ rest)%list o w =
    main_args E V rest (set_url_list o (o_url_list o ++ pre)%list) w.
Proof.
  induction pre as [|a pre IH]; intros H o w.
  - cbn [List.app]. now rewrite set_url_list_id.
  - inversion H as [|? ? Ha Hpre]; subst.
    cbn [List.app main_args].
    apply Ascii.eqb_neq in Ha. rewrite Ha. cbn [andb].
    rewrite (IH Hpre). now rewrite (urladd_then V).
Qed.

(** X16.  Arguments that do not start with ['-'], the empty argument
    included, are URLs: they are added to the list of URLs in the order of
    the command line, no other option changes and nothing is written. *)
Theorem main_args_urls (E : Engine) (V : Env) (args : list string)
        (o : struct_option) (w : world) :
  Forall positional args ->
  main_args E V args o w =
  (Ret (set_url_list o (o_url_list o ++ args)%list), w).
Proof.
  intro H. rewrite <- (List.app_nil_r args) at 1.
  now rewrite (main_args_positional E V args [] H).
Qed.

Lemma main_args_urls_witness :
  main_args Toy.engine toy_env ["http://a.example/"; ""; "b.example"]
            o_zero w0 =
  (Ret (set_url_list o_zero
          (o_url_list o_zero ++ ["http://a.example/"; ""; "b.example"])%list),
   w0).
Proof.
  apply (main_args_urls Toy.engine toy_env).
  repeat constructor; discriminate.
Defined.

Lemma checkoptarg_other (str given : string) (arg : option string)
      (w : world) :
  str <> given -> checkoptarg str given arg w = (Ret false, w).
Proof.
  intro H. unfold checkoptarg. apply String.eqb_neq in H. now rewrite H.
Qed.

(** X17.  An argument that starts with ['-'] and is none of the options of
    the program, a lone [-] or [--] included, ends the run with
    [ERROR_FLAG] and names the argument, when only URLs come before it. *)
Theorem main_args_unknown_option (E : Engine) (V : Env)
        (pre rest : list string) (a : string) (o : struct_option)
        (w : world) :
  Forall positional pre ->
  char_at 0 a = "-"%char ->
  ~ In a known_flags ->
  main_args E V (pre ++ a :: rest)%list o w =
  (Exit ERROR_FLAG, failed w ("unknown option: " ++ a)).
Proof.
  intros Hpre Ha Hk. rewrite (main_args_positional E V pre _ Hpre).
  assert (Hne : forall f, In f known_flags -> f <> a).
  { intros f Hf ->. exact (Hk Hf). }
  cbn [main_args]. rewrite Ha.
  change (Ascii.eqb "-" "-") with true. cbn [andb].
  destruct (Ascii.eqb (char_at 1 a) "-").
  - cbn [negb]. cbv iota. unfold bind at 1. unfold getlongarg.
    rewrite (proj2 (String.eqb_neq "--help" a))
      by (apply Hne; simpl; tauto).
    rewrite (proj2 (String.eqb_neq "--version" a))
      by (apply Hne; simpl; tauto).
    unfold bind at 1. rewrite checkoptarg_other by (apply Hne; simpl; tauto).
    unfold bind at 1. rewrite checkoptarg_other by (apply Hne; simpl; tauto).
    unfold bind at 1. rewrite checkoptarg_other by (apply Hne; simpl; tauto).
    unfold bind at 1. rewrite checkoptarg_other by (apply Hne; simpl; tauto).
    unfold bind at 1. rewrite checkoptarg_other by (apply Hne; simpl; tauto).
    unfold bind at 1. rewrite checkoptarg_other by (apply Hne; simpl; tauto).
    rewrite (proj2 (String.eqb_neq "--urldecode" a))
      by (apply Hne; simpl; tauto).
    unfold ret at 1. cbn [Z.eqb negb]. unfold bind at 1.
    now rewrite errorf_run.
  - cbn [negb]. cbv iota. unfold bind at 1. unfold getshortarg.
    rewrite (proj2 (String.eqb_neq "-v" a)) by (apply Hne; simpl; tauto).
    rewrite (proj2 (String.eqb_neq "-h" a)) by (apply Hne; simpl; tauto).
    unfold ret at 1. cbn [Z.eqb negb]. unfold bind at 1.
    now rewrite errorf_run.
Qed.

Lemma main_args_unknown_option_witness :
  main_args Toy.engine toy_env (["http://a.example/"] ++ "-" :: ["--help"])
            o_zero w0 =
  (Exit ERROR_FLAG, failed w0 ("unknown option: " ++ "-")).
Proof.
  apply (main_args_unknown_option Toy.engine toy_env
           ["http://a.example/"] ["--help"] "-" o_zero w0).
  - repeat constructor; discriminate.
  - reflexivity.
  - simpl. intuition discriminate.
Defined.

Lemma getlongarg_missing (E : Engine) (V : Env) (o : struct_option)
      (a : string) (w : world) :
  In a arg_flags ->
  getlongarg E V o a None w =
  (Exit ERROR_ARG, failed w ("Missing argument for " ++ a)).
Proof.
  intro H. unfold arg_flags in H. cbn [In] in H.
  assert (Hmiss : forall s, checkoptarg s s None w =
                            (Exit ERROR_ARG, failed w ("Missing argument for " ++ s))).
  { intro s. unfold checkoptarg. rewrite String.eqb_refl. apply errorf_run. }
  destruct H as [<-|[<-|[<-|[<-|[<-|[<-|[]]]]]]];
    unfold getlongarg;
    change (String.eqb "--help" ?x) with false;
    change (String.eqb "--version" ?x) with false; cbv iota;
    repeat (first
      [ progress (unfold bind at 1; rewrite Hmiss); reflexivity
      | unfold bind at 1; rewrite checkoptarg_other by discriminate;
        cbv iota ]).
Qed.

(** X18.  An option that takes an argument, as the last argument of the
    command line, ends the run with [ERROR_ARG] and names the option, when
    only URLs come before it. *)
Theorem main_args_missing_argument (E : Engine) (V : Env)
        (pre : list string) (a : string) (o : struct_option) (w : world) :
  Forall positional pre ->
  In a arg_flags ->
  main_args E V (pre ++ [a])%list o w =
  (Exit ERROR_ARG, failed w ("Missing argument for " ++ a)).
Proof.
  intros Hpre Ha. rewrite (main_args_positional E V pre _ Hpre).
  assert (Hdash : char_at 0 a = "-"%char /\ char_at 1 a = "-"%char).
  { unfold arg_flags in Ha. cbn [In] in Ha.
    destruct Ha as [<-|[<-|[<-|[<-|[<-|[<-|[]]]]]]]; split; reflexivity. }
  destruct Hdash as [H0 H1].
  cbn [main_args]. rewrite H0, H1.
  change (Ascii.eqb "-" "-") with true. cbn [andb negb]. cbv iota.
  unfold bind at 1. cbn [hd_error]. now rewrite getlongarg_missing.
Qed.

Lemma main_args_missing_argument_witness :
  main_args Toy.engine toy_env (["http://a.example/"] ++ ["--set"])
            o_zero w0 =
  (Exit ERROR_ARG, failed w0 ("Missing argument for " ++ "--set")).
Proof.
  apply (main_args_missing_argument Toy.engine toy_env
           ["http://a.example/"] "--set" o_zero w0).
  - repeat constructor; discriminate.
  - simpl. tauto.
Defined.

Lemma main_args_redirect (E : Engine) (V : Env) (r : string)
      (rest : list string) (o : struct_option) (w : world) :
  main_args E V ("--redirect" :: r :: rest) o w =
  match o_redirect o with
  | Some _ => (Exit ERROR_FLAG, failed w "only one --redirect is supported")
  | None => main_args E V rest (with_redirect o (Some r)) w
  end.
Proof.
  cbn [main_args]. change (char_at 0 "--redirect") with "-"%char.
  change (char_at 1 "--redirect") with "-"%char.
  change (Ascii.eqb "-" "-") with true. cbn [andb negb hd_error]. cbv iota.
  unfold bind at 1. unfold getlongarg.
  change (String.eqb "--help" "--redirect") with false.
  change (String.eqb "--version" "--redirect") with false. cbv iota.
  do 4 (unfold bind at 1; rewrite checkoptarg_other by discriminate; cbv iota).
  unfold bind at 1. unfold checkoptarg at 1. rewrite String.eqb_refl.
  unfold ret at 1. cbv iota.
  destruct (o_redirect o).
  - now rewrite errorf_run.
  - reflexivity.
Qed.

Lemma main_args_get (E : Engine) (V : Env) (f : string)
      (rest : list string) (o : struct_option) (w : world) :
  main_args E V ("--get" :: f :: rest) o w =
  match o_format o with
  | Some _ => (Exit ERROR_FLAG, failed w "only one --get is supported")
  | None => main_args E V rest (set_format o (Some f)) w
  end.
Proof.
  cbn [main_args]. change (char_at 0 "--get") with "-"%char.
  change (char_at 1 "--get") with "-"%char.
  change (Ascii.eqb "-" "-") with true. cbn [andb negb hd_error]. cbv iota.
  unfold bind at 1. unfold getlongarg.
  change (String.eqb "--help" "--get") with false.
  change (String.eqb "--version" "--get") with false. cbv iota.
  do 5 (unfold bind at 1; rewrite checkoptarg_other by discriminate; cbv iota).
  unfold bind at 1. unfold checkoptarg at 1. rewrite String.eqb_refl.
  unfold ret at 1. cbv iota.
  destruct (o_format o).
  - now rewrite errorf_run.
  - reflexivity.
Qed.

(** X19.  A second [--redirect], and a second [--get], ends the run with
    [ERROR_FLAG], whatever the two values are and whatever the options held
    before, when only URLs stand between the two. *)
Theorem main_args_only_one (E : Engine) (V : Env) (x1 x2 : string)
        (mid rest : list string) (o : struct_option) (w : world) :
  Forall positional mid ->
  main_args E V ("--redirect" :: x1 :: mid ++ "--redirect" :: x2 :: rest)%list
            o w =
  (Exit ERROR_FLAG, failed w "only one --redirect is supported") /\
  main_args E V ("--get" :: x1 :: mid ++ "--get" :: x2 :: rest)%list o w =
  (Exit ERROR_FLAG, failed w "only one --get is supported").
Proof.
  intro Hmid. split.
  - rewrite main_args_redirect. destruct (o_redirect o); [reflexivity|].
    rewrite (main_args_positional E V mid _ Hmid), main_args_redirect.
    reflexivity.
  - rewrite main_args_get. destruct (o_format o); [reflexivity|].
    rewrite (main_args_positional E V mid _ Hmid), main_args_get.
    reflexivity.
Qed.

Lemma main_args_only_one_witness :
  main_args Toy.engine toy_env
            ("--redirect" :: "/a" :: ["http://a.example/"] ++
             "--redirect" :: "/b" :: [])%list o_zero w0 =
  (Exit ERROR_FLAG, failed w0 "only one --redirect is supported").
Proof.
  apply (main_args_only_one Toy.engine toy_env "/a" "/b"
           ["http://a.example/"] [] o_zero w0).
  repeat constructor; discriminate.
Defined.





(** X22.  With no argument at all the program runs once without a base
    URL; when the engine builds no URL from a fresh handle, the run ends
    with [ERROR_URL] and "not enough input for a URL". *)
Theorem main_argv_empty (E : Engine) (V : Env) (uh0 : handle E) (w : world) :
  curl_url E = Some uh0 ->
  fst (curl_url_get E uh0 CURLUPART_URL 0%Z) <> CURLUE_OK ->
  main_argv E V [] w =
  (Exit ERROR_URL, failed w "not enough input for a URL").
Proof.
  intros Hu Hg. unfold main_argv, bind. cbn [main_args]. unfold ret at 1.
  unfold main, bind. cbn [o_zero o_url o_url_list main_list].
  unfold singleurl. rewrite Hu. unfold bind.
  change (singleurl_mutate E o_zero None uh0 w) with (Ret uh0, w).
  cbn [o_zero o_format]. unfold singleurl_output.
  change (if o_urldecode o_zero then CURLU_URLDECODE else 0%Z) with 0%Z.
  destruct (curl_url_get E uh0 CURLUPART_URL 0%Z) as [rc nurl].
  cbn [fst] in Hg.
  destruct rc; try congruence; now rewrite errorf_run.
Qed.

Lemma main_argv_empty_witness :
  main_argv Toy.engine toy_env [] w0 =
  (Exit ERROR_URL, failed w0 "not enough input for a URL").
Proof.
  apply (main_argv_empty Toy.engine toy_env Toy.empty w0).
  - reflexivity.
  - discriminate.
Defined.

(** ** With a file, the URLs of the command line are not used *)

Lemma singleurl_url_list (E : Engine) (o : struct_option) (l : list string)
      (u : option string) (w : world) :
  singleurl E (set_url_list o l) u w = singleurl E o u w.
Proof.
  unfold singleurl. destruct (curl_url E) as [uh0|]; [|reflexivity].
  unfold bind.
  change (singleurl_mutate E (set_url_list o l) u uh0 w)
    with (singleurl_mutate E o u uh0 w).
  destruct (singleurl_mutate E o u uh0 w) as [[uh'| |] w']; try reflexivity.
  change (o_format (set_url_list o l)) with (o_format o).
  destruct (o_format o) as [fmt|] eqn:Hf; [|reflexivity].
  unfold format, bind.
  change (o_format (set_url_list o l)) with (o_format o). rewrite Hf.
  rewrite (format_loop_urldecode E (set_url_list o l) o uh' _ eq_refl).
  reflexivity.
Qed.

Lemma main_file_url_list (E : Engine) (o : struct_option) (l : list string)
      (fuel : nat) :
  forall (stream : string) (w : world),
    main_file E fuel stream (set_url_list o l) w = main_file E fuel stream o w.
Proof.
  induction fuel as [|f IH]; intros stream w; [reflexivity|].
  cbn [main_file].
  destruct (fgets BUFSIZE stream) as [[buffer rest]|]; [|reflexivity].
  destruct (buffer_url buffer) as [u|]; [|apply IH].
  unfold bind. rewrite singleurl_url_list.
  destruct (singleurl E o (Some u) w) as [[[]| |] w']; try reflexivity.
  apply IH.
Qed.

(** X23.  When a file of URLs is given, the URLs of the command line play
    no part: the run is the same whatever the list of URLs holds. *)
Theorem url_file_ignores_urls (E : Engine) (o : struct_option)
        (stream : string) (l : list string) (w : world) :
  o_url o = Some stream ->
  main E (set_url_list o l) w = main E o w.
Proof.
  intro Hf. unfold main, bind.
  change (o_url (set_url_list o l)) with (o_url o). rewrite Hf.
  now rewrite main_file_url_list.
Qed.

Lemma url_file_ignores_urls_witness :
  main Toy.engine
       (set_url_list
          (mkOption [] [] [] [] None None (Some ("http://a.example/" ++ nl))
                    false false 0%Z)
          ["http://ignored.example/"]) w0 =
  main Toy.engine
       (mkOption [] [] [] [] None None (Some ("http://a.example/" ++ nl))
                 false false 0%Z) w0.
Proof.
  apply (url_file_ignores_urls Toy.engine _ ("http://a.example/" ++ nl)).
  reflexivity.
Defined.

(** ** What every run does *)

Lemma tame_weaken (A : Type) (P Q : A -> Prop) (m : M A) :
  (forall a, P a -> Q a) -> tame P m -> tame Q m.
Proof.
  intros HPQ Hm w. destruct (Hm w) as [Hs Ho]. split; [exact Hs|].
  destruct (fst (m w)); auto.
Qed.

Lemma tame_ret (A : Type) (P : A -> Prop) (a : A) : P a -> tame P (ret a).
Proof.
  intros Ha w. split; [exists "", ""; now rewrite emit_nil | exact Ha].
Qed.

Lemma tame_bind (A B : Type) (P : A -> Prop) (Q : B -> Prop)
      (m : M A) (k : A -> M B) :
  tame P m -> (forall a, P a -> tame Q (k a)) -> tame Q (bind m k).
Proof.
  intros Hm Hk w. unfold bind. destruct (Hm w) as [(o1 & e1 & Hs) Ho].
  destruct (m w) as [[a|c|] w']; cbn [fst snd] in *.
  - destruct (Hk a Ho w') as [(o2 & e2 & Hs2) Ho2]. split; [|exact Ho2].
    exists (o1 ++ o2), (e1 ++ e2). now rewrite Hs2, Hs, emit_emit.
  - split; [now exists o1, e1 | exact Ho].
  - split; [now exists o1, e1 | exact I].
Qed.

Lemma tame_put_out (s : string) : tame (fun _ => True) (put_out s).
Proof.
  intro w. split; [|exact I]. exists s, "". unfold put_out. cbn [snd].
  now rewrite emit_out.
Qed.

Lemma tame_put_err (s : string) : tame (fun _ => True) (put_err s).
Proof.
  intro w. split; [|exact I]. exists "", s. unfold put_err, emit. cbn [snd].
  now rewrite str_app_nil_r.
Qed.

Lemma tame_exit (A : Type) (P : A -> Prop) (c : Z) :
  In c exit_codes -> tame P (@exit A c).
Proof.
  intros Hc w. split; [exists "", ""; cbn; now rewrite emit_nil | exact Hc].
Qed.

Lemma tame_undefined (A : Type) (P : A -> Prop) : tame P (@undefined A).
Proof.
  intro w. split; [exists "", ""; cbn; now rewrite emit_nil | exact I].
Qed.

Lemma tame_errorf (A : Type) (P : A -> Prop) (c : Z) (msg : string) :
  In c exit_codes -> tame P (@errorf A c msg).
Proof.
  intros Hc w. rewrite errorf_run. split; [|exact Hc].
  exists "", (errtext msg). unfold failed, emit. cbn [snd].
  now rewrite str_app_nil_r.
Qed.

Ltac tame_step :=
  first
    [ apply tame_ret; exact I
    | apply tame_put_out
    | apply tame_put_err
    | apply tame_undefined
    | apply tame_errorf; unfold exit_codes; simpl; tauto
    | apply tame_exit; unfold exit_codes; simpl; tauto
    | eapply tame_bind with (P := fun _ => True); [|intros ? _] ].

Lemma tame_format_vars (E : Engine) (op : struct_option) (uh : handle E)
      (ptr : string) (vlen : nat) (vars : list var) :
  tame (fun _ => True) (format_vars E vars ptr vlen op uh).
Proof.
  induction vars as [|v vs IH]; [cbn [format_vars]; tame_step|].
  cbn [format_vars]. eapply tame_bind with (P := fun _ => True); [|intros ? _; exact IH].
  destruct (var_match ptr vlen v); [|tame_step].
  destruct (curl_url_get E uh (part v) _) as [rc nurl].
  destruct rc; try destruct nurl; tame_step.
Qed.

Lemma tame_format_loop (E : Engine) (op : struct_option) (uh : handle E)
      (fuel : nat) :
  forall ptr, tame (fun _ => True) (format_loop E fuel ptr op uh).
Proof.
  induction fuel as [|f IH]; intro ptr; [cbn [format_loop]; tame_step|].
  destruct ptr as [|c rest]; [cbn [format_loop]; tame_step|].
  cbn [format_loop].
  destruct (Ascii.eqb "{" c).
  - destruct (Ascii.eqb "{" (char_at 1 (String c rest))).
    + eapply tame_bind with (P := fun _ => True); [apply tame_put_out | intros; apply IH].
    + destruct (strchr (String c rest) "}"); [|apply IH].
      eapply tame_bind with (P := fun _ => True); [apply tame_format_vars | intros; apply IH].
  - destruct (Ascii.eqb "\" c &&
              negb (Ascii.eqb (char_at 1 (String c rest)) zero)).
    + eapply tame_bind with (P := fun _ => True); [|intros; apply IH].
      destruct (Ascii.eqb (char_at 1 (String c rest)) "r"); [tame_step|].
      destruct (Ascii.eqb (char_at 1 (String c rest)) "n"); [tame_step|].
      destruct (Ascii.eqb (char_at 1 (String c rest)) "t"); [tame_step|].
      eapply tame_bind with (P := fun _ => True); [apply tame_put_out | intros; apply tame_put_out].
    + eapply tame_bind with (P := fun _ => True); [apply tame_put_out | intros; apply IH].
Qed.

Lemma tame_format (E : Engine) (op : struct_option) (uh : handle E) :
  tame (fun _ => True) (format E op uh).
Proof.
  unfold format. eapply tame_bind with (P := fun _ => True); [|intros; apply tame_put_out].
  destruct (o_format op); [apply tame_format_loop | tame_step].
Qed.

Lemma tame_set_scan (E : Engine) (vars : list var) :
  forall i setarg vlen value enc (uh : handle E) varset,
    tame (fun _ => True) (set_scan E vars i setarg vlen value enc uh varset).
Proof.
  induction vars as [|v vs IH]; intros; [cbn [set_scan]; tame_step|].
  cbn [set_scan]. destruct (var_match setarg vlen v); [|apply IH].
  eapply tame_bind with (P := fun _ => True).
  - destruct (nth i varset false); tame_step.
  - intros _ _. destruct (curl_url_set E uh (part v) value _). tame_step.
Qed.

Lemma tame_set_nodes (E : Engine) (node : list string) :
  forall (uh : handle E) varset,
    tame (fun _ => True) (set_nodes E node uh varset).
Proof.
  induction node as [|s next IH]; intros; [cbn [set_nodes]; tame_step|].
  cbn [set_nodes]. destruct (strchr s "="); [|tame_step].
  destruct (Nat.ltb 0 n); [|tame_step].
  eapply tame_bind with (P := fun _ => True); [apply tame_set_scan|].
  intros [[found uh'] varset'] _. destruct found; [apply IH | tame_step].
Qed.

Lemma tame_append_paths (E : Engine) (p : list string) :
  forall uh : handle E, tame (fun _ => True) (append_paths E p uh).
Proof.
  induction p as [|a next IH]; intro uh; [cbn [append_paths]; tame_step|].
  cbn [append_paths]. destruct (curl_url_get E uh CURLUPART_PATH 0%Z).
  destruct (npath_of o a); [apply IH | tame_step].
Qed.

Lemma tame_singleurl (E : Engine) (o : struct_option) (url : option string) :
  tame (fun _ => True) (singleurl E o url).
Proof.
  unfold singleurl. destruct (curl_url E) as [uh0|]; [|tame_step].
  eapply tame_bind with (P := fun _ => True).
  - unfold singleurl_mutate.
    eapply tame_bind with (P := fun _ => True); [apply tame_set_nodes|]. intros ? _.
    eapply tame_bind with (P := fun _ => True); [apply tame_append_paths|]. intros ? _. tame_step.
  - intros uh _. destruct (o_format o); [apply tame_format|].
    unfold singleurl_output. destruct (curl_url_get E uh CURLUPART_URL _) as [rc nurl].
    destruct rc; try destruct nurl; tame_step.
Qed.

Lemma tame_main (E : Engine) (o : struct_option) :
  tame (fun z => z = 0%Z) (main E o).
Proof.
  unfold main. eapply tame_bind with (P := fun _ => True);
    [|intros; now apply tame_ret].
  destruct (o_url o) as [stream|].
  - generalize (strlen stream) as fuel. intro fuel. revert stream.
    induction fuel as [|f IH]; intro stream; [cbn [main_file]; tame_step|].
    cbn [main_file]. destruct (fgets BUFSIZE stream) as [[b r]|]; [|tame_step].
    destruct (buffer_url b); [|apply IH].
    eapply tame_bind with (P := fun _ => True); [apply tame_singleurl | intros; apply IH].
  - induction (o_url_list o) as [|u next IH]; [apply tame_singleurl|].
    cbn [main_list].
    eapply tame_bind with (P := fun _ => True); [apply tame_singleurl|]. intros _ _.
    destruct next; [tame_step | exact IH].
Qed.

Lemma tame_help (A : Type) (P : A -> Prop) : tame P (@help A).
Proof.
  unfold help.
  eapply tame_bind with (P := fun _ => True); [apply tame_put_err|].
  intros _ _. eapply tame_bind with (P := fun _ => True).
  - generalize (firstn NUM_COMPONENTS variables) as vars.
    generalize 0 as i. intros i vars. revert i.
    induction vars as [|v vs IH]; intro i; [cbn [help_names]; tame_step|].
    cbn [help_names].
    eapply tame_bind with (P := fun _ => True);
      [apply tame_put_err | intros; apply IH].
  - intros _ _. eapply tame_bind with (P := fun _ => True);
      [apply tame_put_err|].
    intros _ _. apply tame_exit. unfold exit_codes. simpl. tauto.
Qed.

Lemma tame_show_version (V : Env) (A : Type) (P : A -> Prop) :
  tame P (@show_version V A).
Proof.
  unfold show_version.
  eapply tame_bind with (P := fun _ => True); [apply tame_put_out|].
  intros _ _. apply tame_exit. unfold exit_codes. simpl. tauto.
Qed.

Lemma tame_checkoptarg (str given : string) (arg : option string) :
  tame (fun _ => True) (checkoptarg str given arg).
Proof.
  unfold checkoptarg. destruct (String.eqb str given); [|tame_step].
  destruct arg; tame_step.
Qed.

Lemma tame_getlongarg (E : Engine) (V : Env) (op : struct_option)
      (flag : string) (arg : option string) :
  tame (fun _ => True) (getlongarg E V op flag arg).
Proof.
  unfold getlongarg.
  destruct (String.eqb "--help" flag); [apply tame_help|].
  destruct (String.eqb "--version" flag); [apply tame_show_version|].
  eapply tame_bind with (P := fun _ => True); [apply tame_checkoptarg|].
  intros [] _; [tame_step|].
  eapply tame_bind with (P := fun _ => True); [apply tame_checkoptarg|].
  intros [] _.
  { destruct (o_url op); [tame_step|].
    eapply tame_bind with (P := fun _ => True); [|intros; tame_step].
    unfold urlfile. destruct (negb (String.eqb "-" (deref arg))); [|tame_step].
    destruct (fopen V (deref arg)); tame_step. }
  eapply tame_bind with (P := fun _ => True); [apply tame_checkoptarg|].
  intros [] _.
  { eapply tame_bind with (P := fun _ => True); [|intros; tame_step].
    unfold appendadd.
    destruct (Z.eqb (strncasecmp "path=" (deref arg) 5) 0); [tame_step|].
    destruct (Z.eqb (strncasecmp "query=" (deref arg) 6) 0); tame_step. }
  eapply tame_bind with (P := fun _ => True); [apply tame_checkoptarg|].
  intros [] _; [tame_step|].
  eapply tame_bind with (P := fun _ => True); [apply tame_checkoptarg|].
  intros [] _; [destruct (o_redirect op); tame_step|].
  eapply tame_bind with (P := fun _ => True); [apply tame_checkoptarg|].
  intros [] _; [destruct (o_format op); tame_step|].
  destruct (String.eqb "--urldecode" flag); tame_step.
Qed.

Lemma tame_main_args_bounded (E : Engine) (V : Env) (n : nat) :
  forall argv o,
    List.length argv <= n -> tame (fun _ => True) (main_args E V argv o).
Proof.
  induction n as [|n IH]; intros argv o Hlen.
  - destruct argv; [cbn [main_args]; tame_step | simpl in Hlen; lia].
  - destruct argv as [|a rest]; [cbn [main_args]; tame_step|].
    simpl in Hlen.
    assert (Hrest : forall o1, tame (fun _ => True) (main_args E V rest o1))
      by (intro o1; apply IH; lia).
    cbn [main_args].
    destruct (Ascii.eqb (char_at 0 a) "-" &&
              negb (Ascii.eqb (char_at 1 a) "-")).
    + eapply tame_bind with (P := fun _ => True).
      * unfold getshortarg.
        destruct (String.eqb "-v" a); [apply tame_show_version|].
        destruct (String.eqb "-h" a); [apply tame_help | tame_step].
      * intros r _. eapply tame_bind with (P := fun _ => True);
          [destruct (negb (Z.eqb r 0)); tame_step | intros; apply Hrest].
    + destruct (Ascii.eqb (char_at 0 a) "-" && Ascii.eqb (char_at 1 a) "-");
        [|apply Hrest].
      eapply tame_bind with (P := fun _ => True); [apply tame_getlongarg|].
      intros [[rc o'] usedarg] _.
      eapply tame_bind with (P := fun _ => True);
        [destruct (negb (Z.eqb rc 0)); tame_step|].
      intros _ _. destruct usedarg; [|apply Hrest].
      destruct rest as [|b rest']; [tame_step|].
      apply IH. simpl in Hlen. lia.
Qed.

(** X24.  Whatever the command line, the engine and the files are, a run
    only adds to stdout and stderr; when it returns, it returns 0; and when
    it ends through [exit], the status is one of the eight codes 0 to 7 of
    the program. *)
Theorem main_argv_outcomes (E : Engine) (V : Env) (argv : list string)
        (w : world) :
  (exists out err, snd (main_argv E V argv w) = emit w out err) /\
  match fst (main_argv E V argv w) with
  | Ret z => z = 0%Z
  | Exit c => In c exit_codes
  | Undef => True
  end.
Proof.
  assert (H : tame (fun z => z = 0%Z) (main_argv E V argv)).
  { unfold main_argv. eapply tame_bind with (P := fun _ => True).
    - apply (tame_main_args_bounded E V (List.length argv)). lia.
    - intros o _. apply tame_main. }
  exact (H w).
Qed.

(** X25.  A file of URLs without any newline, the empty file included,
    gives no URL at all: [main] returns 0 and writes nothing, where a
    command line without URLs runs once. *)
Theorem file_without_newline_silent (E : Engine) (o : struct_option)
        (stream : string) (w : world) :
  o_url o = Some stream ->
  strchr stream LF = None ->
  main E o w = (Ret 0%Z, w).
Proof.
  intros Hf Hl. unfold main, bind. rewrite Hf, main_file_each.
  now rewrite (file_urls_no_newline _ _ Hl).
Qed.

Lemma file_without_newline_silent_witness :
  main Toy.engine
       (mkOption [] [] [] [] None None (Some "http://a.example/")
                 false false 0%Z) w0 = (Ret 0%Z, w0).
Proof.
  apply (file_without_newline_silent Toy.engine _ "http://a.example/" w0).
  - reflexivity.
  - reflexivity.
Defined.

(** * The format loop, the lookup and the append loops on every input *)

(** ** C4: a brace without a closing one, anywhere the loop arrives *)

Lemma bind_assoc (A B C : Type) (m : M A) (k : A -> M B) (h : B -> M C)
      (w : world) :
  bind (bind m k) h w = bind m (fun a => bind (k a) h) w.
Proof.
  unfold bind. destruct (m w) as [[a| |] w']; try reflexivity.
Qed.

Lemma format_loop_char (E : Engine) (op : struct_option) (uh : handle E)
      (c : ascii) (s : string) (w : world) :
  c <> "{"%char -> c <> "\"%char ->
  format_loop E (strlen (String c s)) (String c s) op uh w =
  format_loop E (strlen s) s op uh (emit w (String c "") "").
Proof.
  intros H1 H2. change (strlen (String c s)) with (S (strlen s)).
  cbn [format_loop].
  rewrite (Ascii.eqb_sym "{" c), (Ascii.eqb_sym "\" c).
  apply Ascii.eqb_neq in H1, H2. rewrite H1, H2. cbn [andb].
  unfold bind, fputc_out, put_out. now rewrite emit_out.
Qed.

Lemma escape_seq_any (c : ascii) :
  c <> zero -> exists y, escape_seq (String "\" (String c "")) y.
Proof.
  intro Hz.
  destruct (Ascii.eqb_spec c "r") as [->|Hr]; [eexists; exact esc_cr|].
  destruct (Ascii.eqb_spec c "n") as [->|Hn]; [eexists; exact esc_lf|].
  destruct (Ascii.eqb_spec c "t") as [->|Ht]; [eexists; exact esc_tab|].
  eexists. now apply esc_other.
Qed.

Lemma format_vars_same_key (E : Engine) (op : struct_option) (uh : handle E)
      (key x y : string) (vars : list var) :
  (forall v, In v vars -> In v variables) ->
  forall w,
    format_vars E vars (key ++ x) (strlen key) op uh w =
    format_vars E vars (key ++ y) (strlen key) op uh w.
Proof.
  intro Hsub. induction vars as [|v vs IH]; intro w; [reflexivity|].
  cbn [format_vars].
  assert (Hv : In v variables) by (apply Hsub; now left).
  assert (Hm : var_match (key ++ x) (strlen key) v =
               var_match (key ++ y) (strlen key) v).
  { destruct (var_match (key ++ x) (strlen key) v) eqn:Hx;
      destruct (var_match (key ++ y) (strlen key) v) eqn:Hy; try reflexivity.
    - apply (var_match_key _ _ _ Hv) in Hx.
      apply (var_match_key key y _ Hv) in Hx. congruence.
    - apply (var_match_key _ _ _ Hv) in Hy.
      apply (var_match_key key x _ Hv) in Hy. congruence. }
  rewrite Hm. unfold bind.
  match goal with |- context [match ?m w with _ => _ end] =>
    destruct (m w) as [[[]| |] w'] end; try reflexivity.
  apply IH. intros v' Hin. apply Hsub. now right.
Qed.

(** The loop of [format] on a text made of whole steps and a tail is the
    loop on the text, then the loop on the tail. *)
Lemma format_loop_items (E : Engine) (op : struct_option) (uh : handle E)
      (tail pre : string) :
  prefix_items tail pre ->
  forall w,
    format_loop E (strlen (pre ++ tail)) (pre ++ tail) op uh w =
    (format_loop E (strlen pre) pre op uh ;;
     format_loop E (strlen tail) tail op uh) w.
Proof.
  induction 1 as [ | c r Hc1 Hc2 Hr IH | r Hr IH | c r Hz Hr IH
                   | key r Hk Hc Hr IH | r Hc Hs Hr IH ]; intro w.
  - unfold bind. cbn [format_loop append strlen String.length]. reflexivity.
  - change (String c r ++ tail) with (String c (r ++ tail)).
    rewrite (format_loop_char E op uh c _ w Hc1 Hc2), IH.
    unfold bind. now rewrite (format_loop_char E op uh c r w Hc1 Hc2).
  - change (String "{" (String "{" r) ++ tail) with ("{{" ++ (r ++ tail)).
    rewrite (format_loop_escape E op uh "{{" "{" (r ++ tail) w esc_brace), IH.
    unfold bind.
    change (String "{" (String "{" r)) with ("{{" ++ r).
    now rewrite (format_loop_escape E op uh "{{" "{" r w esc_brace).
  - destruct (escape_seq_any c Hz) as [y Hy].
    change (String "\" (String c r) ++ tail)
      with (String "\" (String c "") ++ (r ++ tail)).
    rewrite (format_loop_escape E op uh _ y (r ++ tail) w Hy), IH.
    unfold bind.
    change (String "\" (String c r)) with (String "\" (String c "") ++ r).
    now rewrite (format_loop_escape E op uh _ y r w Hy).
  - replace (("{" ++ key ++ "}" ++ r) ++ tail)
      with ("{" ++ key ++ "}" ++ (r ++ tail))
      by (simpl; rewrite str_app_assoc; reflexivity).
    rewrite (format_loop_token E op uh key (r ++ tail) w Hk Hc).
    unfold bind.
    rewrite (format_loop_token E op uh key r w Hk Hc). unfold bind.
    rewrite (format_vars_same_key E op uh key ("}" ++ r ++ tail) ("}" ++ r)
               variables (fun v H => H) w).
    destruct (format_vars E variables (key ++ "}" ++ r) (strlen key) op uh w)
      as [[[]| |] w']; try reflexivity.
    rewrite IH. reflexivity.
  - change (String "{" r ++ tail) with (String "{" (r ++ tail)).
    change (strlen (String "{" (r ++ tail))) with (S (strlen (r ++ tail))).
    rewrite (format_loop_unmatched E op uh _ _ w Hc Hs), IH.
    unfold bind. change (strlen (String "{" r)) with (S (strlen r)).
    destruct (strchr_app_split _ _ _ Hs) as [Hsr _].
    assert (Hcr : char_at 0 r <> "{"%char).
    { destruct r; [discriminate | exact Hc]. }
    now rewrite (format_loop_unmatched E op uh _ _ w Hcr Hsr).
Qed.

Lemma plain_prefix_items (tail pre : string) :
  plain pre = true -> prefix_items tail pre.
Proof.
  induction pre as [|c r IH]; intro H; [constructor|].
  simpl in H. repeat (apply andb_true_iff in H; destruct H as [H ?]).
  apply pi_char.
  - intros ->. discriminate H.
  - intros ->. match goal with H' : negb (Ascii.eqb "\" "\") = true |- _ =>
                 discriminate H' end.
  - now apply IH.
Qed.

(** C4 (as the code has it).  At a ['{'] that is not followed by ['{'] and
    has no ['}'] after it, the loop passes that one character, writes
    nothing and goes on with the next one, whatever has been written
    before.  So for every template in which the loop arrives at such a
    brace after whole steps (characters, escapes, tokens, earlier such
    braces), the rendering is the rendering of the text before the brace
    followed by the rendering of the text after it, and the newline; plain
    text around the brace is printed as it is.  A brace after another brace
    or after a backslash is not such a position: it is part of that escape
    and is printed. *)
Theorem unmatched_brace_is_skipped (E : Engine) (op : struct_option)
        (uh : handle E) (pre rest : string) (w : world) :
  o_format op = Some (pre ++ "{" ++ rest) ->
  prefix_items ("{" ++ rest) pre ->
  char_at 0 rest <> "{"%char ->
  strchr rest "}" = None ->
  (forall fuel w',
      format_loop E (S fuel) ("{" ++ rest) op uh w' =
      format_loop E fuel rest op uh w') /\
  format E op uh w =
  (format_loop E (strlen pre) pre op uh ;;
   format_loop E (strlen rest) rest op uh ;;
   fputc_out LF) w /\
  (plain pre = true -> plain rest = true ->
   format E op uh w =
   (Ret tt, mkWorld (stdout w ++ pre ++ rest ++ nl) (stderr w))) /\
  (forall post w',
      format_loop E (strlen ("{{" ++ post)) ("{{" ++ post) op uh w' =
      format_loop E (strlen post) post op uh (emit w' "{" "") /\
      format_loop E (strlen ("\{" ++ post)) ("\{" ++ post) op uh w' =
      format_loop E (strlen post) post op uh (emit w' "\{" "")).
Proof.
  intros Hf Hpre Hc Hs.
  assert (Hstep : forall fuel w',
             format_loop E (S fuel) ("{" ++ rest) op uh w' =
             format_loop E fuel rest op uh w').
  { intros fuel w'. now apply format_loop_unmatched. }
  assert (Hfmt : format E op uh w =
                 (format_loop E (strlen pre) pre op uh ;;
                  format_loop E (strlen rest) rest op uh ;;
                  fputc_out LF) w).
  { unfold format. rewrite Hf.
    unfold bind. rewrite (format_loop_items E op uh _ _ Hpre w).
    change (strlen ("{" ++ rest)) with (S (strlen rest)).
    unfold bind.
    destruct (format_loop E (strlen pre) pre op uh w) as [[[]| |] w'];
      try reflexivity.
    now rewrite Hstep. }
  split; [exact Hstep|]. split; [exact Hfmt|]. split.
  - intros Hp Hr. rewrite Hfmt. unfold bind.
    rewrite (format_loop_plain_all E op uh pre w Hp).
    rewrite (format_loop_plain_all E op uh rest _ Hr).
    unfold fputc_out, put_out. rewrite emit_out, !emit_emit.
    unfold emit. cbn [append]. rewrite ?str_app_nil_r, ?str_app_assoc.
    reflexivity.
  - intros post w'. split.
    + exact (format_loop_escape E op uh "{{" "{" post w' esc_brace).
    + apply (format_loop_escape E op uh "\{" "\{" post w').
      apply esc_other; discriminate.
Qed.

Lemma unmatched_brace_is_skipped_witness :
  format Toy.engine
         (mkOption [] [] [] [] None (Some ("{host}\{{{ " ++ "{" ++ "x y"))
                   None false false 0%Z)
         (fst (Toy.set Toy.empty CURLUPART_HOST "example.com" 0%Z)) w0 =
  (format_loop Toy.engine (strlen "{host}\{{{ ") "{host}\{{{ "
               (mkOption [] [] [] [] None (Some ("{host}\{{{ " ++ "{" ++ "x y"))
                         None false false 0%Z)
               (fst (Toy.set Toy.empty CURLUPART_HOST "example.com" 0%Z)) ;;
   format_loop Toy.engine (strlen "x y") "x y"
               (mkOption [] [] [] [] None (Some ("{host}\{{{ " ++ "{" ++ "x y"))
                         None false false 0%Z)
               (fst (Toy.set Toy.empty CURLUPART_HOST "example.com" 0%Z)) ;;
   fputc_out LF) w0.
Proof.
  apply (unmatched_brace_is_skipped Toy.engine
           (mkOption [] [] [] [] None (Some ("{host}\{{{ " ++ "{" ++ "x y"))
                     None false false 0%Z)
           (fst (Toy.set Toy.empty CURLUPART_HOST "example.com" 0%Z))
           "{host}\{{{ " "x y" w0).
  - reflexivity.
  - apply (pi_token _ "host" "\{{{ "); [reflexivity | discriminate |].
    apply pi_escape; [discriminate|].
    apply pi_brace.
    apply pi_char; [discriminate | discriminate |].
    apply pi_nil.
  - discriminate.
  - reflexivity.
Defined.

(** C4 on runs: a token, an escaped brace and [{{] before the brace; and a
    brace after a backslash or after another brace, which is not such a
    position and is printed. *)
Example unmatched_brace_runs :
  format Toy.engine
         (mkOption [] [] [] [] None (Some "{host}\{{{ {x y") None
                   false false 0%Z)
         (fst (Toy.set Toy.empty CURLUPART_HOST "example.com" 0%Z)) w0 =
  (Ret tt, mkWorld ("example.com\{{ x y" ++ nl) "") /\
  format Toy.engine
         (mkOption [] [] [] [] None (Some "\{x") None false false 0%Z)
         Toy.empty w0 = (Ret tt, mkWorld ("\{x" ++ nl) "") /\
  format Toy.engine
         (mkOption [] [] [] [] None (Some "{{x") None false false 0%Z)
         Toy.empty w0 = (Ret tt, mkWorld ("{x" ++ nl) "").
Proof. repeat split; vm_compute; reflexivity. Qed.

(** ** C9: what the two lookup loops do with a key *)

Lemma index_of_nth (vars : list var) (i k : nat) (v : var) :
  NoDup (map name vars) -> nth_error vars i = Some v ->
  index_of (name v) vars k = Some (k + i, v).
Proof.
  revert i k. induction vars as [|x xs IH]; intros i k Hnd Hn.
  - destruct i; discriminate Hn.
  - cbn [map] in Hnd. apply NoDup_cons_iff in Hnd. destruct Hnd as [Hx Hnd].
    destruct i as [|i]; cbn [nth_error] in Hn; cbn [index_of].
    + inversion Hn; subst. rewrite String.eqb_refl. f_equal. f_equal. lia.
    + destruct (String.eqb_spec (name v) (name x)) as [He|_].
      * exfalso. apply Hx. rewrite <- He. apply in_map.
        eapply nth_error_In. exact Hn.
      * rewrite (IH i (S k) Hnd Hn). f_equal. f_equal. lia.
Qed.

Lemma target_of_entry (key value : string) (enc : bool) (i : nat) (v : var) :
  nth_error variables i = Some v -> lower key = name v ->
  target (mkSetOp key enc value) = Some (i, v).
Proof.
  intros Hn Hk. unfold target. cbn [so_key]. rewrite Hk.
  exact (index_of_nth variables i 0 v variables_names_nodup Hn).
Qed.

(** The body of the loop of [format] at the entry the key names. *)
Lemma format_vars_entry (E : Engine) (op : struct_option) (uh : handle E)
      (key rest : string) (v : var) (w : world) :
  In v variables -> lower key = name v ->
  format_vars E variables (key ++ rest) (strlen key) op uh w =
  match curl_url_get E uh (part v) (get_flags op) with
  | (CURLUE_OK, Some s) => (Ret tt, emit w s "")
  | (CURLUE_OK, None) => (Undef, w)
  | (rc, _) =>
    (Ret tt,
     emit w ""
          (if absent_code rc then ""
           else PROGNAME ++ ": " ++ curl_url_strerror E rc ++
                " (" ++ name v ++ ")" ++ nl))
  end.
Proof.
  intros Hin Hk.
  rewrite (format_vars_single E op uh key rest v variables
             (fun x H => H) variables_names_nodup Hin Hk).
  assert (Hm : var_match (key ++ rest) (strlen key) v = true)
    by (apply (var_match_key _ _ _ Hin); exact Hk).
  cbn [format_vars]. rewrite Hm. fold (get_flags op).
  destruct (curl_url_get E uh (part v) (get_flags op)) as [rc nurl].
  unfold bind, put_out, put_err, undefined, ret.
  destruct rc; cbn [absent_code]; try destruct nurl;
    unfold emit; cbn [stdout stderr];
    rewrite ?str_app_nil_r; try reflexivity;
    destruct w; reflexivity.
Qed.

(** C9.  The lookup of [--set] keys and of [{name}] tokens is by the full
    name, upper and lower case being the same.  For an entry [v] of the
    registry, at index [i]: the test of the loops holds for [v] exactly
    when the key, in lower case, is the name of [v]; a key that is a strict
    prefix, a strict extension or a one-character variant of any registry
    name does not match.  A key that is the name in any letter case is
    found by both loops: the loop of [set] hands the value to the engine for
    the component of [v] and marks index [i] (or reports the component as
    set twice when [i] is marked), for [key=value] and for [key:=value];
    the loop of [format] asks the engine for the component of [v], once,
    and prints what it hands back.  A key that is the name of no entry in
    lower case ends [set] with [ERROR_SET] and the unknown-component
    message, in both forms, and prints nothing in a template. *)
Theorem component_lookup_exact (key rest : string) (i : nat) (v : var) :
  nth_error variables i = Some v ->
  (var_match (key ++ rest) (strlen key) v = true <-> lower key = name v) /\
  (forall v', In v' variables ->
     strict_prefix key (name v') \/ strict_extension key (name v') \/
     one_char_off key (name v') ->
     var_match (key ++ rest) (strlen key) v = false) /\
  (lower key = name v ->
   (forall (E : Engine) enc value next (uh : handle E) varset w,
      set_nodes E (setop_arg (mkSetOp key enc value) :: next) uh varset w =
      if nth i varset false then (Exit ERROR_SET, failed w (dup_msg v))
      else set_nodes E next
                     (fst (curl_url_set E uh (part v) value (set_flags enc)))
                     (varset_mark i varset) w) /\
   (forall (E : Engine) op (uh : handle E) w,
      format_vars E variables (key ++ rest) (strlen key) op uh w =
      match curl_url_get E uh (part v) (get_flags op) with
      | (CURLUE_OK, Some s) => (Ret tt, emit w s "")
      | (CURLUE_OK, None) => (Undef, w)
      | (rc, _) =>
        (Ret tt,
         emit w ""
              (if absent_code rc then ""
               else PROGNAME ++ ": " ++ curl_url_strerror E rc ++
                    " (" ++ name v ++ ")" ++ nl))
      end)) /\
  (forall (E : Engine) enc value next (uh : handle E) varset w,
     strchr key "=" = None ->
     (enc = true -> key <> "" /\ ends_with ":" key = false) ->
     (forall v', In v' variables -> lower key <> name v') ->
     set_nodes E (setop_arg (mkSetOp key enc value) :: next) uh varset w =
     (Exit ERROR_SET,
      failed w ("Set unknown component: " ++
                setop_arg (mkSetOp key enc value)))) /\
  (forall (E : Engine) op (uh : handle E) w,
     (forall v', In v' variables -> lower key <> name v') ->
     format_vars E variables (key ++ rest) (strlen key) op uh w = (Ret tt, w)).
Proof.
  intro Hn. assert (Hv : In v variables) by (eapply nth_error_In; exact Hn).
  split; [exact (var_match_key key rest v Hv)|].
  split; [|split; [|split]].
  - intros v' Hv' Hnear.
    destruct (var_match (key ++ rest) (strlen key) v) eqn:Hm; [|reflexivity].
    apply (var_match_key _ _ _ Hv) in Hm.
    exfalso. exact (near_miss_unknown key v v' Hv Hv' Hnear Hm).
  - intro Hk. split.
    + intros E enc value next uh varset w.
      pose proof (target_of_entry key value enc i v Hn Hk) as Ht.
      rewrite (set_nodes_known E _ i v next uh varset w Ht).
      unfold apply_setop. rewrite Ht. reflexivity.
    + intros E op uh w. exact (format_vars_entry E op uh key rest v w Hv Hk).
  - intros E enc value next uh varset w Hk Henc Hunk.
    rewrite set_nodes_step by (simpl; auto).
    assert (Hnone : target (mkSetOp key enc value) = None).
    { unfold target. apply index_of_none. intros v' Hv' Heq.
      apply (Hunk v' Hv'). now symmetry. }
    now rewrite Hnone.
  - intros E op uh w Hunk. apply format_vars_no_match.
    intros v' Hv'.
    destruct (var_match (key ++ rest) (strlen key) v') eqn:Hm; [|reflexivity].
    apply (var_match_key _ _ _ Hv') in Hm. exfalso. exact (Hunk v' Hv' Hm).
Qed.

Lemma component_lookup_exact_witness :
  set_nodes Toy.engine ["HoSt=example.com"; "PORT:=8080"] Toy.empty
            (repeat false NUM_COMPONENTS) w0 =
  set_nodes Toy.engine ["PORT:=8080"]
            (fst (Toy.set Toy.empty CURLUPART_HOST "example.com"
                          (set_flags true)))
            (varset_mark 5 (repeat false NUM_COMPONENTS)) w0 /\
  format_vars Toy.engine variables ("HoSt" ++ "} x") (strlen "HoSt")
              o_zero
              (fst (Toy.set Toy.empty CURLUPART_HOST "example.com" 0%Z)) w0 =
  (Ret tt, emit w0 "example.com" "") /\
  var_match ("hos" ++ "=example.com") (strlen "hos")
            (mkVar "host" CURLUPART_HOST) = false.
Proof.
  assert (Hn : nth_error variables 5 = Some (mkVar "host" CURLUPART_HOST))
    by reflexivity.
  assert (Hin : In (mkVar "host" CURLUPART_HOST) variables).
  { simpl. do 5 right. left. reflexivity. }
  split; [|split].
  - exact (proj1 (proj1 (proj2 (proj2
             (component_lookup_exact "HoSt" "" 5 _ Hn))) eq_refl)
             Toy.engine true "example.com" ["PORT:=8080"] Toy.empty
             (repeat false NUM_COMPONENTS) w0).
  - exact (proj2 (proj1 (proj2 (proj2
             (component_lookup_exact "HoSt" "} x" 5 _ Hn))) eq_refl)
             Toy.engine o_zero
             (fst (Toy.set Toy.empty CURLUPART_HOST "example.com" 0%Z)) w0).
  - apply (proj1 (proj2 (component_lookup_exact "hos" "=example.com" 5 _ Hn))
             (mkVar "host" CURLUPART_HOST) Hin).
    left. exists "t". split; [discriminate | reflexivity].
Defined.

(** C9 on runs: the same component under three spellings of its name, in
    [--set] and in a template. *)
Example component_lookup_runs :
  main Toy.engine
       (mkOption ["http://example.com/"] [] [] ["HOST=example.org"]
                 None (Some "{Host} {hOsT} {hos} {hostx}") None false false 0%Z)
       w0 =
  (Ret 0%Z, mkWorld ("example.org example.org  " ++ nl) "").
Proof. vm_compute. reflexivity. Qed.

(** ** C6: the result codes of the engine's set are not read *)

Lemma set_scan_codes (E : Engine)
      (c : handle E -> CURLUPart -> string -> Z -> CURLUcode)
      (vars : list var) :
  forall i setarg vlen value urlencode uh varset w,
    set_scan (with_codes E c) vars i setarg vlen value urlencode uh varset w =
    set_scan E vars i setarg vlen value urlencode uh varset w.
Proof.
  induction vars as [|v vs IH]; intros; [reflexivity|].
  cbn [set_scan]. destruct (var_match setarg vlen v); [|apply IH].
  unfold bind. destruct (nth i varset false); [reflexivity|].
  unfold ret, with_codes. cbn [curl_url_set handle].
  destruct (curl_url_set E uh (part v) value _) as [uh' rc]. reflexivity.
Qed.

Lemma set_nodes_codes (E : Engine)
      (c : handle E -> CURLUPart -> string -> Z -> CURLUcode)
      (node : list string) :
  forall uh varset w,
    set_nodes (with_codes E c) node uh varset w = set_nodes E node uh varset w.
Proof.
  induction node as [|setarg next IH]; intros; [reflexivity|].
  cbn [set_nodes]. destruct (strchr setarg "=") as [ptr|]; [|reflexivity].
  destruct (Nat.ltb 0 ptr); [|reflexivity].
  unfold bind. rewrite set_scan_codes.
  match goal with |- context [match ?m w with _ => _ end] =>
    destruct (m w) as [[[[found uh'] varset']| |] w'] end; try reflexivity.
  destruct found; [apply IH | reflexivity].
Qed.

Lemma append_paths_codes (E : Engine)
      (c : handle E -> CURLUPart -> string -> Z -> CURLUcode)
      (p : list string) :
  forall uh w,
    append_paths (with_codes E c) p uh w = append_paths E p uh w.
Proof.
  induction p as [|apath next IH]; intros; [reflexivity|].
  cbn [append_paths].
  change (curl_url_get (with_codes E c)) with (curl_url_get E).
  destruct (curl_url_get E uh CURLUPART_PATH 0%Z) as [rc opath].
  destruct (npath_of opath apath); [|reflexivity]. rewrite IH. reflexivity.
Qed.

Lemma append_queries_codes (E : Engine)
      (c : handle E -> CURLUPart -> string -> Z -> CURLUcode)
      (p : list string) :
  forall uh, append_queries (with_codes E c) p uh = append_queries E p uh.
Proof.
  induction p as [|aq next IH]; intros; [reflexivity|].
  cbn [append_queries].
  change (curl_url_get (with_codes E c)) with (curl_url_get E).
  change (nilstr (with_codes E c)) with (nilstr E).
  destruct (curl_url_get E uh CURLUPART_QUERY 0%Z) as [rc oq].
  rewrite IH. reflexivity.
Qed.

Lemma singleurl_mutate_codes (E : Engine)
      (c : handle E -> CURLUPart -> string -> Z -> CURLUcode)
      (o : struct_option) (url : option string) (uh : handle E) (w : world) :
  singleurl_mutate (with_codes E c) o url uh w = singleurl_mutate E o url uh w.
Proof.
  unfold singleurl_mutate, set, bind.
  assert (Hb : singleurl_base (with_codes E c) o url uh =
               singleurl_base E o url uh).
  { unfold singleurl_base. destruct url; [|reflexivity].
    destruct (o_redirect o); reflexivity. }
  rewrite Hb, set_nodes_codes.
  destruct (set_nodes E (o_set_list o) (singleurl_base E o url uh)
                      (repeat false NUM_COMPONENTS) w) as [[uh2| |] w2];
    [|reflexivity|reflexivity].
  rewrite append_paths_codes.
  destruct (append_paths E (o_append_path o) uh2 w2) as [[uh3| |] w3];
    [|reflexivity|reflexivity].
  unfold ret. now rewrite append_queries_codes.
Qed.

Lemma format_vars_codes (E : Engine)
      (c : handle E -> CURLUPart -> string -> Z -> CURLUcode)
      (vars : list var) (ptr : string) (vlen : nat) (op : struct_option)
      (uh : handle E) :
  forall w,
    format_vars (with_codes E c) vars ptr vlen op uh w =
    format_vars E vars ptr vlen op uh w.
Proof.
  induction vars as [|v vs IH]; intro w; [reflexivity|].
  cbn [format_vars]. unfold bind.
  change (curl_url_get (with_codes E c)) with (curl_url_get E).
  change (curl_url_strerror (with_codes E c)) with (curl_url_strerror E).
  match goal with |- context [match ?m w with _ => _ end] =>
    destruct (m w) as [[[]| |] w'] end; [|reflexivity|reflexivity].
  apply IH.
Qed.

Lemma format_loop_codes (E : Engine)
      (c : handle E -> CURLUPart -> string -> Z -> CURLUcode)
      (op : struct_option) (uh : handle E) (fuel : nat) :
  forall ptr w,
    format_loop (with_codes E c) fuel ptr op uh w =
    format_loop E fuel ptr op uh w.
Proof.
  induction fuel as [|fuel IH]; intros ptr w; [reflexivity|].
  cbn [format_loop]. destruct ptr as [|ch rest]; [reflexivity|].
  destruct (Ascii.eqb "{" ch).
  - destruct (Ascii.eqb "{" (char_at 1 (String ch rest))).
    + unfold bind. destruct (fputc_out "{" w) as [[[]| |] w'];
        [|reflexivity|reflexivity]. apply IH.
    + destruct (strchr (String ch rest) "}") as [e|]; [|apply IH].
      unfold bind. rewrite format_vars_codes.
      destruct (format_vars E variables rest (e - 1) op uh w)
        as [[[]| |] w']; [|reflexivity|reflexivity].
      apply IH.
  - destruct (Ascii.eqb "\" ch && negb (Ascii.eqb (char_at 1 (String ch rest)) zero)).
    + unfold bind.
      match goal with |- context [match ?m w with _ => _ end] =>
        destruct (m w) as [[[]| |] w'] end; [|reflexivity|reflexivity].
      apply IH.
    + unfold bind. destruct (fputc_out ch w) as [[[]| |] w'];
        [|reflexivity|reflexivity]. apply IH.
Qed.

Lemma singleurl_codes (E : Engine)
      (c : handle E -> CURLUPart -> string -> Z -> CURLUcode)
      (o : struct_option) (url : option string) (w : world) :
  singleurl (with_codes E c) o url w = singleurl E o url w.
Proof.
  unfold singleurl.
  change (curl_url (with_codes E c)) with (curl_url E).
  destruct (curl_url E) as [uh0|]; [|reflexivity].
  unfold bind. rewrite singleurl_mutate_codes.
  destruct (singleurl_mutate E o url uh0 w) as [[uh| |] w'];
    [|reflexivity|reflexivity].
  destruct (o_format o) as [fmt|] eqn:Hf; [|reflexivity].
  unfold format, bind. rewrite Hf.
  now rewrite format_loop_codes.
Qed.

Lemma each_input_codes (E : Engine)
      (c : handle E -> CURLUPart -> string -> Z -> CURLUcode)
      (o : struct_option) (l : list (option string)) :
  forall w, each_input (with_codes E c) o l w = each_input E o l w.
Proof.
  induction l as [|u rest IH]; intro w; [reflexivity|].
  cbn [each_input]. unfold bind. rewrite singleurl_codes.
  destruct (singleurl E o u w) as [[[]| |] w']; [|reflexivity|reflexivity].
  apply IH.
Qed.

Lemma fold_path_step_none (E : Engine) (l : list string) :
  fold_left (path_step E) l None = None.
Proof. induction l as [|a l IH]; [reflexivity | exact IH]. Qed.

(** The loop over the path segments hands every segment to the engine, in
    order, whatever the engine answers to a set. *)
Lemma append_paths_fold (E : Engine) (l : list string) :
  forall (uh : handle E) (w : world),
    append_paths E l uh w =
    match fold_left (path_step E) l (Some uh) with
    | Some uh' => (Ret uh', w)
    | None => (Undef, w)
    end.
Proof.
  induction l as [|apath next IH]; intros uh w; [reflexivity|].
  cbn [append_paths fold_left path_step].
  destruct (curl_url_get E uh CURLUPART_PATH 0%Z) as [rc opath].
  cbn [snd]. destruct opath as [[|ch r]|].
  - cbn [npath_of strlen String.length char_before].
    now rewrite fold_path_step_none.
  - rewrite (npath_of_join (String ch r) apath) by discriminate. apply IH.
  - cbn [npath_of]. now rewrite fold_path_step_none.
Qed.

Lemma append_queries_fold (E : Engine) (l : list string) :
  forall uh : handle E,
    append_queries E l uh = fold_left (query_step E) l uh.
Proof.
  induction l as [|aq next IH]; intro uh; [reflexivity|].
  cbn [append_queries fold_left]. unfold query_step at 2.
  destruct (curl_url_get E uh CURLUPART_QUERY 0%Z) as [rc oq].
  cbn [snd]. apply IH.
Qed.

Lemma set_ops (E : Engine) (o : struct_option) (ops : list SetOp)
      (uh : handle E) (w : world) :
  o_set_list o = map setop_arg ops ->
  Forall (fun op => target op <> None) ops ->
  NoDup (map target_index ops) ->
  set E uh o w = (Ret (fold_left (apply_setop E) ops uh), w).
Proof.
  intros Hl Hall Hnd.
  unfold set. rewrite Hl, <- (List.app_nil_r (map setop_arg ops)).
  destruct (set_nodes_ops E ops uh (repeat false NUM_COMPONENTS) w [])
    as (vs' & _ & _ & Heq);
    [apply repeat_length | exact Hall | exact Hnd
     | intros; apply repeat_false_nth |].
  rewrite Heq. reflexivity.
Qed.

(** C6 (as the code has it).  The result code of the engine's set is never
    read: a whole run on an engine whose sets answer with any other codes
    is the same run, output and exit status included.  Every operation is
    handed to the engine in its turn: the loop over the query segments is
    the fold of the single step over all of them, the loop over the path
    segments is the fold of its step over all of them (a step stops the
    run only where the engine hands back no path or an empty one, which the
    code reads out of range), and set operations that name components, no
    two the same one, are all applied in order with nothing written; so
    the three phases together are the three folds, one after the other. *)
Theorem engine_set_errors_ignored (E : Engine) (o : struct_option)
        (url : option string) (uh : handle E) (w : world) :
  (forall c, main (with_codes E c) o w = main E o w) /\
  (forall c,
      singleurl_mutate (with_codes E c) o url uh w =
      singleurl_mutate E o url uh w) /\
  (forall l (h : handle E),
      append_queries E l h = fold_left (query_step E) l h) /\
  (forall l (h : handle E) w',
      append_paths E l h w' =
      match fold_left (path_step E) l (Some h) with
      | Some h' => (Ret h', w')
      | None => (Undef, w')
      end) /\
  (forall ops,
      o_set_list o = map setop_arg ops ->
      Forall (fun op => target op <> None) ops ->
      NoDup (map target_index ops) ->
      set E uh o w = (Ret (fold_left (apply_setop E) ops uh), w) /\
      singleurl_mutate E o url uh w =
      match fold_left (path_step E) (o_append_path o)
                      (Some (fold_left (apply_setop E) ops
                                       (singleurl_base E o url uh))) with
      | Some h' => (Ret (fold_left (query_step E) (o_append_query o) h'), w)
      | None => (Undef, w)
      end).
Proof.
  split; [|split; [|split; [|split]]].
  - intro c. rewrite !main_batch. unfold bind.
    now rewrite each_input_codes.
  - intro c. apply singleurl_mutate_codes.
  - intros l h. apply append_queries_fold.
  - intros l h w'. apply append_paths_fold.
  - intros ops Hl Hall Hnd. split; [now apply set_ops|].
    unfold singleurl_mutate, bind.
    rewrite (set_ops E o ops _ w Hl Hall Hnd), append_paths_fold.
    destruct (fold_left (path_step E) (o_append_path o) _) as [h'|];
      [|reflexivity].
    unfold ret. now rewrite append_queries_fold.
Qed.

Lemma engine_set_errors_ignored_witness :
  set Toy.engine Toy.empty
      (mkOption [] ["a"; "b"] ["k=v"]
                ["scheme=https"; "host=example.com"; "port=abc"]
                None None None false false 0%Z) w0 =
  (Ret (fold_left (apply_setop Toy.engine)
                  [mkSetOp "scheme" true "https";
                   mkSetOp "host" true "example.com";
                   mkSetOp "port" true "abc"] Toy.empty), w0) /\
  singleurl_mutate Toy.engine
      (mkOption [] ["a"; "b"] ["k=v"]
                ["scheme=https"; "host=example.com"; "port=abc"]
                None None None false false 0%Z) None Toy.empty w0 =
  match fold_left (path_step Toy.engine) ["a"; "b"]
                  (Some (fold_left (apply_setop Toy.engine)
                                   [mkSetOp "scheme" true "https";
                                    mkSetOp "host" true "example.com";
                                    mkSetOp "port" true "abc"] Toy.empty)) with
  | Some h' => (Ret (fold_left (query_step Toy.engine) ["k=v"] h'), w0)
  | None => (Undef, w0)
  end.
Proof.
  apply (proj2 (proj2 (proj2 (proj2
           (engine_set_errors_ignored Toy.engine
              (mkOption [] ["a"; "b"] ["k=v"]
                        ["scheme=https"; "host=example.com"; "port=abc"]
                        None None None false false 0%Z)
              None Toy.empty w0))))
           [mkSetOp "scheme" true "https";
            mkSetOp "host" true "example.com";
            mkSetOp "port" true "abc"]).
  - reflexivity.
  - repeat constructor; discriminate.
  - repeat constructor; simpl; intuition discriminate.
Defined.

(** C6 on a run: the engine refuses the port; the path and the query
    segments that follow are appended all the same, the URL is printed and
    the status is 0. *)
Example engine_error_run :
  main Toy.engine
       (mkOption [] ["a"; "b"] ["k=v"; "x=y"]
                 ["scheme=https"; "host=example.com"; "port=abc"; "query=q"]
                 None None None false false 0%Z) w0 =
  (Ret 0%Z, mkWorld ("https://example.com/a/b?q&k=v&x=y" ++ nl) "").
Proof. vm_compute. reflexivity. Qed.

(** ** C8: one path segment, whatever the engine hands back *)

(** C8 (as the code has it).  For a path segment, the body of the loop is
    decided by what the engine hands back for the current path.  A path of
    at least one character is joined with the segment, one ['/'] between
    them unless the path ends with one, and the result is handed to the
    engine with no flag.  No path, or the empty string, is not treated as
    the empty path: the code takes [strlen] of it and reads the character
    before its end, [opath[olen-1]], which is outside the string, so the
    run has no defined behaviour there; the join of the empty path with the
    segment would be ['/'] and the segment.  The whole loop is this step
    taken for every segment in order, and returns the handle as it is for
    no segment. *)
Theorem append_path_unguarded (E : Engine) (uh : handle E) (apath : string)
        (next : list string) (rc : CURLUcode) (opath : option string)
        (w : world) :
  curl_url_get E uh CURLUPART_PATH 0%Z = (rc, opath) ->
  append_paths E (apath :: next) uh w =
  match opath with
  | Some (String c r) =>
    append_paths E next
      (fst (curl_url_set E uh CURLUPART_PATH
              (path_join (String c r) apath) 0%Z)) w
  | Some EmptyString | None => (Undef, w)
  end /\
  (forall l,
      append_paths E l uh w =
      match fold_left (path_step E) l (Some uh) with
      | Some uh' => (Ret uh', w)
      | None => (Undef, w)
      end) /\
  path_join "" apath = "/" ++ apath.
Proof.
  intro Hg. split; [|split; [|reflexivity]].
  - cbn [append_paths]. rewrite Hg. destruct opath as [[|c r]|].
    + reflexivity.
    + rewrite (npath_of_join (String c r) apath) by discriminate.
      reflexivity.
    + reflexivity.
  - intro l. apply append_paths_fold.
Qed.

Lemma append_path_unguarded_witness :
  append_paths raw_engine ["a"]
    (fst (Toy.set (fst (Toy.set Toy.empty CURLUPART_URL
                                "http://example.com/" 0%Z))
                  CURLUPART_PATH "" 0%Z)) w0 = (Undef, w0) /\
  path_join "" "a" = "/" ++ "a".
Proof.
  pose proof (append_path_unguarded raw_engine
                (fst (Toy.set (fst (Toy.set Toy.empty CURLUPART_URL
                                            "http://example.com/" 0%Z))
                              CURLUPART_PATH "" 0%Z))
                "a" [] CURLUE_OK (Some "") w0 eq_refl) as [H1 [_ H2]].
  split; [exact H1 | exact H2].
Defined.

(** C8, the failing input: on an engine that hands back the empty path it
    was handed, the empty path is set and a segment appended to it; and
    the same segment appended to the path ["/"]. *)
Example append_path_failing_input :
  main raw_engine
       (mkOption ["http://example.com/"] ["a"] [] ["path:="] None None None
                 false false 0%Z) w0 = (Undef, w0) /\
  main raw_engine
       (mkOption ["http://example.com/"] ["a"] [] [] None None None
                 false false 0%Z) w0 =
  (Ret 0%Z, mkWorld ("http://example.com/a" ++ nl) "").
Proof. split; vm_compute; reflexivity. Qed.

(** ** More on the append loops and on the batch *)

(** X10.  When the engine reads back the path it was handed: from a current
    path that the engine hands back as a string of at least one character,
    the path loop returns for every list of segments, and the path is then
    the current one joined with the segments in order, each with one ['/']
    unless what is before it ends with one; from no path or an empty one,
    the loop returns the handle as it is for no segment, and has no defined
    behaviour for one segment or more. *)
Theorem append_paths_composes (E : Engine) (l : list string) :
  reads_back E CURLUPART_PATH ->
  forall (uh : handle E) (rc : CURLUcode) (opath : option string) (w : world),
    curl_url_get E uh CURLUPART_PATH 0%Z = (rc, opath) ->
    match opath, l with
    | Some (String c r), _ =>
      exists uh' rc',
        append_paths E l uh w = (Ret uh', w) /\
        curl_url_get E uh' CURLUPART_PATH 0%Z =
        (rc', Some (fold_left path_join l (String c r)))
    | _, [] => append_paths E l uh w = (Ret uh, w)
    | _, _ :: _ => append_paths E l uh w = (Undef, w)
    end.
Proof.
  intro Hrb.
  assert (Hgo : forall l (uh : handle E) rc p w,
             curl_url_get E uh CURLUPART_PATH 0%Z = (rc, Some p) ->
             p <> "" ->
             exists uh' rc',
               append_paths E l uh w = (Ret uh', w) /\
               curl_url_get E uh' CURLUPART_PATH 0%Z =
               (rc', Some (fold_left path_join l p))).
  { clear l. induction l as [|a next IH]; intros uh rc p w Hg Hp.
    - exists uh, rc. split; [reflexivity | exact Hg].
    - cbn [append_paths fold_left]. rewrite Hg, (npath_of_join _ _ Hp).
      pose proof (path_join_nonempty p a Hp) as Hne.
      destruct (Hrb uh (path_join p a) Hne) as [rc1 H1].
      exact (IH _ rc1 _ w H1 Hne). }
  intros uh rc opath w Hg. destruct opath as [[|c r]|].
  - destruct l as [|a next]; [reflexivity|].
    cbn [append_paths]. rewrite Hg. reflexivity.
  - apply (Hgo l uh rc (String c r) w Hg). discriminate.
  - destruct l as [|a next]; [reflexivity|].
    cbn [append_paths]. rewrite Hg. reflexivity.
Qed.

Lemma append_paths_composes_witness :
  exists uh' rc',
    append_paths Toy.engine ["a"; "b/"; "c"] Toy.empty w0 = (Ret uh', w0) /\
    curl_url_get Toy.engine uh' CURLUPART_PATH 0%Z =
    (rc', Some (fold_left path_join ["a"; "b/"; "c"] "/")).
Proof.
  apply (append_paths_composes Toy.engine ["a"; "b/"; "c"]
           toy_reads_back_path Toy.empty CURLUE_OK (Some "/") w0).
  reflexivity.
Defined.

Lemma each_input_prints (E : Engine) (o : struct_option)
      (h : option string -> handle E) (out : option string -> string)
      (uh0 : handle E) (inputs : list (option string)) :
  o_format o = None ->
  curl_url E = Some uh0 ->
  (forall u w', In u inputs ->
                singleurl_mutate E o u uh0 w' = (Ret (h u), w')) ->
  (forall u, In u inputs ->
             curl_url_get E (h u) CURLUPART_URL (output_flags o) =
             (CURLUE_OK, Some (out u))) ->
  forall w,
    each_input E o inputs w =
    (Ret tt, emit w (String.concat "" (map (fun u => out u ++ nl) inputs)) "").
Proof.
  intros Hf Hu Hm Hg.
  induction inputs as [|u rest IH]; intro w.
  - simpl. now rewrite emit_nil.
  - cbn [map each_input]. unfold bind at 1.
    assert (Hone : singleurl E o u w = (Ret tt, emit w (out u ++ nl) "")).
    { unfold singleurl. rewrite Hu. unfold bind.
      rewrite (Hm u w (or_introl eq_refl)), Hf.
      unfold singleurl_output. fold (output_flags o).
      rewrite (Hg u (or_introl eq_refl)). unfold put_out.
      now rewrite emit_out. }
    rewrite Hone, IH.
    + rewrite emit_emit. f_equal. f_equal.
      cbn [map]. destruct rest as [|u' rest']; [now rewrite str_app_nil_r|].
      cbn [map String.concat]. reflexivity.
    + intros u' w' Hin. apply Hm. now right.
    + intros u' Hin. apply Hg. now right.
Qed.

(** X12.  Without a format, when for every input of the batch (the URLs of
    the command line in their order; or, with none, the one run without a
    base URL; or the URLs of the file in their order) the set and append
    phases return and the engine builds the whole URL, [main] prints one
    line per input, in the order of the batch, writes nothing to stderr
    and returns 0. *)
Theorem main_prints_in_order (E : Engine) (o : struct_option)
        (h : option string -> handle E) (out : option string -> string)
        (uh0 : handle E) (w : world) :
  o_format o = None ->
  curl_url E = Some uh0 ->
  (forall u w', In u (batch_inputs o) ->
                singleurl_mutate E o u uh0 w' = (Ret (h u), w')) ->
  (forall u, In u (batch_inputs o) ->
             curl_url_get E (h u) CURLUPART_URL (output_flags o) =
             (CURLUE_OK, Some (out u))) ->
  main E o w =
  (Ret 0%Z,
   emit w (String.concat "" (map (fun u => out u ++ nl) (batch_inputs o))) "").
Proof.
  intros Hf Hu Hm Hg. rewrite main_batch. unfold bind.
  rewrite (each_input_prints E o h out uh0 (batch_inputs o) Hf Hu Hm Hg).
  reflexivity.
Qed.

Lemma main_prints_in_order_witness :
  main Toy.engine
       (mkOption ["http://b.example/x"; "http://a.example/"] ["p"] [] []
                 None None None false false 0%Z) w0 =
  (Ret 0%Z,
   emit w0 (String.concat ""
              (map (fun u => match u with
                             | Some "http://a.example/" => "http://a.example/p"
                             | _ => "http://b.example/x/p"
                             end ++ nl)
                   [Some "http://b.example/x"; Some "http://a.example/"])) "") /\
  main Toy.engine
       (mkOption [] [] [] ["scheme=https"; "host=a.example"]
                 None None None false false 0%Z) w0 =
  (Ret 0%Z,
   emit w0 (String.concat ""
              (map (fun _ : option string => "https://a.example/" ++ nl)
                   [None])) "").
Proof.
  split.
  - apply (main_prints_in_order Toy.engine
             (mkOption ["http://b.example/x"; "http://a.example/"] ["p"] [] []
                       None None None false false 0%Z)
             (fun u =>
                match u with
                | Some s =>
                  fst (Toy.set (fst (Toy.set Toy.empty CURLUPART_URL s 0%Z))
                               CURLUPART_PATH
                               (if String.eqb s "http://a.example/"
                                then "/p" else "/x/p") 0%Z)
                | None => Toy.empty
                end)
             (fun u => match u with
                       | Some "http://a.example/" => "http://a.example/p"
                       | _ => "http://b.example/x/p"
                       end) Toy.empty w0).
    + reflexivity.
    + reflexivity.
    + intros u w' [<-|[<-|[]]]; reflexivity.
    + intros u [<-|[<-|[]]]; reflexivity.
  - apply (main_prints_in_order Toy.engine
             (mkOption [] [] [] ["scheme=https"; "host=a.example"]
                       None None None false false 0%Z)
             (fun _ =>
                fst (Toy.set (fst (Toy.set Toy.empty CURLUPART_SCHEME
                                           "https" (set_flags true)))
                             CURLUPART_HOST "a.example" (set_flags true)))
             (fun _ => "https://a.example/") Toy.empty w0).
    + reflexivity.
    + reflexivity.
    + intros u w' [<-|[]]; reflexivity.
    + intros u [<-|[]]; reflexivity.
Defined.
